(** * OpenLoco: the main loop (tick scheduling, tick logic, date boundary, autosave)

    A shallow embedding of the simulation core of [OpenLoco.cpp]:
    [tick], [tickLogic], [dateTick], [autosaveCheck], [autosave],
    [autosaveClean], [variableUpdate], [fixedUpdate] and [update].

    The functions of the translation unit are written in a small monad that
    threads the unit's own variables, records a call trace and propagates C++
    exceptions.  The collaborators the unit calls (managers, UI, network,
    file system, configuration) are an interface, [Host], over an abstract
    world [W]; every theorem holds for every implementation of it. *)

From Stdlib Require Import ZArith List String Ascii Bool Lia.
From Stdlib Require Import PrimFloat FloatOps Uint63 DecimalString HexadecimalString.
From Stdlib Require Import Sorting.Sorted Sorting.Permutation.
Import ListNotations.

Local Open Scope string_scope.
Local Open Scope list_scope.
Local Open Scope Z_scope.

(** ** Machine integers *)

(** [uint32_t] and [uint16_t] arithmetic is arithmetic modulo a power of
    two. *)
Definition wrap32 (z : Z) : Z := z mod 2 ^ 32.
Definition wrap16 (z : Z) : Z := z mod 2 ^ 16.

(** [std::clamp(v, lo, hi)]. *)
Definition std_clamp (v lo hi : Z) : Z :=
  if v <? lo then lo else if hi <? v then hi else v.

(** ** Doubles and floats

    [_accumulator], [UpdateTime] and [MaxUpdateTime] are IEEE binary64
    values: Rocq's primitive floats. *)

(** [std::min(a, b)] is [(b < a) ? b : a]. *)
Definition std_min_double (a b : float) : float :=
  if PrimFloat.ltb b a then b else a.

(** The conversion of a 64-bit signed integer to [double]. *)
Definition double_of_Z (z : Z) : float :=
  if 0 <=? z then PrimFloat.of_uint63 (Uint63.of_Z z)
  else PrimFloat.opp (PrimFloat.of_uint63 (Uint63.of_Z (- z))).

Definition two52 : float := 4503599627370496%float.
Definition two128 : float := 340282366920938463463374607431768211456%float.

(** Rounding to the nearest integer, ties to even, of [x] with [|x| < 2^52].
    The result has the sign of [x], also when it is a zero. *)
Definition round_even (x : float) : float :=
  if PrimFloat.ltb x 0%float
  then PrimFloat.opp (PrimFloat.sub (PrimFloat.add (PrimFloat.opp x) two52) two52)
  else PrimFloat.sub (PrimFloat.add x two52) two52.

(** The conversion [double -> float] (binary32: 24 bits of precision, least
    exponent -149), rounding to nearest, ties to even.  The result is kept as
    the binary64 value it denotes. *)
Definition float_of_double (x : float) : float :=
  if PrimFloat.is_nan x || PrimFloat.is_infinity x || PrimFloat.is_zero x then x
  else
    let e := snd (Z.frexp x) in
    let q := Z.max (e - 24) (-149) in
    let r := Z.ldexp (round_even (Z.ldexp x (- q))) q in
    if PrimFloat.leb two128 (PrimFloat.abs r)
    then (if PrimFloat.ltb x 0%float then PrimFloat.neg_infinity else PrimFloat.infinity)
    else r.

(** [std::min<float>(a, b)]: both arguments are converted to [float] first. *)
Definition std_min_float (a b : float) : float :=
  let a' := float_of_double a in
  let b' := float_of_double b in
  if PrimFloat.ltb b' a' then b' else a'.

(** ** Dates ([Date.h]) *)

Inductive MonthId : Type :=
| january | february | march | april | may | june
| july | august | september | october | november | december.

Definition MonthId_eqb (a b : MonthId) : bool :=
  match a, b with
  | january, january | february, february | march, march | april, april
  | may, may | june, june | july, july | august, august
  | september, september | october, october | november, november
  | december, december => true
  | _, _ => false
  end.

Record Date : Type := mkDate {
  day : Z;
  month : MonthId;
  year : Z;
  dayOfYear : Z
}.

(** ** Enumerations of the collaborators *)

Inductive GameSpeed : Type := Normal | FastForward | ExtraFastForward.

Definition GameSpeed_eqb (a b : GameSpeed) : bool :=
  match a, b with
  | Normal, Normal | FastForward, FastForward
  | ExtraFastForward, ExtraFastForward => true
  | _, _ => false
  end.

Inductive InputState : Type :=
| st_reset | st_normal | st_dropdownActive | st_widgetPressed
| st_positioningWindow | st_viewportRight | st_viewportLeft
| st_scrollLeft | st_resizing | st_scrollRight.

Inductive CommandLineAction : Type :=
| act_none | act_intro | act_host | act_join | act_other.

Record CommandLineOptions : Type := mkOptions {
  action : CommandLineAction;
  path : string;
  address : string;
  port : option Z
}.

(** [std::tm], as [std::localtime] fills it. *)
Record tm : Type := mkTm {
  tm_year : Z; tm_mon : Z; tm_mday : Z;
  tm_hour : Z; tm_min : Z; tm_sec : Z
}.

(** An entry of [fs::directory_iterator]: the file name inside the iterated
    directory, and whether it is a regular file. *)
Record DirEntry : Type := mkEntry {
  entry_filename : string;
  entry_is_regular_file : bool
}.

Definition StringId : Type := Z.

(** The two interop addresses the unit reads and writes. *)
Inductive Addr : Type := addr_00525324 | addr_00F25374.

(** ** Exceptions *)

Inductive Exn : Type :=
| GameException                       (* the tick-abort signal *)
| std_exception (what : string).

(** ** Calls into collaborators

    One constructor per collaborator entry point the unit calls for its
    effect, with the arguments it passes. *)
Inductive Call : Type :=
(* tick *)
| GameCommands_resetCommandNestLevel
| Ui_update
| Input_handleKeyboard
| Input_processMouseMovement
| Audio_updateSounds
| Network_update
| Intro_update
| Input_resetFlag_viewportScrolling
| poke (a : Addr) (v : Z)
| WindowManager_setVehiclePreviewRotationFrame (v : Z)
| SceneManager_setSceneAge (v : Z)
| GameState_var_014A_increment
| EditorController_tick
| Audio_playBackgroundMusic
(* sub_431695 *)
| GameCommands_setUpdatingCompanyId (id : Z)
| MessageManager_sub_428E47
| WindowManager_dispatchUpdateAll
| Input_processKeyboardInput
| WindowManager_update
| Ui_handleInput
| CompanyManager_updateOwnerStatus
(* launchGameFromCmdLineOptions, loadFile *)
| Network_openServer
| Network_joinServer (addr : string) (p : option Z)
| Scenario_loadAndStart (p : string)
| S5_importSaveToGameState (p : string)
(* tickInterrupted *)
| EntityTweener_reset
| Logging_info (fmt : string) (arg : string)
| Logging_error (fmt : string) (arg : string)
(* tickLogic *)
| Network_processGameCommands (tick : Z)
| recordTickStartPrng
| TileManager_defragmentTilePeriodic
| Options_set_madeAnyChanges (v : Z)
| TileManager_update
| WaveManager_update
| TownManager_update
| IndustryManager_update
| VehicleManager_update
| StationManager_update
| EffectsManager_update
| CompanyManager_update
| AnimationManager_update
| Audio_updateVehicleNoise
| Audio_updateAmbientNoise
| Title_update
| Error_open (title message : StringId)
| ObjectLoadError_open (objectList : list Z)
(* dateTick *)
| updateDayCounter
| StationManager_updateDaily
| VehicleManager_updateDaily
| IndustryManager_updateDaily
| MessageManager_updateDaily
| WindowManager_updateDaily
| setDate (today : Date)
| Scenario_updateSnowLine (dayOfYear : Z)
| TimePanel_invalidateFrame
| ObjectiveProgress_monthsInChallenge_increment
| TownManager_updateMonthly
| IndustryManager_updateMonthly
| CompanyManager_updateMonthly1
| CompanyManager_updateMonthlyHeadquarters
| VehicleManager_updateMonthly
| Economy_updateMonthly
| CompanyManager_updateQuarterly
| CompanyManager_updateYearly
| ObjectManager_updateDefaultLevelCrossingType
| ObjectManager_updateYearly2
| TileManager_updateYearly
| CompanyManager_updateDaily
(* autosave, autosaveClean *)
| Environment_autoCreateDirectory (dir : string)
| S5_exportGameStateToFile (p : string)
| fs_remove (p : string)
(* variableUpdate, fixedUpdate *)
| EntityTweener_preTick
| EntityTweener_postTick
| EntityTweener_tween (alpha : float)
| Ui_render
| this_thread_sleep_for_ms (ms : Z).

(** The functions of the translation unit. *)
Inductive Fn : Type :=
| fn_tick | fn_tickLogic_count | fn_tickLogic | fn_dateTick
| fn_autosaveReset | fn_autosaveClean | fn_autosave | fn_autosaveCheck
| fn_tickInterrupted | fn_sub_431695
| fn_launchGameFromCmdLineOptions | fn_loadFile
| fn_variableUpdate | fn_fixedUpdate | fn_update.

(** The call trace: entries into functions of the unit, calls into
    collaborators, and the value [Network::getServerTick()] returned. *)
Inductive Event : Type :=
| Enter (f : Fn)
| Ext (c : Call)
| ServerTick (v : Z).

Definition Trace : Type := list Event.

(** ** The collaborators

    Constants, helpers and managers that are declared in other headers.  A
    query reads the world; [run] gives the effect of a call: the world after
    it, and the exception it threw, if any.  [updateDayCounter_returns] is
    what [updateDayCounter()] returns when it is called in a world.  The two
    [Engine] constants are taken as the doubles the unit casts them to. *)
Class Host (W : Type) : Type := {
  (* constants *)
  Engine_UpdateRateInMs : float;   (* static_cast<double>(Engine::UpdateRateInMs) *)
  Engine_MaxTimeDeltaMs : float;   (* static_cast<double>(Engine::MaxTimeDeltaMs) *)
  S5_extensionSC5 : string;
  S5_extensionSV5 : string;
  StringIds_null : StringId;
  (* pure helpers *)
  calcDate : Z -> Date;
  path_extension : string -> string;
  Utility_iequals : string -> string -> bool;
  Utility_startsWith : string -> string -> bool;
  Utility_endsWith : string -> string -> bool -> bool;
  (* calls *)
  run : Call -> W -> W * option Exn;
  updateDayCounter_returns : W -> bool;
  (* queries *)
  Platform_getTime : W -> Z;
  Clock_now : W -> Z;                    (* in microseconds *)
  std_localtime : W -> tm;
  Tutorial_state_is_none : W -> bool;
  Intro_isActive : W -> bool;
  getCommandLineOptions : W -> CommandLineOptions;
  WindowManager_find_multiplayer : W -> bool;   (* find(...) != nullptr *)
  SceneManager_isNetworked : W -> bool;
  SceneManager_isPaused : W -> bool;
  SceneManager_isEditorMode : W -> bool;
  SceneManager_isTitleMode : W -> bool;
  SceneManager_getGameSpeed : W -> GameSpeed;
  SceneManager_getSceneAge : W -> Z;
  Input_state : W -> InputState;
  Input_hasFlag_viewportScrolling : W -> bool;
  peek : Addr -> W -> Z;
  WindowManager_getVehiclePreviewRotationFrame : W -> Z;
  CompanyManager_getControllingId : W -> Z;
  Network_getServerTick : W -> Z;
  Network_shouldProcessTick : Z -> W -> bool;
  Options_madeAnyChanges : W -> Z;
  S5_getObjectErrorList : W -> list Z;
  Game_hasFlags_tileManagerLoaded : W -> bool;
  getCurrentDay : W -> Z;
  Config_uncapFPS : W -> bool;
  Config_autosaveFrequency : W -> Z;
  Config_autosaveAmount : W -> Z;
  Environment_getPath_autosave : W -> string;
  fs_is_directory : string -> W -> bool;
  fs_directory_iterator : string -> W -> list DirEntry
}.

(** ** Helpers on strings and paths *)

(** [%0<width>u]. *)
Definition format_u (width : nat) (n : Z) : string :=
  let digits := DecimalString.NilZero.string_of_uint (N.to_uint (Z.to_N (wrap32 n))) in
  let fix zeros (k : nat) : string :=
    match k with O => EmptyString | S k' => String "0"%char (zeros k') end in
  (zeros (width - String.length digits)%nat ++ digits)%string.

(** [snprintf(filename, 64, "autosave_%04u-%02u-%02u_%02u-%02u-%02u%s", ...)]. *)
Definition autosave_filename (t : tm) (ext : string) : string :=
  String.substring 0 63
    ("autosave_" ++ format_u 4 (tm_year t + 1900) ++ "-" ++ format_u 2 (tm_mon t + 1)
       ++ "-" ++ format_u 2 (tm_mday t) ++ "_" ++ format_u 2 (tm_hour t)
       ++ "-" ++ format_u 2 (tm_min t) ++ "-" ++ format_u 2 (tm_sec t) ++ ext)%string.

(** [directory / filename]. *)
Definition path_join (dir name : string) : string := (dir ++ "/" ++ name)%string.

(** [std::sort] on the collected paths.  They share their parent directory,
    so the order of [fs::path] is the order of the file names. *)
Fixpoint insert_sorted (x : string) (l : list string) : list string :=
  match l with
  | [] => [x]
  | y :: l' => if String.leb x y then x :: l else y :: insert_sorted x l'
  end.

Fixpoint std_sort (l : list string) : list string :=
  match l with
  | [] => []
  | x :: l' => insert_sorted x (std_sort l')
  end.

(** ** The monad of the translation unit *)

Section Model.

Context {W : Type} {host : Host W}.

(** The variables of the unit, the scenario tick counters, and the world of
    the collaborators.  Collaborators act on [world] only: the tick they
    need is passed to them ([Network::shouldProcessTick(tick)],
    [Network::processGameCommands(tick)]), and the counters are written by
    [tickLogic] alone.  [_monthsSinceLastAutosave] is a signed counter of
    months: its overflow is out of reach and not modelled. *)
Record State : Type := mkState {
  world : W;
  scenarioTicks : Z;             (* ScenarioManager: uint32_t *)
  scenarioTicks2 : Z;            (* ScenarioManager: uint32_t *)
  accumulator : float;           (* _accumulator *)
  lastUpdate : Z;                (* _lastUpdate, in microseconds *)
  time_since_last_tick : Z;      (* _time_since_last_tick: uint16_t *)
  last_tick_time : Z;            (* _last_tick_time: uint32_t *)
  monthsSinceLastAutosave : Z;   (* _monthsSinceLastAutosave: int32_t *)
  loadErrorCode : Z;             (* _loadErrorCode: int8_t *)
  loadErrorMessage : StringId    (* _loadErrorMessage *)
}.

Definition set_world (v : W) (s : State) : State :=
  mkState v (scenarioTicks s) (scenarioTicks2 s) (accumulator s) (lastUpdate s)
    (time_since_last_tick s) (last_tick_time s) (monthsSinceLastAutosave s)
    (loadErrorCode s) (loadErrorMessage s).
Definition set_scenarioTicks (v : Z) (s : State) : State :=
  mkState (world s) v (scenarioTicks2 s) (accumulator s) (lastUpdate s)
    (time_since_last_tick s) (last_tick_time s) (monthsSinceLastAutosave s)
    (loadErrorCode s) (loadErrorMessage s).
Definition set_scenarioTicks2 (v : Z) (s : State) : State :=
  mkState (world s) (scenarioTicks s) v (accumulator s) (lastUpdate s)
    (time_since_last_tick s) (last_tick_time s) (monthsSinceLastAutosave s)
    (loadErrorCode s) (loadErrorMessage s).
Definition set_accumulator (v : float) (s : State) : State :=
  mkState (world s) (scenarioTicks s) (scenarioTicks2 s) v (lastUpdate s)
    (time_since_last_tick s) (last_tick_time s) (monthsSinceLastAutosave s)
    (loadErrorCode s) (loadErrorMessage s).
Definition set_lastUpdate (v : Z) (s : State) : State :=
  mkState (world s) (scenarioTicks s) (scenarioTicks2 s) (accumulator s) v
    (time_since_last_tick s) (last_tick_time s) (monthsSinceLastAutosave s)
    (loadErrorCode s) (loadErrorMessage s).
Definition set_time_since_last_tick (v : Z) (s : State) : State :=
  mkState (world s) (scenarioTicks s) (scenarioTicks2 s) (accumulator s) (lastUpdate s)
    v (last_tick_time s) (monthsSinceLastAutosave s)
    (loadErrorCode s) (loadErrorMessage s).
Definition set_last_tick_time (v : Z) (s : State) : State :=
  mkState (world s) (scenarioTicks s) (scenarioTicks2 s) (accumulator s) (lastUpdate s)
    (time_since_last_tick s) v (monthsSinceLastAutosave s)
    (loadErrorCode s) (loadErrorMessage s).
Definition set_monthsSinceLastAutosave (v : Z) (s : State) : State :=
  mkState (world s) (scenarioTicks s) (scenarioTicks2 s) (accumulator s) (lastUpdate s)
    (time_since_last_tick s) (last_tick_time s) v
    (loadErrorCode s) (loadErrorMessage s).
Definition set_loadErrorCode (v : Z) (s : State) : State :=
  mkState (world s) (scenarioTicks s) (scenarioTicks2 s) (accumulator s) (lastUpdate s)
    (time_since_last_tick s) (last_tick_time s) (monthsSinceLastAutosave s)
    v (loadErrorMessage s).

Inductive Outcome (A : Type) : Type :=
| Done (a : A)
| Thrown (e : Exn).
Arguments Done {A} a.
Arguments Thrown {A} e.

(** What a computation leaves: the events it emitted, in order; whether it
    returned or threw; the state at that point. *)
Record Result (A : Type) : Type := mkResult {
  trace : Trace;
  outcome : Outcome A;
  final : State
}.
Arguments mkResult {A} _ _ _.
Arguments trace {A} _.
Arguments outcome {A} _.
Arguments final {A} _.

Definition M (A : Type) : Type := State -> Result A.

Definition ret {A} (a : A) : M A := fun s => mkResult [] (Done a) s.

Definition bind {A B} (m : M A) (f : A -> M B) : M B := fun s =>
  let r := m s in
  match outcome r with
  | Done a =>
      let r' := f a (final r) in
      mkResult (trace r ++ trace r') (outcome r') (final r')
  | Thrown e => mkResult (trace r) (Thrown e) (final r)
  end.

(** Reading a variable of the unit, and asking a collaborator. *)
Definition get {A} (f : State -> A) : M A := fun s => mkResult [] (Done (f s)) s.
Definition ask {A} (q : W -> A) : M A := get (fun s => q (world s)).

Definition modify (f : State -> State) : M unit := fun s => mkResult [] (Done tt) (f s).

Definition emit (e : Event) : M unit := fun s => mkResult [e] (Done tt) s.
Definition enter (f : Fn) : M unit := emit (Enter f).

(** A call into a collaborator. *)
Definition call (c : Call) : M unit := fun s =>
  let r := run c (world s) in
  mkResult [Ext c]
    (match snd r with None => Done tt | Some e => Thrown e end)
    (set_world (fst r) s).

(** [try { m } catch (GameException) { h }]. *)
Definition try_catch_GameException (m h : M unit) : M unit := fun s =>
  let r := m s in
  match outcome r with
  | Thrown GameException =>
      let r' := h (final r) in
      mkResult (trace r ++ trace r') (outcome r') (final r')
  | _ => r
  end.

(** [try { m } catch (const std::exception& e) { h(e.what()) }]. *)
Definition try_catch_std_exception (m : M unit) (h : string -> M unit) : M unit := fun s =>
  let r := m s in
  match outcome r with
  | Thrown (std_exception what) =>
      let r' := h what (final r) in
      mkResult (trace r ++ trace r') (outcome r') (final r')
  | _ => r
  end.

Declare Scope loco_scope.
Delimit Scope loco_scope with loco.
Local Notation "x <- m ;; k" := (bind m (fun x => k))
  (at level 61, m at next level, right associativity) : loco_scope.
Local Notation "m ;; k" := (bind m (fun _ => k))
  (at level 61, right associativity) : loco_scope.
Local Open Scope loco_scope.

Definition when (b : bool) (m : M unit) : M unit := if b then m else ret tt.

(** [for (i = 0; i < n; i++) body]. *)
Fixpoint repeat_n (n : nat) (body : M unit) : M unit :=
  match n with
  | O => ret tt
  | S n' => body ;; repeat_n n' body
  end.

(** [for (x : l) body(x)]. *)
Fixpoint for_each {A} (l : list A) (body : A -> M unit) : M unit :=
  match l with
  | [] => ret tt
  | x :: l' => body x ;; for_each l' body
  end.

(** ** The functions of the unit *)

(** [tickInterrupted] *)
Definition tickInterrupted : M unit :=
  enter fn_tickInterrupted ;;
  call EntityTweener_reset ;;
  call (Logging_info "Tick interrupted" "").

(** [loadFile(const fs::path&)] *)
Definition loadFile (p : string) : M unit :=
  enter fn_loadFile ;;
  if Utility_iequals (path_extension p) S5_extensionSC5
  then call (Scenario_loadAndStart p)
  else call (S5_importSaveToGameState p).

(** [launchGameFromCmdLineOptions] *)
Definition launchGameFromCmdLineOptions : M unit :=
  enter fn_launchGameFromCmdLineOptions ;;
  o <- ask getCommandLineOptions ;;
  match action o with
  | act_host => call Network_openServer ;; loadFile (path o)
  | act_join => call (Network_joinServer (address o) (port o))
  | _ => when (negb (String.eqb (path o) "")) (loadFile (path o))
  end.

(** [sub_431695(uint16_t var_F253A0)] *)
Definition sub_431695 (var_F253A0 : Z) : M unit :=
  enter fn_sub_431695 ;;
  id <- ask CompanyManager_getControllingId ;;
  call (GameCommands_setUpdatingCompanyId id) ;;
  repeat_n (Z.to_nat var_F253A0)
    (call MessageManager_sub_428E47 ;; call WindowManager_dispatchUpdateAll) ;;
  call Input_processKeyboardInput ;;
  call WindowManager_update ;;
  call Ui_handleInput ;;
  call CompanyManager_updateOwnerStatus.

(** [autosaveReset] *)
Definition autosaveReset : M unit :=
  enter fn_autosaveReset ;;
  modify (set_monthsSinceLastAutosave 0).

(** The file names [autosaveClean] collects from the directory listing. *)
Definition is_autosave_entry (f : DirEntry) : bool :=
  entry_is_regular_file f
  && Utility_startsWith (entry_filename f) "autosave_"
  && Utility_endsWith (entry_filename f) S5_extensionSV5 true.

Definition collect_autosaveFiles (entries : list DirEntry) : list string :=
  map entry_filename (filter is_autosave_entry entries).

(** [static_cast<size_t>(std::max(1, Config::get().autosaveAmount))] *)
Definition amountToKeep (autosaveAmount : Z) : nat := Z.to_nat (Z.max 1 autosaveAmount).

(** [autosaveClean] *)
Definition autosaveClean : M unit :=
  enter fn_autosaveClean ;;
  try_catch_std_exception
    (autosaveDirectory <- ask Environment_getPath_autosave ;;
     is_dir <- ask (fs_is_directory autosaveDirectory) ;;
     when is_dir
       (entries <- ask (fs_directory_iterator autosaveDirectory) ;;
        let autosaveFiles := collect_autosaveFiles entries in
        amount <- ask Config_autosaveAmount ;;
        let keep := amountToKeep amount in
        when (keep <? List.length autosaveFiles)%nat
          (let sorted := std_sort autosaveFiles in
           let numToDelete := (List.length autosaveFiles - keep)%nat in
           for_each (firstn numToDelete sorted) (fun name =>
             call (Logging_info "Deleting old autosave: {}" (path_join autosaveDirectory name)) ;;
             call (fs_remove (path_join autosaveDirectory name))))))
    (fun what => call (Logging_error "Unable to clean autosaves: {}" what)).

(** [autosave] *)
Definition autosave : M unit :=
  enter fn_autosave ;;
  localTime <- ask std_localtime ;;
  let filename := autosave_filename localTime S5_extensionSV5 in
  try_catch_std_exception
    (autosaveDirectory <- ask Environment_getPath_autosave ;;
     call (Environment_autoCreateDirectory autosaveDirectory) ;;
     let autosaveFullPath := path_join autosaveDirectory filename in
     call (Logging_info "Autosaving game to {}" autosaveFullPath) ;;
     call (S5_exportGameStateToFile autosaveFullPath))
    (fun what => call (Logging_error "Unable to autosave game: {}" what)).

(** [autosaveCheck] *)
Definition autosaveCheck : M unit :=
  enter fn_autosaveCheck ;;
  modify (fun s => set_monthsSinceLastAutosave (monthsSinceLastAutosave s + 1) s) ;;
  title <- ask SceneManager_isTitleMode ;;
  when (negb title)
    (freq <- ask Config_autosaveFrequency ;;
     months <- get monthsSinceLastAutosave ;;
     when ((0 <? freq) && (freq <=? months))
       (autosave ;; autosaveClean ;; autosaveReset)).

Definition is_quarter_start (m : MonthId) : bool :=
  match m with
  | january | april | july | october => true
  | _ => false
  end.

(** [dateTick], from [setDate(today)] on: what runs at a day boundary once
    the daily updaters have run and [yesterday] and [today] are computed. *)
Definition dateTick_newDay (yesterday today : Date) : M unit :=
  call (setDate today) ;;
  call (Scenario_updateSnowLine (dayOfYear today)) ;;
  call TimePanel_invalidateFrame ;;
  when (negb (MonthId_eqb (month today) (month yesterday)))
    ((* End of every month *)
     call ObjectiveProgress_monthsInChallenge_increment ;;
     call TownManager_updateMonthly ;;
     call IndustryManager_updateMonthly ;;
     call CompanyManager_updateMonthly1 ;;
     call CompanyManager_updateMonthlyHeadquarters ;;
     call VehicleManager_updateMonthly ;;
     when (year today <=? 2029) (call Economy_updateMonthly) ;;
     when (is_quarter_start (month today)) (call CompanyManager_updateQuarterly) ;;
     when (negb (year today =? year yesterday))
       ((* End of every year *)
        call CompanyManager_updateYearly ;;
        call ObjectManager_updateDefaultLevelCrossingType ;;
        call ObjectManager_updateYearly2 ;;
        call TileManager_updateYearly) ;;
     autosaveCheck) ;;
  call CompanyManager_updateDaily.

(** [dateTick] (0x004968C7) *)
Definition dateTick : M unit :=
  enter fn_dateTick ;;
  loaded <- ask Game_hasFlags_tileManagerLoaded ;;
  editor <- ask SceneManager_isEditorMode ;;
  when (loaded && negb editor)
    (newDay <- ask updateDayCounter_returns ;;
     call updateDayCounter ;;
     when newDay
       (call StationManager_updateDaily ;;
        call VehicleManager_updateDaily ;;
        call IndustryManager_updateDaily ;;
        call MessageManager_updateDaily ;;
        call WindowManager_updateDaily ;;
        currentDay <- ask getCurrentDay ;;
        dateTick_newDay (calcDate (currentDay - 1)) (calcDate currentDay))).

(** [tickLogic()] (0x0046ABCB) *)
Definition tickLogic : M unit :=
  enter fn_tickLogic ;;
  ticks <- get scenarioTicks ;;
  allowed <- ask (Network_shouldProcessTick (wrap32 (ticks + 1))) ;;
  when allowed
    (modify (fun s => set_scenarioTicks (wrap32 (scenarioTicks s + 1)) s) ;;
     modify (fun s => set_scenarioTicks2 (wrap32 (scenarioTicks2 s + 1)) s) ;;
     ticks' <- get scenarioTicks ;;
     call (Network_processGameCommands ticks') ;;
     call recordTickStartPrng ;;
     call TileManager_defragmentTilePeriodic ;;
     changes <- ask Options_madeAnyChanges ;;
     call (poke addr_00F25374 changes) ;;
     dateTick ;;
     call TileManager_update ;;
     call WaveManager_update ;;
     call TownManager_update ;;
     call IndustryManager_update ;;
     call VehicleManager_update ;;
     call StationManager_update ;;
     call EffectsManager_update ;;
     call CompanyManager_update ;;
     call AnimationManager_update ;;
     call Audio_updateVehicleNoise ;;
     call Audio_updateAmbientNoise ;;
     call Title_update ;;
     changes' <- ask (peek addr_00F25374) ;;
     call (Options_set_madeAnyChanges changes') ;;
     code <- get loadErrorCode ;;
     when (negb (code =? 0))
       ((if code =? -2
         then title <- get loadErrorMessage ;;
              call (Error_open title StringIds_null)
         else objectList <- ask S5_getObjectErrorList ;;
              call (ObjectLoadError_open objectList)) ;;
        modify (set_loadErrorCode 0))).

(** [tickLogic(int32_t count)] *)
Definition tickLogic_count (count : Z) : M unit :=
  enter fn_tickLogic_count ;;
  repeat_n (Z.to_nat count) tickLogic.

(** The number of updates [tick] derives from the time since the last tick,
    before the scene, the input state and the game speed adjust it. *)
Definition numUpdates_of_time (time_since : Z) : Z :=
  std_clamp (wrap16 (time_since / 31)) 1 3.

(** [Network::getServerTick() - ScenarioManager::getScenarioTicks()], on [uint32_t]. *)
Definition numTicksBehind (serverTick localTicks : Z) : Z := wrap32 (serverTick - localTicks).

(** The body of the [else] branch of [tick]: the game is past the intro. *)
Definition tick_updates : M unit :=
  since <- get time_since_last_tick ;;
  let numUpdates := numUpdates_of_time since in
  multiplayer <- ask WindowManager_find_multiplayer ;;
  let numUpdates := if multiplayer then 1 else numUpdates in
  networked <- ask SceneManager_isNetworked ;;
  let numUpdates := if networked then 1 else numUpdates in
  flag <- ask (peek addr_00525324) ;;
  numUpdates <-
    (if flag =? 1
     then call (poke addr_00525324 0) ;; ret 1
     else
       st <- ask Input_state ;;
       match st with
       | st_reset | st_normal | st_dropdownActive =>
           scrolling <- ask Input_hasFlag_viewportScrolling ;;
           if scrolling
           then call Input_resetFlag_viewportScrolling ;; ret 1
           else ret numUpdates
       | _ => ret numUpdates
       end) ;;
  frame <- ask WindowManager_getVehiclePreviewRotationFrame ;;
  call (WindowManager_setVehiclePreviewRotationFrame (frame + numUpdates)) ;;
  paused <- ask SceneManager_isPaused ;;
  let numUpdates := if paused then 0 else numUpdates in
  let var_F253A0 := Z.max 1 numUpdates in
  age <- ask SceneManager_getSceneAge ;;
  call (SceneManager_setSceneAge (Z.min 65535 (age + var_F253A0))) ;;
  speed <- ask SceneManager_getGameSpeed ;;
  let numUpdates :=
    if negb (GameSpeed_eqb speed Normal)
    then (if negb (GameSpeed_eqb speed FastForward)
          then wrap16 (wrap16 (numUpdates * 3) * 3)
          else wrap16 (numUpdates * 3))
    else numUpdates in
  (* Catch up to server (usually after we have just joined the game) *)
  serverTick <- ask Network_getServerTick ;;
  emit (ServerTick serverTick) ;;
  localTicks <- get scenarioTicks ;;
  let numUpdates := if 4 <? numTicksBehind serverTick localTicks then 4 else numUpdates in
  tickLogic_count numUpdates ;;
  call GameState_var_014A_increment ;;
  editor <- ask SceneManager_isEditorMode ;;
  when editor (call EditorController_tick) ;;
  call Audio_playBackgroundMusic ;;
  sub_431695 var_F253A0.

(** [tick] (0x0046A794) *)
Definition tick : M unit :=
  enter fn_tick ;;
  try_catch_GameException
    (time <- ask Platform_getTime ;;
     modify (fun s =>
       set_time_since_last_tick (wrap16 (Z.min (wrap32 (time - last_tick_time s)) 500)) s) ;;
     modify (set_last_tick_time time) ;;
     tutorial_none <- ask Tutorial_state_is_none ;;
     when (negb tutorial_none) (modify (set_time_since_last_tick 31)) ;;
     call GameCommands_resetCommandNestLevel ;;
     call Ui_update ;;
     call Input_handleKeyboard ;;
     call Input_processMouseMovement ;;
     call Audio_updateSounds ;;
     call Network_update ;;
     intro <- ask Intro_isActive ;;
     if intro
     then
       call Intro_update ;;
       intro' <- ask Intro_isActive ;;
       when (negb intro') launchGameFromCmdLineOptions
     else tick_updates)
    ((* Premature end of current tick *)
     tickInterrupted).

Definition MaxUpdateTime : float := PrimFloat.div Engine_MaxTimeDeltaMs 1000%float.
Definition UpdateTime : float := PrimFloat.div Engine_UpdateRateInMs 1000%float.
Definition TimeScale : float := 1%float.

(** One iteration of the loop of [variableUpdate]. *)
Definition variableUpdate_step : M unit :=
  call EntityTweener_preTick ;;
  tick ;;
  modify (fun s => set_accumulator (PrimFloat.sub (accumulator s) UpdateTime) s) ;;
  call EntityTweener_postTick.

(** A computation that may need more iterations than [fuel] allows. *)
Definition then_ {A B} (r : option (Result A)) (f : A -> M B) : option (Result B) :=
  match r with
  | None => None
  | Some r =>
      Some match outcome r with
           | Done a =>
               let r' := f a (final r) in
               mkResult (trace r ++ trace r') (outcome r') (final r')
           | Thrown e => mkResult (trace r) (Thrown e) (final r)
           end
  end.

Definition after {A B} (m : M A) (k : A -> State -> option (Result B)) (s : State)
  : option (Result B) :=
  let r := m s in
  match outcome r with
  | Done a =>
      match k a (final r) with
      | Some r' => Some (mkResult (trace r ++ trace r') (outcome r') (final r'))
      | None => None
      end
  | Thrown e => Some (mkResult (trace r) (Thrown e) (final r))
  end.

(** [while (_accumulator > UpdateTime) { ... }]; [None] when [fuel]
    iterations did not bring the accumulator down to [UpdateTime]. *)
Fixpoint variableUpdate_loop (fuel : nat) (s : State) : option (Result unit) :=
  if PrimFloat.ltb UpdateTime (accumulator s)
  then match fuel with
       | O => None
       | S fuel' => after variableUpdate_step (fun _ => variableUpdate_loop fuel') s
       end
  else Some (ret tt s).

(** The arithmetic of that loop alone: how many times [step] is taken off
    [acc] while [acc > step], and what is left. *)
Fixpoint drain (step : float) (fuel : nat) (acc : float) : option (nat * float) :=
  if PrimFloat.ltb step acc
  then match fuel with
       | O => None
       | S fuel' =>
           match drain step fuel' (PrimFloat.sub acc step) with
           | Some (n, rest) => Some (S n, rest)
           | None => None
           end
       end
  else Some (O, acc).

(** [variableUpdate] *)
Definition variableUpdate (fuel : nat) : State -> option (Result unit) :=
  after (enter fn_variableUpdate ;; get accumulator) (fun acc s =>
    let alpha := std_min_float (PrimFloat.div acc UpdateTime) 1%float in
    then_ (variableUpdate_loop fuel s) (fun _ =>
      call (EntityTweener_tween alpha) ;;
      call Ui_render)).

(** [fixedUpdate] *)
Definition fixedUpdate : M unit :=
  enter fn_fixedUpdate ;;
  call EntityTweener_reset ;;
  acc <- get accumulator ;;
  if PrimFloat.ltb acc UpdateTime
  then call (this_thread_sleep_for_ms 1)
  else
    tick ;;
    modify (fun s => set_accumulator (PrimFloat.sub (accumulator s) UpdateTime) s) ;;
    call Ui_render.

(** [update] *)
Definition update (fuel : nat) : State -> option (Result unit) :=
  after
    (enter fn_update ;;
     timeNow <- ask Clock_now ;;
     last <- get lastUpdate ;;
     let elapsed := PrimFloat.div (double_of_Z (timeNow - last)) 1000000%float in
     let elapsed := PrimFloat.mul elapsed TimeScale in
     modify (fun s =>
       set_accumulator (std_min_double (PrimFloat.add (accumulator s) elapsed) MaxUpdateTime) s) ;;
     modify (set_lastUpdate timeNow) ;;
     ask Config_uncapFPS)
    (fun uncapFPS s =>
       if uncapFPS then variableUpdate fuel s else Some (fixedUpdate s)).

End Model.

Arguments Done {A} a.
Arguments Thrown {A} e.
Arguments mkResult {W A} _ _ _.
Arguments trace {W A} _.
Arguments outcome {W A} _.
Arguments final {W A} _.

(** The host never throws: every call into a collaborator returns. *)
Definition nothrow {W : Type} (host : Host W) : Prop :=
  forall (c : Call) (w : W), snd (run c w) = None.

(** ** Reading a trace *)

Definition is_enter (f : Fn) (e : Event) : bool :=
  match e, f with
  | Enter fn_tick, fn_tick
  | Enter fn_tickLogic, fn_tickLogic
  | Enter fn_autosaveCheck, fn_autosaveCheck
  | Enter fn_autosave, fn_autosave => true
  | _, _ => false
  end.

(** How many times [tickLogic()] and [tick()] were entered. *)
Definition tickLogic_invocations (t : Trace) : nat :=
  List.length (filter (is_enter fn_tickLogic) t).
Definition tick_invocations (t : Trace) : nat :=
  List.length (filter (is_enter fn_tick) t).

Definition is_Economy_updateMonthly (e : Event) : bool :=
  match e with Ext Economy_updateMonthly => true | _ => false end.

(** The windows [tickLogic] opens for a load error. *)
Definition is_load_error_window (e : Event) : bool :=
  match e with
  | Ext (Error_open _ _) | Ext (ObjectLoadError_open _) => true
  | _ => false
  end.

Definition is_server_tick (e : Event) : bool :=
  match e with ServerTick _ => true | _ => false end.

Definition is_render (e : Event) : bool :=
  match e with Ext Ui_render => true | _ => false end.

Definition is_tween (e : Event) : bool :=
  match e with Ext (EntityTweener_tween _) => true | _ => false end.

(** The files [autosaveClean] removed, in the order of removal. *)
Definition removed_files (t : Trace) : list string :=
  flat_map (fun e => match e with Ext (fs_remove p) => [p] | _ => [] end) t.

(** Events of the scheduler ([update], [variableUpdate], [fixedUpdate]). *)
Definition is_scheduler_event (e : Event) : bool :=
  match e with
  | Ext (EntityTweener_tween _) | Ext Ui_render
  | Ext EntityTweener_preTick | Ext EntityTweener_postTick
  | Enter fn_update | Enter fn_variableUpdate | Enter fn_fixedUpdate => true
  | _ => false
  end.

(** What the date boundary, the updaters and the helpers of [tick] emit:
    none of the events the theorems below count. *)
Definition plain_event (e : Event) : bool :=
  negb (is_scheduler_event e || is_server_tick e || is_load_error_window e
        || is_enter fn_tickLogic e || is_enter fn_tick e).

(** What [autosaveCheck] emits, and what the functions it calls emit. *)
Definition autosave_event (e : Event) : bool :=
  plain_event e && negb (is_Economy_updateMonthly e).

Definition helper_event (e : Event) : bool :=
  autosave_event e && negb (is_enter fn_autosaveCheck e).

(** What [tickLogic] emits. *)
Definition tickLogic_event (e : Event) : bool :=
  negb (is_scheduler_event e || is_server_tick e || is_enter fn_tick e).

(** What the body of [tick] emits, and what [tick] emits. *)
Definition tick_body_event (e : Event) : bool :=
  negb (is_scheduler_event e || is_enter fn_tick e).

Definition tick_event (e : Event) : bool := negb (is_scheduler_event e).

(** ** A concrete host

    A small world to run the model on: a network authority that confirms
    ticks up to [sw_serverTick] (a game that is not networked is its own
    authority: the server tick is the last tick it processed), a calendar of
    twelve months of thirty days, and an autosave directory.  Exporting the
    game state fails, or not, for the whole life of the host. *)
Record SimWorld : Type := mkSim {
  sw_networked : bool;
  sw_serverTick : Z;
  sw_localTick : Z;
  sw_clock : Z;
  sw_uncapFPS : bool;
  sw_intro : bool;
  sw_loaded : bool;
  sw_editor : bool;
  sw_title : bool;
  sw_paused : bool;
  sw_speed : GameSpeed;
  sw_newDay : bool;
  sw_currentDay : Z;
  sw_autosaveFrequency : Z;
  sw_autosaveAmount : Z;
  sw_files : list DirEntry
}.

Definition sim_calcDate (d : Z) : Date :=
  let m := (d mod 360) / 30 in
  mkDate (d mod 30 + 1)
    (match m with
     | 0 => january | 1 => february | 2 => march | 3 => april
     | 4 => may | 5 => june | 6 => july | 7 => august
     | 8 => september | 9 => october | 10 => november | _ => december
     end)
    (1900 + d / 360) (d mod 360).

Definition sim_dir : string := "autosave".

Definition sim_set_files (l : list DirEntry) (w : SimWorld) : SimWorld :=
  mkSim (sw_networked w) (sw_serverTick w) (sw_localTick w) (sw_clock w) (sw_uncapFPS w) (sw_intro w)
    (sw_loaded w) (sw_editor w) (sw_title w) (sw_paused w) (sw_speed w) (sw_newDay w)
    (sw_currentDay w) (sw_autosaveFrequency w) (sw_autosaveAmount w) l.

Definition sim_set_currentDay (d : Z) (w : SimWorld) : SimWorld :=
  mkSim (sw_networked w) (sw_serverTick w) (sw_localTick w) (sw_clock w) (sw_uncapFPS w) (sw_intro w)
    (sw_loaded w) (sw_editor w) (sw_title w) (sw_paused w) (sw_speed w) (sw_newDay w)
    d (sw_autosaveFrequency w) (sw_autosaveAmount w) (sw_files w).

Definition sim_set_localTick (t : Z) (w : SimWorld) : SimWorld :=
  mkSim (sw_networked w) (sw_serverTick w) t (sw_clock w) (sw_uncapFPS w) (sw_intro w)
    (sw_loaded w) (sw_editor w) (sw_title w) (sw_paused w) (sw_speed w) (sw_newDay w)
    (sw_currentDay w) (sw_autosaveFrequency w) (sw_autosaveAmount w) (sw_files w).

Definition sim_filename (p : string) : string :=
  String.substring (String.length sim_dir + 1)
    (String.length p - (String.length sim_dir + 1)) p.

Definition sim_run (exportFails : bool) (c : Call) (w : SimWorld)
  : SimWorld * option Exn :=
  match c with
  | Network_processGameCommands t => (sim_set_localTick t w, None)
  | updateDayCounter =>
      (if sw_newDay w then sim_set_currentDay (sw_currentDay w + 1) w else w, None)
  | S5_exportGameStateToFile p =>
      if exportFails
      then (w, Some (std_exception "cannot open file"))
      else (sim_set_files (sw_files w ++ [mkEntry (sim_filename p) true]) w, None)
  | fs_remove p =>
      (sim_set_files
         (filter (fun e => negb (String.eqb (path_join sim_dir (entry_filename e)) p))
            (sw_files w)) w, None)
  | _ => (w, None)
  end.

Definition sim_endsWith (s v : string) (ignoreCase : bool) : bool :=
  let n := String.length s in
  let k := String.length v in
  (k <=? n)%nat && String.eqb (String.substring (n - k) k s) v.

Definition simHost (updateRateInMs maxTimeDeltaMs : float) (exportFails : bool)
  : Host SimWorld := {|
  Engine_UpdateRateInMs := updateRateInMs;
  Engine_MaxTimeDeltaMs := maxTimeDeltaMs;
  S5_extensionSC5 := ".sc5";
  S5_extensionSV5 := ".sv5";
  StringIds_null := 0;
  calcDate := sim_calcDate;
  path_extension := fun p => String.substring (String.length p - 4) 4 p;
  Utility_iequals := String.eqb;
  Utility_startsWith := fun s v => String.prefix v s;
  Utility_endsWith := sim_endsWith;
  run := sim_run exportFails;
  updateDayCounter_returns := sw_newDay;
  Platform_getTime := fun w => wrap32 (sw_clock w / 1000);
  Clock_now := sw_clock;
  std_localtime := fun _ => mkTm 124 0 31 12 0 0;
  Tutorial_state_is_none := fun _ => true;
  Intro_isActive := sw_intro;
  getCommandLineOptions := fun _ => mkOptions act_none "" "" None;
  WindowManager_find_multiplayer := fun _ => false;
  SceneManager_isNetworked := sw_networked;
  SceneManager_isPaused := sw_paused;
  SceneManager_isEditorMode := sw_editor;
  SceneManager_isTitleMode := sw_title;
  SceneManager_getGameSpeed := sw_speed;
  SceneManager_getSceneAge := fun _ => 0;
  Input_state := fun _ => st_normal;
  Input_hasFlag_viewportScrolling := fun _ => false;
  peek := fun _ _ => 0;
  WindowManager_getVehiclePreviewRotationFrame := fun _ => 0;
  CompanyManager_getControllingId := fun _ => 0;
  Network_getServerTick := fun w => if sw_networked w then sw_serverTick w else sw_localTick w;
  Network_shouldProcessTick := fun t w => negb (sw_networked w) || (t <=? sw_serverTick w);
  Options_madeAnyChanges := fun _ => 0;
  S5_getObjectErrorList := fun _ => [];
  Game_hasFlags_tileManagerLoaded := sw_loaded;
  getCurrentDay := sw_currentDay;
  Config_uncapFPS := sw_uncapFPS;
  Config_autosaveFrequency := sw_autosaveFrequency;
  Config_autosaveAmount := sw_autosaveAmount;
  Environment_getPath_autosave := fun _ => sim_dir;
  fs_is_directory := fun p _ => String.eqb p sim_dir;
  fs_directory_iterator := fun _ w => sw_files w
|}.

(** The host at 40 updates a second, with half a second of backlog at most. *)
Definition sim40 : Host SimWorld := simHost 25%float 500%float false.

(** A game in progress, not networked, on the first of January 1950. *)
Definition sim_world : SimWorld :=
  mkSim false 0 100 0 true false true false false false Normal false 18000 1 3 [].

(** The unit's variables at tick 100, with nothing accumulated. *)
Definition sim_state (w : SimWorld) : @State SimWorld :=
  mkState w 100 100 0%float 0 0 0 0 0 0.

(** Hosts with a step of a thirtieth and of a quarter of a second, and one
    whose export of the game state fails. *)
Definition sim30 : Host SimWorld := simHost (1000 / 30)%float 500%float false.
Definition sim4 : Host SimWorld := simHost 250%float 500%float false.
Definition sim_failing : Host SimWorld := simHost 25%float 500%float true.

(** A tenth of a second after the last update. *)
Definition world_elapsed : SimWorld :=
  mkSim false 0 100 100000 true false true false false false Normal false 18000 1 3 [].

(** A client 900 ticks behind its server, at the fastest game speed. *)
Definition world_behind : SimWorld :=
  mkSim true 1000 100 100000 true false true false false false ExtraFastForward
    false 18000 1 3 [].

(** The last day of January 1950 is over; autosaves are switched off. *)
Definition world_month_end : SimWorld :=
  mkSim false 0 100 0 true false true false false false Normal true 18029 0 3 [].

(** The same day in the scenario editor. *)
Definition world_editor : SimWorld :=
  mkSim false 0 100 0 true false true true false false Normal true 18029 0 3 [].

(** An autosave every three months. *)
Definition world_autosave : SimWorld :=
  mkSim false 0 100 0 true false true false false false Normal false 18000 3 3 [].

(** An autosave directory with three autosaves and a stray file, keeping
    [amount] autosaves. *)
Definition world_files (amount : Z) : SimWorld :=
  mkSim false 0 100 0 true false true false false false Normal false 18000 3 amount
    [ mkEntry "autosave_2024-02-01_10-00-00.sv5" true;
      mkEntry "notes.txt" true;
      mkEntry "autosave_2024-01-01_10-00-00.sv5" true;
      mkEntry "autosave_2024-03-01_10-00-00.sv5" true ].

(** A host as [h], but for what its calls do, the command line and the
    ticks the network allows. *)
Definition host_with {W : Type} (h : Host W) (r : Call -> W -> W * option Exn)
    (o : W -> CommandLineOptions) (g : Z -> W -> bool) : Host W := {|
  Engine_UpdateRateInMs := @Engine_UpdateRateInMs W h;
  Engine_MaxTimeDeltaMs := @Engine_MaxTimeDeltaMs W h;
  S5_extensionSC5 := @S5_extensionSC5 W h;
  S5_extensionSV5 := @S5_extensionSV5 W h;
  StringIds_null := @StringIds_null W h;
  calcDate := @calcDate W h;
  path_extension := @path_extension W h;
  Utility_iequals := @Utility_iequals W h;
  Utility_startsWith := @Utility_startsWith W h;
  Utility_endsWith := @Utility_endsWith W h;
  run := r;
  updateDayCounter_returns := @updateDayCounter_returns W h;
  Platform_getTime := @Platform_getTime W h;
  Clock_now := @Clock_now W h;
  std_localtime := @std_localtime W h;
  Tutorial_state_is_none := @Tutorial_state_is_none W h;
  Intro_isActive := @Intro_isActive W h;
  getCommandLineOptions := o;
  WindowManager_find_multiplayer := @WindowManager_find_multiplayer W h;
  SceneManager_isNetworked := @SceneManager_isNetworked W h;
  SceneManager_isPaused := @SceneManager_isPaused W h;
  SceneManager_isEditorMode := @SceneManager_isEditorMode W h;
  SceneManager_isTitleMode := @SceneManager_isTitleMode W h;
  SceneManager_getGameSpeed := @SceneManager_getGameSpeed W h;
  SceneManager_getSceneAge := @SceneManager_getSceneAge W h;
  Input_state := @Input_state W h;
  Input_hasFlag_viewportScrolling := @Input_hasFlag_viewportScrolling W h;
  peek := @peek W h;
  WindowManager_getVehiclePreviewRotationFrame :=
    @WindowManager_getVehiclePreviewRotationFrame W h;
  CompanyManager_getControllingId := @CompanyManager_getControllingId W h;
  Network_getServerTick := @Network_getServerTick W h;
  Network_shouldProcessTick := g;
  Options_madeAnyChanges := @Options_madeAnyChanges W h;
  S5_getObjectErrorList := @S5_getObjectErrorList W h;
  Game_hasFlags_tileManagerLoaded := @Game_hasFlags_tileManagerLoaded W h;
  getCurrentDay := @getCurrentDay W h;
  Config_uncapFPS := @Config_uncapFPS W h;
  Config_autosaveFrequency := @Config_autosaveFrequency W h;
  Config_autosaveAmount := @Config_autosaveAmount W h;
  Environment_getPath_autosave := @Environment_getPath_autosave W h;
  fs_is_directory := @fs_is_directory W h;
  fs_directory_iterator := @fs_directory_iterator W h
|}.

(** A host whose user interface interrupts the tick, and one whose network
    allows every tick. *)
Definition sim_interrupting : Host SimWorld :=
  host_with sim40
    (fun c w => match c with
                | Ui_update => (w, Some GameException)
                | _ => sim_run false c w
                end)
    (@getCommandLineOptions _ sim40) (@Network_shouldProcessTick _ sim40).

Definition sim_offline : Host SimWorld :=
  host_with sim40 (sim_run false) (@getCommandLineOptions _ sim40) (fun _ _ => true).

(** The intro is playing. *)
Definition world_intro : SimWorld :=
  mkSim false 0 100 0 true true true false false false Normal false 18000 1 3 [].

(** A client that has caught up with its server and waits for the next
    tick. *)
Definition world_waiting : SimWorld :=
  mkSim true 100 100 0 true false true false false false Normal false 18000 1 3 [].

(** The last day of 1950 is over. *)
Definition world_year_end : SimWorld :=
  mkSim false 0 100 0 true false true false false false Normal true 18359 0 3 [].

(** ** Predicates on computations *)

Section Predicates.

Context {W : Type} {host : Host W}.

(** [keeps view p m]: running [m] leaves [view] of the state as it was, emits
    only events that satisfy [p], and returns when the host never throws. *)
Definition keeps {X A} (view : @State W -> X) (p : Event -> bool) (m : @M W A) : Prop :=
  forall s,
    view (final (m s)) = view s
    /\ Forall (fun e => p e = true) (trace (m s))
    /\ (nothrow host -> exists a, outcome (m s) = Done a).

(** How many events of a trace satisfy [q]. *)
Definition occurrences (q : Event -> bool) (t : Trace) : nat :=
  List.length (filter q t).

(** [counts q n m]: when [m] returns, its trace holds exactly [n] events that
    satisfy [q].  [at_most q n m]: however [m] ends, at most [n]. *)
Definition counts {A} (q : Event -> bool) (n : nat) (m : @M W A) : Prop :=
  forall s a, outcome (m s) = Done a -> occurrences q (trace (m s)) = n.

Definition at_most {A} (q : Event -> bool) (n : nat) (m : @M W A) : Prop :=
  forall s, (occurrences q (trace (m s)) <= n)%nat.

(** [ends view q Q m]: when [m] returns, [Q] relates what [view] was at the
    start, the events of the trace that satisfy [q], and the final state. *)
Definition ends {X A} (view : @State W -> X) (q : Event -> bool)
    (Q : X -> list Event -> @State W -> Prop) (m : @M W A) : Prop :=
  forall s a, outcome (m s) = Done a ->
    Q (view s) (filter q (trace (m s))) (final (m s)).

(** [m], entered at local tick [t0], enters [tickLogic] at most four times
    when the server tick it read is more than four ticks ahead. *)
Definition capped {A} (t0 : Z) (m : @M W A) : Prop :=
  forall s, scenarioTicks s = t0 ->
  forall v, In (ServerTick v) (trace (m s)) ->
    4 < numTicksBehind v t0 ->
    (tickLogic_invocations (trace (m s)) <= 4)%nat.

(** The windows [tickLogic] opens for a load error code. *)
Definition load_error_windows (code : Z) (message : StringId) (objectList : list Z)
  : list Event :=
  if code =? 0 then []
  else if code =? -2 then [Ext (Error_open message StringIds_null)]
       else [Ext (ObjectLoadError_open objectList)].

End Predicates.

(** The order of [std_sort]. *)
Definition name_le (a b : string) : Prop := String.leb a b = true.

(** Everything but the world and the autosave counter. *)
Definition view_plain {W : Type} (s : @State W) :=
  (scenarioTicks s, scenarioTicks2 s, accumulator s, lastUpdate s,
   time_since_last_tick s, last_tick_time s, loadErrorCode s, loadErrorMessage s).

(** What [tickLogic] does not write. *)
Definition view_tickLogic {W : Type} (s : @State W) :=
  (accumulator s, lastUpdate s, time_since_last_tick s, last_tick_time s,
   loadErrorMessage s).

(** What [tick] does not write. *)
Definition view_tick {W : Type} (s : @State W) :=
  (accumulator s, lastUpdate s, loadErrorMessage s).

(** The scenario tick counters. *)
Definition view_counters {W : Type} (s : @State W) :=
  (scenarioTicks s, scenarioTicks2 s).

(** The load error state. *)
Definition view_loadError {W : Type} (s : @State W) :=
  (loadErrorCode s, loadErrorMessage s).

Definition any_event (e : Event) : bool := true.

(** ** What each function may emit

    The alphabet of a function: the entries and the calls that occur in its
    body and in the bodies of the functions it calls. *)

Definition alphabet_tickInterrupted (e : Event) : bool :=
  match e with
  | Enter fn_tickInterrupted | Ext EntityTweener_reset | Ext (Logging_info _ _) => true
  | _ => false
  end.

Definition alphabet_loadFile (e : Event) : bool :=
  match e with
  | Enter fn_loadFile | Ext (Scenario_loadAndStart _)
  | Ext (S5_importSaveToGameState _) => true
  | _ => false
  end.

Definition alphabet_launchGameFromCmdLineOptions (e : Event) : bool :=
  match e with
  | Enter fn_launchGameFromCmdLineOptions | Ext Network_openServer
  | Ext (Network_joinServer _ _) => true
  | _ => alphabet_loadFile e
  end.

Definition alphabet_sub_431695 (e : Event) : bool :=
  match e with
  | Enter fn_sub_431695 | Ext (GameCommands_setUpdatingCompanyId _)
  | Ext MessageManager_sub_428E47 | Ext WindowManager_dispatchUpdateAll
  | Ext Input_processKeyboardInput | Ext WindowManager_update
  | Ext Ui_handleInput | Ext CompanyManager_updateOwnerStatus => true
  | _ => false
  end.

Definition alphabet_autosaveReset (e : Event) : bool :=
  match e with Enter fn_autosaveReset => true | _ => false end.

Definition alphabet_autosaveClean (e : Event) : bool :=
  match e with
  | Enter fn_autosaveClean | Ext (Logging_info _ _) | Ext (fs_remove _)
  | Ext (Logging_error _ _) => true
  | _ => false
  end.

Definition alphabet_autosave (e : Event) : bool :=
  match e with
  | Enter fn_autosave | Ext (Environment_autoCreateDirectory _)
  | Ext (Logging_info _ _) | Ext (S5_exportGameStateToFile _)
  | Ext (Logging_error _ _) => true
  | _ => false
  end.

Definition alphabet_autosaveCheck (e : Event) : bool :=
  match e with
  | Enter fn_autosaveCheck => true
  | _ => alphabet_autosave e || alphabet_autosaveClean e || alphabet_autosaveReset e
  end.

Definition alphabet_dateTick_newDay (e : Event) : bool :=
  match e with
  | Ext (setDate _) | Ext (Scenario_updateSnowLine _) | Ext TimePanel_invalidateFrame
  | Ext ObjectiveProgress_monthsInChallenge_increment
  | Ext TownManager_updateMonthly | Ext IndustryManager_updateMonthly
  | Ext CompanyManager_updateMonthly1 | Ext CompanyManager_updateMonthlyHeadquarters
  | Ext VehicleManager_updateMonthly | Ext Economy_updateMonthly
  | Ext CompanyManager_updateQuarterly | Ext CompanyManager_updateYearly
  | Ext ObjectManager_updateDefaultLevelCrossingType | Ext ObjectManager_updateYearly2
  | Ext TileManager_updateYearly | Ext CompanyManager_updateDaily => true
  | _ => alphabet_autosaveCheck e
  end.

Definition alphabet_dateTick (e : Event) : bool :=
  match e with
  | Enter fn_dateTick | Ext updateDayCounter
  | Ext StationManager_updateDaily | Ext VehicleManager_updateDaily
  | Ext IndustryManager_updateDaily | Ext MessageManager_updateDaily
  | Ext WindowManager_updateDaily => true
  | _ => alphabet_dateTick_newDay e
  end.

Definition alphabet_tickLogic (e : Event) : bool :=
  match e with
  | Enter fn_tickLogic | Ext (Network_processGameCommands _) | Ext recordTickStartPrng
  | Ext TileManager_defragmentTilePeriodic | Ext (poke addr_00F25374 _)
  | Ext TileManager_update | Ext WaveManager_update | Ext TownManager_update
  | Ext IndustryManager_update | Ext VehicleManager_update | Ext StationManager_update
  | Ext EffectsManager_update | Ext CompanyManager_update | Ext AnimationManager_update
  | Ext Audio_updateVehicleNoise | Ext Audio_updateAmbientNoise | Ext Title_update
  | Ext (Options_set_madeAnyChanges _) | Ext (Error_open _ _)
  | Ext (ObjectLoadError_open _) => true
  | _ => alphabet_dateTick e
  end.

Definition alphabet_tickLogic_count (e : Event) : bool :=
  match e with
  | Enter fn_tickLogic_count => true
  | _ => alphabet_tickLogic e
  end.

Definition alphabet_tick_updates (e : Event) : bool :=
  match e with
  | Ext (poke addr_00525324 _) | Ext Input_resetFlag_viewportScrolling
  | Ext (WindowManager_setVehiclePreviewRotationFrame _)
  | Ext (SceneManager_setSceneAge _) | ServerTick _
  | Ext GameState_var_014A_increment | Ext EditorController_tick
  | Ext Audio_playBackgroundMusic => true
  | _ => alphabet_tickLogic_count e || alphabet_sub_431695 e
  end.

Definition alphabet_tick (e : Event) : bool :=
  match e with
  | Enter fn_tick | Ext GameCommands_resetCommandNestLevel | Ext Ui_update
  | Ext Input_handleKeyboard | Ext Input_processMouseMovement
  | Ext Audio_updateSounds | Ext Network_update | Ext Intro_update => true
  | _ => alphabet_launchGameFromCmdLineOptions e || alphabet_tick_updates e
         || alphabet_tickInterrupted e
  end.

(** All the variables of the unit: what its helpers leave alone. *)
Definition view_all {W : Type} (s : @State W) :=
  (scenarioTicks s, scenarioTicks2 s, accumulator s, lastUpdate s,
   time_since_last_tick s, last_tick_time s, monthsSinceLastAutosave s,
   loadErrorCode s, loadErrorMessage s).

(** ** More predicates on computations and traces *)

Section MorePredicates.

Context {W : Type}.

(** [returns P m]: what [m] returns satisfies [P]. *)
Definition returns {A} (P : A -> Prop) (m : @M W A) : Prop :=
  forall s a, outcome (m s) = Done a -> P a.

(** [lists q l m]: when [m] returns, the events of its trace that satisfy
    [q] are [l], in this order. *)
Definition lists {A} (q : Event -> bool) (l : list Event) (m : @M W A) : Prop :=
  forall s a, outcome (m s) = Done a -> filter q (trace (m s)) = l.

(** [excludes a q m]: a run of [m] does not emit both an event that
    satisfies [a] and one that satisfies [q]. *)
Definition excludes {A} (a q : Event -> bool) (m : @M W A) : Prop :=
  forall s, filter a (trace (m s)) = [] \/ filter q (trace (m s)) = [].

(** [contains_std_exception m]: no [std::exception] leaves [m]. *)
Definition contains_std_exception {A} (m : @M W A) : Prop :=
  forall s what, outcome (m s) <> Thrown (std_exception what).

End MorePredicates.

Definition is_intro_update (e : Event) : bool :=
  match e with Ext Intro_update => true | _ => false end.

Definition is_interruption (e : Event) : bool :=
  match e with Enter fn_tickInterrupted => true | _ => false end.

Definition is_dispatchUpdateAll (e : Event) : bool :=
  match e with Ext WindowManager_dispatchUpdateAll => true | _ => false end.

(** The updaters [tickLogic] calls after the date boundary. *)
(** The game at work in a tick: a logic tick, the server tick read for the
    catch-up, the windows updated. *)
Definition is_game_step (e : Event) : bool :=
  is_enter fn_tickLogic e || is_server_tick e || is_dispatchUpdateAll e.

Definition is_tick_updater (e : Event) : bool :=
  match e with
  | Ext TileManager_update | Ext WaveManager_update | Ext TownManager_update
  | Ext IndustryManager_update | Ext VehicleManager_update | Ext StationManager_update
  | Ext EffectsManager_update | Ext CompanyManager_update | Ext AnimationManager_update
  | Ext Audio_updateVehicleNoise | Ext Audio_updateAmbientNoise | Ext Title_update => true
  | _ => false
  end.

(** The steps of a tick that are ordered: the commands, the PRNG record,
    the date boundary and the updaters. *)
Definition is_tick_step (e : Event) : bool :=
  match e with
  | Ext (Network_processGameCommands _) | Ext recordTickStartPrng
  | Ext TileManager_defragmentTilePeriodic | Enter fn_dateTick => true
  | _ => is_tick_updater e
  end.

Definition is_quarterly (e : Event) : bool :=
  match e with Ext CompanyManager_updateQuarterly => true | _ => false end.

Definition is_yearly (e : Event) : bool :=
  match e with
  | Ext CompanyManager_updateYearly | Ext ObjectManager_updateDefaultLevelCrossingType
  | Ext ObjectManager_updateYearly2 | Ext TileManager_updateYearly => true
  | _ => false
  end.

Definition is_monthly (e : Event) : bool :=
  match e with
  | Ext ObjectiveProgress_monthsInChallenge_increment
  | Ext TownManager_updateMonthly | Ext IndustryManager_updateMonthly
  | Ext CompanyManager_updateMonthly1 | Ext CompanyManager_updateMonthlyHeadquarters
  | Ext VehicleManager_updateMonthly => true
  | _ => false
  end.

(** What every day boundary does, whatever the date. *)
Definition is_every_day (e : Event) : bool :=
  match e with
  | Ext (setDate _) | Ext (Scenario_updateSnowLine _) | Ext TimePanel_invalidateFrame
  | Ext CompanyManager_updateDaily => true
  | _ => false
  end.

Definition is_load_call (e : Event) : bool :=
  match e with
  | Ext (Scenario_loadAndStart _) | Ext (S5_importSaveToGameState _) => true
  | _ => false
  end.

(** The updaters of the quarter and of the year. *)
Definition is_seasonal (e : Event) : bool := is_quarterly e || is_yearly e.

(** How far the second tick counter is ahead of the first, on [uint32_t]. *)
Definition counter_drift {W : Type} (s : @State W) : Z :=
  wrap32 (scenarioTicks2 s - scenarioTicks s).

(** ** A paused game *)

(** The calls [tick] makes before it runs the logic. *)
Definition before_logic (c : Call) : bool :=
  match c with
  | GameCommands_resetCommandNestLevel | Ui_update | Input_handleKeyboard
  | Input_processMouseMovement | Audio_updateSounds | Network_update
  | poke _ _ | Input_resetFlag_viewportScrolling
  | WindowManager_setVehiclePreviewRotationFrame _ | SceneManager_setSceneAge _ => true
  | _ => false
  end.

Section Paused.

Context {W : Type} {host : Host W}.

(** [bounded I q n m]: from a state that satisfies [I], [m] emits at most
    [n] events that satisfy [q].  [stable I m]: [m] takes a state that
    satisfies [I] to one that does. *)
Definition bounded {A} (I : @State W -> Prop) (q : Event -> bool) (n : nat)
    (m : @M W A) : Prop :=
  forall s, I s -> (occurrences q (trace (m s)) <= n)%nat.

Definition stable {A} (I : @State W -> Prop) (m : @M W A) : Prop :=
  forall s, I s -> I (final (m s)).

(** The game is paused and past the intro, the server is at tick [v] and
    the scenario at tick [t0]. *)
Definition paused_at (v t0 : Z) (s : @State W) : Prop :=
  SceneManager_isPaused (world s) = true
  /\ Intro_isActive (world s) = false
  /\ Network_getServerTick (world s) = v
  /\ scenarioTicks s = t0.

(** The calls before the logic leave the pause, the intro and the server
    tick alone. *)
Definition frontend_keeps_scene : Prop :=
  forall c w, before_logic c = true ->
    SceneManager_isPaused (fst (run c w)) = SceneManager_isPaused w
    /\ Intro_isActive (fst (run c w)) = Intro_isActive w
    /\ Network_getServerTick (fst (run c w)) = Network_getServerTick w.

End Paused.

(** A paused game, and a paused client 900 ticks behind its server. *)
Definition world_paused : SimWorld :=
  mkSim false 0 100 0 true false true false false true Normal false 18000 1 3 [].

Definition world_paused_behind : SimWorld :=
  mkSim true 1000 100 0 true false true false false true Normal false 18000 1 3 [].

(** ** The states a run reaches *)

Section Reachable.

Context {W : Type} {host : Host W}.

(** The variables of the unit as the program starts them: [_accumulator],
    [_time_since_last_tick], [_last_tick_time], [_monthsSinceLastAutosave]
    (lines 104-111), [_loadErrorCode] and [_loadErrorMessage] (lines
    480-481).  [_lastUpdate] starts at the time of the clock; the world and
    the counters of [ScenarioManager] are not the unit's. *)
Definition initial (s : @State W) : Prop :=
  accumulator s = 0%float
  /\ time_since_last_tick s = 0
  /\ last_tick_time s = 0
  /\ monthsSinceLastAutosave s = 0
  /\ loadErrorCode s = 0
  /\ loadErrorMessage s = 0.

(** The states of a run.  The collaborators change the world and the
    counters of [ScenarioManager] as they like.  The variables of the unit
    change through what the unit runs: [initialise] (line 201) and
    [promptTickLoop] (lines 706-707) write the tick times,
    [initialiseViewports] calls [autosaveReset] (line 193), [simulateGame]
    calls [loadFile] and [tickLogic(ticks)] (lines 847, 859), [run] calls
    [update] (line 810), and [sub_431695] is called from outside. *)
Inductive reachable : @State W -> Prop :=
| reach_initial (s : @State W) : initial s -> reachable s
| reach_world (w : W) (s : @State W) : reachable s -> reachable (set_world w s)
| reach_scenarioTicks (t : Z) (s : @State W) :
    reachable s -> reachable (set_scenarioTicks t s)
| reach_scenarioTicks2 (t : Z) (s : @State W) :
    reachable s -> reachable (set_scenarioTicks2 t s)
| reach_initialise (s : @State W) :
    reachable s -> reachable (set_last_tick_time (Platform_getTime (world s)) s)
| reach_promptTickLoop (s : @State W) :
    reachable s ->
    reachable (set_time_since_last_tick 31
                 (set_last_tick_time (Platform_getTime (world s)) s))
| reach_autosaveReset (s : @State W) :
    reachable s -> reachable (final (autosaveReset s))
| reach_loadFile (p : string) (s : @State W) :
    reachable s -> reachable (final (loadFile p s))
| reach_tickLogic_count (ticks : Z) (s : @State W) :
    reachable s -> reachable (final (tickLogic_count ticks s))
| reach_sub_431695 (v : Z) (s : @State W) :
    reachable s -> reachable (final (sub_431695 v s))
| reach_update (fuel : nat) (s : @State W) (r : Result unit) :
    reachable s -> update fuel s = Some r -> reachable (final r).

(** [_loadErrorCode] is 0: no load error is pending. *)
Definition no_load_error (s : @State W) : Prop := loadErrorCode s = 0.

End Reachable.

(** ** A plain game *)

(** [Network::processGameCommands(tick)]. *)
Definition is_commands (c : Call) : bool :=
  match c with Network_processGameCommands _ => true | _ => false end.

Section Plain.

Context {W : Type} {host : Host W}.

(** What [tick] reads of the scene on its way to the logic: no tutorial, no
    intro, no multiplayer window, no network, no pending reset of the
    sounds, no scrolling of the viewport, no pause, the normal speed. *)
Definition plain_scene (w : W) : Prop :=
  Tutorial_state_is_none w = true
  /\ Intro_isActive w = false
  /\ WindowManager_find_multiplayer w = false
  /\ SceneManager_isNetworked w = false
  /\ (peek addr_00525324 w =? 1) = false
  /\ Input_hasFlag_viewportScrolling w = false
  /\ SceneManager_isPaused w = false
  /\ SceneManager_getGameSpeed w = Normal.

(** The collaborators of a plain game: no call throws; no call takes the
    scene out of the plain one; the time of the platform stands still
    while the unit runs; the network allows every tick; the game is its own
    server, whose tick is the one whose commands were processed last. *)
Definition plain_host : Prop :=
  nothrow host
  /\ (forall c w, plain_scene w -> plain_scene (fst (run c w)))
  /\ (forall c w, Platform_getTime (fst (run c w)) = Platform_getTime w)
  /\ (forall t w, plain_scene w -> Network_shouldProcessTick t w = true)
  /\ (forall c w, is_commands c = false ->
        Network_getServerTick (fst (run c w)) = Network_getServerTick w)
  /\ (forall t w, plain_scene w ->
        Network_getServerTick (fst (run (Network_processGameCommands t) w)) = t).

(** A plain game at the platform time [T], with the server at tick [v], the
    scenario at tick [t], [since] milliseconds counted since the last
    tick, which was at the platform time [last]. *)
Definition plain_at (T v t since last : Z) (s : @State W) : Prop :=
  plain_scene (world s)
  /\ Platform_getTime (world s) = T
  /\ Network_getServerTick (world s) = v
  /\ scenarioTicks s = t
  /\ time_since_last_tick s = since
  /\ last_tick_time s = last.

(** [triple P q n Q m]: from a state that satisfies [P], [m] returns, emits
    exactly [n] events that satisfy [q], and leaves a state that satisfies
    [Q]. *)
Definition triple {A} (P : @State W -> Prop) (q : Event -> bool) (n : nat)
    (Q : @State W -> Prop) (m : @M W A) : Prop :=
  forall s, P s ->
    (exists a, outcome (m s) = Done a)
    /\ occurrences q (trace (m s)) = n
    /\ Q (final (m s)).

(** [yields P R m]: what [m] returns from a state that satisfies [P]
    satisfies [R]. *)
Definition yields {A} (P : @State W -> Prop) (R : A -> Prop) (m : @M W A) : Prop :=
  forall s a, P s -> outcome (m s) = Done a -> R a.

End Plain.

(** The scenario tick after [k] ticks of the logic, on [uint32_t]. *)
Definition advance (k : nat) (t : Z) : Z := Nat.iter k (fun x => wrap32 (x + 1)) t.

(** The world after a tenth of a second, paused. *)
Definition world_elapsed_paused : SimWorld :=
  mkSim false 0 100 100000 true false true false false true Normal false 18000 1 3 [].

(** A host with a step of 33 ms. *)
Definition sim33 : Host SimWorld := simHost 33%float 500%float false.

(** The state after the three ticks of a simulated game. *)
Definition sim_simulated : @State SimWorld :=
  final (@tickLogic_count _ sim40 3 (sim_state sim_world)).

(** ** Times in their order *)

(** The fields [autosave] prints, from the year down to the second. *)
Definition tm_fields (t : tm) : list Z :=
  [tm_year t + 1900; tm_mon t + 1; tm_mday t; tm_hour t; tm_min t; tm_sec t].

Fixpoint lex_lt (a b : list Z) : Prop :=
  match a, b with
  | x :: a', y :: b' => x < y \/ (x = y /\ lex_lt a' b')
  | _, _ => False
  end.

(** [a] is an earlier time than [b]. *)
Definition tm_earlier (a b : tm) : Prop := lex_lt (tm_fields a) (tm_fields b).

(** [f] holds of the [k] numbers from [z] on. *)
Fixpoint all_from (f : Z -> bool) (k : nat) (z : Z) : bool :=
  match k with
  | O => true
  | S k' => f z && all_from f k' (z + 1)
  end.

(** The fields fit the widths of the format: four digits for the year, two
    for each of the others. *)
Definition tm_fits (t : tm) : Prop :=
  0 <= tm_year t + 1900 <= 9999 /\ 0 <= tm_mon t + 1 <= 99 /\ 0 <= tm_mday t <= 99
  /\ 0 <= tm_hour t <= 99 /\ 0 <= tm_min t <= 99 /\ 0 <= tm_sec t <= 99.

(** ** The structure layout log ([StructureLayoutLogger.cpp], [StructureLayoutLogger.h])

    The log [main] writes in a 64-bit build.  The logger is its two static
    members, the stream [logFile] and the flag [initialized]; with them go
    the content of the file [structure_layout_64bit.log], what was sent to
    [std::cerr], and whether the file system lets the file be opened for
    writing.  What is sent to the stream is taken as written to the file:
    [flush] has nothing left to do. *)

Module StructureLayoutLogger.

Record Logger : Type := mkLogger {
  initialized : bool;
  is_open : bool;       (* logFile.is_open() *)
  failbit : bool;       (* the error state of logFile *)
  file : string;
  cerr : string;
  writable : bool
}.

(** The logger when the program starts, with what the file holds. *)
Definition start (writable : bool) (content : string) : Logger :=
  mkLogger false false false content "" writable.

Definition nl : string := String "010"%char EmptyString.

(** [logFile.open(path, std::ios::out | std::ios::trunc)]: fails on a stream
    that is open; empties the file and clears the error state when it
    opens. *)
Definition stream_open (l : Logger) : Logger :=
  if is_open l
  then mkLogger (initialized l) true true (file l) (cerr l) (writable l)
  else if writable l
       then mkLogger (initialized l) true false "" (cerr l) (writable l)
       else mkLogger (initialized l) false true (file l) (cerr l) (writable l).

(** [logFile << x]: writes nothing once the stream is in error; writing to a
    stream that is not open puts it in error. *)
Definition put (x : string) (l : Logger) : Logger :=
  if failbit l then l
  else if is_open l
       then mkLogger (initialized l) true false (file l ++ x) (cerr l) (writable l)
       else mkLogger (initialized l) false true (file l) (cerr l) (writable l).

(** [logFile << x1 << x2 << ...]. *)
Definition puts (xs : list string) (l : Logger) : Logger :=
  fold_left (fun l x => put x l) xs l.

(** [logFile.close()]. *)
Definition stream_close (l : Logger) : Logger :=
  if is_open l
  then mkLogger (initialized l) false (failbit l) (file l) (cerr l) (writable l)
  else mkLogger (initialized l) false true (file l) (cerr l) (writable l).

Definition set_initialized (b : bool) (l : Logger) : Logger :=
  mkLogger b (is_open l) (failbit l) (file l) (cerr l) (writable l).

(** [std::cerr << x]. *)
Definition cerr_put (x : string) (l : Logger) : Logger :=
  mkLogger (initialized l) (is_open l) (failbit l) (file l) (cerr l ++ x) (writable l).

Definition header : list string :=
  [ "OpenLoco 64-bit Structure Layout Analysis" ++ nl;
    "=========================================" ++ nl;
    "Generated to help fix memory layout issues for 64-bit builds" ++ nl;
    "Compare these values with the static_assert statements in the code" ++ nl ++ nl ]%string.

Definition footer : string :=
  (nl ++ "=== End of Structure Layout Analysis ===" ++ nl)%string.

Definition open_failure : string :=
  ("Failed to open structure layout log file" ++ nl)%string.

(** [initialize] *)
Definition initialize (l : Logger) : Logger :=
  if initialized l then l
  else
    let l := stream_open l in
    if is_open l
    then set_initialized true (puts header l)
    else cerr_put open_failure l.

(** [close] *)
Definition close (l : Logger) : Logger :=
  set_initialized false
    (if is_open l then stream_close (put footer l) else l).

(** [if (!initialized) initialize();] *)
Definition ensure_initialized (l : Logger) : Logger :=
  if negb (initialized l) then initialize l else l.

Definition dec (n : N) : string := DecimalString.NilZero.string_of_uint (N.to_uint n).
Definition hex (n : N) : string :=
  HexadecimalString.NilZero.string_of_uint (N.to_hex_uint n).
Definition yes_no (b : bool) : string := if b then "yes" else "no".

(** What [logStructure<T>(name)] sends to the stream, with [sizeof(T)],
    [alignof(T)], [std::is_pod_v<T>] and [std::is_trivially_copyable_v<T>]. *)
Definition logStructure_text (name : string) (size align : N) (pod copyable : bool)
  : list string :=
  [ "=== Structure: "; name; " ===" ++ nl;
    "Size: "; dec size; " bytes (0x"; hex size; ")" ++ nl;
    "Alignment: "; dec align; " bytes" ++ nl;
    "Is POD: "; yes_no pod; nl;
    "Is trivially copyable: "; yes_no copyable; nl;
    nl ]%string.

(** [logStructure<T>(name)] *)
Definition logStructure (name : string) (size align : N) (pod copyable : bool)
    (l : Logger) : Logger :=
  puts (logStructure_text name size align pod copyable) (ensure_initialized l).

Definition logMember_text (structName memberName : string) (offset size : N)
  : list string :=
  [ structName; "::"; memberName; " - Offset: "; dec offset; " (0x"; hex offset;
    "), Size: "; dec size; nl ]%string.

(** [logMember<T>(structName, memberName, offset, size)] *)
Definition logMember (structName memberName : string) (offset size : N)
    (l : Logger) : Logger :=
  puts (logMember_text structName memberName offset size) (ensure_initialized l).

Definition logSeparator_text (title : string) : list string :=
  nl :: (if negb (String.eqb title "")
         then [ "--- "; title; " ---" ++ nl ]
         else [ "----------------------------------------" ++ nl ])%string.

(** [logSeparator(title)] *)
Definition logSeparator (title : string) (l : Logger) : Logger :=
  puts (logSeparator_text title) (ensure_initialized l).

Definition logNote_text (note : string) : list string := [ "NOTE: "; note; nl ]%string.

(** [logNote(note)] *)
Definition logNote (note : string) (l : Logger) : Logger :=
  puts (logNote_text note) (ensure_initialized l).

(** A logging call, as [main] makes them through [LOG_STRUCT], [LOG_MEMBER],
    [LOG_SEPARATOR] and [LOG_NOTE]; a sequence of them; the text of one. *)
Inductive Entry : Type :=
| Structure (name : string) (size align : N) (pod copyable : bool)
| Member (structName memberName : string) (offset size : N)
| Separator (title : string)
| Note (note : string).

Definition log (e : Entry) : Logger -> Logger :=
  match e with
  | Structure name size align pod copyable => logStructure name size align pod copyable
  | Member structName memberName offset size => logMember structName memberName offset size
  | Separator title => logSeparator title
  | Note note => logNote note
  end.

Definition log_all (es : list Entry) (l : Logger) : Logger :=
  fold_left (fun l e => log e l) es l.

Definition entry_text (e : Entry) : list string :=
  match e with
  | Structure name size align pod copyable => logStructure_text name size align pod copyable
  | Member structName memberName offset size => logMember_text structName memberName offset size
  | Separator title => logSeparator_text title
  | Note note => logNote_text note
  end.

Definition joined (xs : list string) : string := fold_right String.append "" xs.

(** Any use of the logger: logging calls, [initialize] and [close]. *)
Inductive Use : Type :=
| Log (e : Entry)
| Initialize
| Close.

Definition use (u : Use) : Logger -> Logger :=
  match u with
  | Log e => log e
  | Initialize => initialize
  | Close => close
  end.

Definition use_all (us : list Use) (l : Logger) : Logger :=
  fold_left (fun l u => use u l) us l.

(** The flag says whether the stream is open, and an open stream is not in
    error. *)
Definition consistent (l : Logger) : Prop :=
  initialized l = is_open l /\ (is_open l = true -> failbit l = false).

End StructureLayoutLogger.

(** * Properties *)

(** ** Frames and alphabets: the rules of [keeps] *)
Section Keeps.

Context {W : Type} {host : Host W}.
Context {X : Type} (view : @State W -> X) (p : Event -> bool).
Hypothesis view_world : forall w s, view (set_world w s) = view s.

Lemma keeps_ret {A} (a : A) : keeps view p (ret a).
Proof. intro s; cbn; repeat split; eauto. Qed.

Lemma keeps_get {A} (f : State -> A) : keeps view p (get f).
Proof. intro s; cbn; repeat split; eauto. Qed.

Lemma keeps_modify (f : State -> State) :
  (forall s, view (f s) = view s) -> keeps view p (modify f).
Proof. intros H s; cbn; repeat split; eauto. Qed.

Lemma keeps_emit (e : Event) : p e = true -> keeps view p (emit e).
Proof. intros H s; cbn; repeat split; eauto. Qed.

Lemma keeps_call (c : Call) : p (Ext c) = true -> keeps view p (call c).
Proof.
  intros H s; unfold call; cbn; repeat split; auto.
  intro N; rewrite (N c (world s)); eauto.
Qed.

Lemma keeps_bind {A B} (m : M A) (f : A -> M B) :
  keeps view p m -> (forall a, keeps view p (f a)) -> keeps view p (bind m f).
Proof.
  intros Hm Hf s; unfold bind.
  destruct (Hm s) as (Hv & Ht & Hd).
  destruct (outcome (m s)) as [a | e] eqn:E; cbn.
  - destruct (Hf a (final (m s))) as (Hv' & Ht' & Hd').
    repeat split.
    + congruence.
    + apply Forall_app; auto.
    + auto.
  - repeat split; auto.
    intro N; destruct (Hd N) as [a Ha]; discriminate.
Qed.

Lemma keeps_when (b : bool) (m : M unit) : keeps view p m -> keeps view p (when b m).
Proof. destruct b; cbn; auto using keeps_ret. Qed.

Lemma keeps_try_catch_GameException (m h : M unit) :
  keeps view p m -> keeps view p h -> keeps view p (try_catch_GameException m h).
Proof.
  intros Hm Hh s; unfold try_catch_GameException.
  destruct (Hm s) as (Hv & Ht & Hd).
  destruct (outcome (m s)) as [a | [ | what]] eqn:E; cbn.
  - rewrite E; auto.
  - destruct (Hh (final (m s))) as (Hv' & Ht' & Hd').
    repeat split; [congruence | apply Forall_app; auto | auto].
  - rewrite E; repeat split; auto.
Qed.

Lemma keeps_try_catch_std_exception (m : M unit) (h : string -> M unit) :
  keeps view p m -> (forall what, keeps view p (h what)) -> keeps view p (try_catch_std_exception m h).
Proof.
  intros Hm Hh s; unfold try_catch_std_exception.
  destruct (Hm s) as (Hv & Ht & Hd).
  destruct (outcome (m s)) as [a | [ | what]] eqn:E; cbn.
  - rewrite E; auto.
  - rewrite E; repeat split; auto.
  - destruct (Hh what (final (m s))) as (Hv' & Ht' & Hd').
    repeat split; [congruence | apply Forall_app; auto | auto].
Qed.

Lemma keeps_repeat_n (n : nat) (body : M unit) : keeps view p body -> keeps view p (repeat_n n body).
Proof.
  intro Hb; induction n as [ | n IH]; cbn [repeat_n].
  - apply keeps_ret.
  - apply keeps_bind; auto.
Qed.

Lemma keeps_for_each {A} (l : list A) (body : A -> M unit) :
  (forall x, keeps view p (body x)) -> keeps view p (for_each l body).
Proof.
  intro Hb; induction l as [ | x l IH]; cbn [for_each].
  - apply keeps_ret.
  - apply keeps_bind; auto.
Qed.

End Keeps.

Lemma keeps_weaken {W : Type} {host : Host W} {X Y A : Type}
    (view : @State W -> X) (view' : @State W -> Y) (p p' : Event -> bool) (m : M A) :
  keeps view p m ->
  (forall s s', view s' = view s -> view' s' = view' s) ->
  (forall e, p e = true -> p' e = true) ->
  keeps view' p' m.
Proof.
  intros Hm Hv Hp s. destruct (Hm s) as (H1 & H2 & H3).
  repeat split; auto.
  eapply Forall_impl; [ | exact H2]. exact Hp.
Qed.

(** Walks a computation of the unit, leaving the side conditions on the
    view and on the events to computation. *)
Ltac keeps_step :=
  idtac;
  lazymatch goal with
  | |- keeps _ _ (bind _ _) => apply keeps_bind; [ | intros ]
  | |- keeps _ _ (ret _) => apply keeps_ret
  | |- keeps _ _ (get _) => apply keeps_get
  | |- keeps _ _ (ask _) => apply keeps_get
  | |- keeps _ _ (modify _) => apply keeps_modify; intros; reflexivity
  | |- keeps _ _ (emit _) => apply keeps_emit; reflexivity
  | |- keeps _ _ (enter _) => apply keeps_emit; reflexivity
  | |- keeps _ _ (call _) => apply keeps_call; [ intros; reflexivity | reflexivity ]
  | |- keeps _ _ (when false _) => apply keeps_ret
  | |- keeps _ _ (when _ _) => apply keeps_when
  | |- keeps _ _ (try_catch_GameException _ _) => apply keeps_try_catch_GameException
  | |- keeps _ _ (try_catch_std_exception _ _) =>
      apply keeps_try_catch_std_exception; [ | intros ]
  | |- keeps _ _ (repeat_n _ _) => apply keeps_repeat_n
  | |- keeps _ _ (for_each _ _) => apply keeps_for_each; intros
  | |- keeps _ _ (if ?b then _ else _) => destruct b
  | |- keeps _ _ (match ?x with _ => _ end) => destruct x
  end.

Ltac keeps_auto := repeat first [ assumption | keeps_step ].

(** ** What each function leaves untouched and what it emits *)

Ltac keeps_from H :=
  idtac;
  eapply keeps_weaken;
  [ apply H
  | intros ? ? E; cbv [view_plain view_tickLogic view_tick view_counters view_loadError] in *; congruence
  | intros [ [] | [] | ]; intro; solve [ reflexivity | discriminate | assumption ] ].

Section Frames.

Context {W : Type} {host : Host W}.


Lemma tickInterrupted_keeps : keeps view_plain plain_event tickInterrupted.
Proof. unfold tickInterrupted. keeps_auto. Qed.

Lemma loadFile_keeps p : keeps view_plain plain_event (loadFile p).
Proof. unfold loadFile. keeps_auto. Qed.

Lemma launchGameFromCmdLineOptions_keeps :
  keeps view_plain plain_event launchGameFromCmdLineOptions.
Proof.
  unfold launchGameFromCmdLineOptions.
  repeat first [ apply loadFile_keeps | keeps_step ].
Qed.

Lemma sub_431695_keeps v : keeps view_plain plain_event (sub_431695 v).
Proof. unfold sub_431695. keeps_auto. Qed.

Lemma autosaveReset_keeps : keeps view_plain helper_event autosaveReset.
Proof. unfold autosaveReset. keeps_auto. Qed.

Lemma autosaveClean_keeps : keeps view_plain helper_event autosaveClean.
Proof. unfold autosaveClean. keeps_auto. Qed.

Lemma autosave_keeps : keeps view_plain helper_event autosave.
Proof. unfold autosave. keeps_auto. Qed.

Lemma autosaveCheck_keeps : keeps view_plain autosave_event autosaveCheck.
Proof.
  unfold autosaveCheck.
  repeat first [ keeps_from autosave_keeps | keeps_from autosaveClean_keeps
               | keeps_from autosaveReset_keeps | keeps_step ].
Qed.

Lemma dateTick_newDay_keeps y t : keeps view_plain plain_event (dateTick_newDay y t).
Proof.
  unfold dateTick_newDay.
  repeat first [ keeps_from autosaveCheck_keeps | keeps_step ].
Qed.

Lemma dateTick_keeps : keeps view_plain plain_event dateTick.
Proof.
  unfold dateTick.
  repeat first [ apply dateTick_newDay_keeps | keeps_step ].
Qed.

Lemma tickLogic_keeps : keeps view_tickLogic tickLogic_event tickLogic.
Proof.
  unfold tickLogic.
  repeat first [ keeps_from dateTick_keeps | keeps_step ].
Qed.

Lemma tickLogic_count_keeps n : keeps view_tickLogic tickLogic_event (tickLogic_count n).
Proof.
  unfold tickLogic_count.
  repeat first [ apply tickLogic_keeps | keeps_step ].
Qed.

Lemma tick_updates_keeps : keeps view_tick tick_body_event tick_updates.
Proof.
  unfold tick_updates.
  repeat first [ keeps_from tickLogic_count_keeps | keeps_from sub_431695_keeps
               | keeps_step ].
Qed.

Lemma tick_keeps : keeps view_tick tick_event tick.
Proof.
  unfold tick.
  repeat first [ keeps_from tick_updates_keeps
               | keeps_from launchGameFromCmdLineOptions_keeps
               | keeps_from tickInterrupted_keeps
               | keeps_step ].
Qed.

End Frames.

(** ** Running the steps that do not call out *)

Section Steps.

Context {W : Type} {host : Host W}.

Lemma result_eta {A} (r : @Result W A) : mkResult (trace r) (outcome r) (final r) = r.
Proof. destruct r; reflexivity. Qed.

Lemma bind_get {A B} (g : @State W -> A) (f : A -> @M W B) (s : @State W) :
  bind (get g) f s = f (g s) s.
Proof. unfold bind, get; cbn. apply result_eta. Qed.

Lemma bind_ask {A B} (q : W -> A) (f : A -> @M W B) (s : @State W) :
  bind (ask q) f s = f (q (world s)) s.
Proof. exact (bind_get (fun s0 => q (world s0)) f s). Qed.

Lemma bind_modify {B} (g : @State W -> @State W) (f : unit -> @M W B) (s : @State W) :
  bind (modify g) f s = f tt (g s).
Proof. unfold bind, modify; cbn. apply result_eta. Qed.

Lemma bind_emit {B} (e : Event) (f : unit -> @M W B) (s : @State W) :
  bind (emit e) f s
  = mkResult (e :: trace (f tt s)) (outcome (f tt s)) (final (f tt s)).
Proof. reflexivity. Qed.

Lemma bind_enter {B} (fn : Fn) (f : unit -> @M W B) (s : @State W) :
  bind (enter fn) f s
  = mkResult (Enter fn :: trace (f tt s)) (outcome (f tt s)) (final (f tt s)).
Proof. reflexivity. Qed.

Lemma bind_ret {A B} (a : A) (f : A -> @M W B) (s : @State W) : bind (ret a) f s = f a s.
Proof. unfold bind, ret; cbn. apply result_eta. Qed.

Lemma bind_assoc {A B C} (m : @M W A) (f : A -> @M W B) (g : B -> @M W C) (s : @State W) :
  bind (bind m f) g s = bind m (fun a => bind (f a) g) s.
Proof.
  unfold bind. destruct (outcome (m s)) as [a | e]; cbn; [ | reflexivity].
  destruct (outcome (f a (final (m s)))) as [b | e]; cbn; [ | reflexivity].
  now rewrite app_assoc.
Qed.

Lemma trace_bind {A B} (m : @M W A) (f : A -> @M W B) (s : @State W) :
  trace (bind m f s)
  = trace (m s) ++ match outcome (m s) with
                   | Done a => trace (f a (final (m s)))
                   | Thrown _ => []
                   end.
Proof.
  unfold bind. destruct (outcome (m s)); cbn; [reflexivity | now rewrite app_nil_r].
Qed.

(** A call either returns in the world the host left, or throws there. *)
Lemma bind_call {B} (c : Call) (f : unit -> @M W B) (s : @State W) :
  bind (call c) f s
  = match snd (run c (world s)) with
    | None =>
        let r := f tt (set_world (fst (run c (world s))) s) in
        mkResult (Ext c :: trace r) (outcome r) (final r)
    | Some e => mkResult [Ext c] (Thrown e) (set_world (fst (run c (world s))) s)
    end.
Proof. unfold bind, call; cbn. destruct (snd (run c (world s))); reflexivity. Qed.

End Steps.

(** ** C1: the network gate of [tickLogic] *)

Section TickLogic.

Context {W : Type} {host : Host W}.

(** C1.  [tickLogic] asks the network whether tick [scenarioTicks + 1] may be
    processed.  When the answer is no it returns at once: the state is the
    state it was entered in and nothing but the entry is in the trace (no
    command is applied, no updater runs).  When the answer is yes, the two
    tick counters are each one more (as [uint32_t]) when the tick ends,
    however it ends, and the commands of the new tick are what is applied
    first. *)
Theorem tickLogic_network_gate (s : @State W) :
  let next := wrap32 (scenarioTicks s + 1) in
  (Network_shouldProcessTick next (world s) = false ->
     tickLogic s = mkResult [Enter fn_tickLogic] (Done tt) s)
  /\ (Network_shouldProcessTick next (world s) = true ->
     scenarioTicks (final (tickLogic s)) = wrap32 (scenarioTicks s + 1)
     /\ scenarioTicks2 (final (tickLogic s)) = wrap32 (scenarioTicks2 s + 1)
     /\ exists rest, trace (tickLogic s)
          = Enter fn_tickLogic :: Ext (Network_processGameCommands next) :: rest).
Proof.
  intro next; split; intro G; unfold tickLogic;
    rewrite bind_enter, bind_get, bind_ask; fold next; rewrite G; cbn [when].
  - reflexivity.
  - rewrite !bind_modify, bind_get.
    match goal with
    | |- context [final (?m ?s2)] =>
        assert (K : keeps view_counters any_event m)
          by repeat first [ keeps_from (@dateTick_keeps W host) | keeps_step ];
        destruct (K s2) as (Kv & _ & _)
    end.
    cbn [final trace].
    injection Kv as K1 K2.
    split; [exact K1 | split; [exact K2 | ]].
    rewrite trace_bind. cbn. eauto.
Qed.

End TickLogic.

(** ** Counting events: the rules of [counts] and [at_most] *)
Section Counting.

Context {W : Type} {host : Host W}.
Variable q : Event -> bool.

Lemma occurrences_app (t1 t2 : Trace) :
  occurrences q (t1 ++ t2) = (occurrences q t1 + occurrences q t2)%nat.
Proof. unfold occurrences. now rewrite filter_app, length_app. Qed.

Lemma occurrences_none (t : Trace) :
  Forall (fun e => q e = false) t -> filter q t = [].
Proof.
  induction 1 as [ | e t He _ IH]; cbn; [reflexivity | now rewrite He].
Qed.

Lemma silent_trace {X A} (view : @State W -> X) (p : Event -> bool) (m : @M W A) s :
  keeps view p m -> (forall e, p e = true -> q e = false) ->
  filter q (trace (m s)) = [].
Proof.
  intros K Hp. apply occurrences_none.
  destruct (K s) as (_ & Ht & _). eapply Forall_impl; [ | exact Ht]. exact Hp.
Qed.

Lemma counts_silent {X A} (view : @State W -> X) (p : Event -> bool) (m : @M W A) :
  keeps view p m -> (forall e, p e = true -> q e = false) -> counts q 0 m.
Proof.
  intros K Hp s a _. unfold occurrences. now rewrite (silent_trace view p m s K Hp).
Qed.

Lemma at_most_silent {X A} (view : @State W -> X) (p : Event -> bool) (m : @M W A) :
  keeps view p m -> (forall e, p e = true -> q e = false) -> at_most q 0 m.
Proof.
  intros K Hp s. unfold occurrences. now rewrite (silent_trace view p m s K Hp).
Qed.

Lemma counts_bind {A B} (n1 n2 : nat) (m : @M W A) (f : A -> @M W B) :
  counts q n1 m -> (forall a, counts q n2 (f a)) -> counts q (n1 + n2) (bind m f).
Proof.
  intros Hm Hf s b. unfold bind.
  destruct (outcome (m s)) as [a | e] eqn:E; cbn [outcome trace final]; [ | discriminate].
  intro D. rewrite occurrences_app.
  now rewrite (Hm s a E), (Hf a (final (m s)) b D).
Qed.

Lemma at_most_bind {A B} (n1 n2 : nat) (m : @M W A) (f : A -> @M W B) :
  at_most q n1 m -> (forall a, at_most q n2 (f a)) -> at_most q (n1 + n2) (bind m f).
Proof.
  intros Hm Hf s. unfold bind. specialize (Hm s).
  destruct (outcome (m s)) as [a | e]; cbn [outcome trace final].
  - rewrite occurrences_app. specialize (Hf a (final (m s))). lia.
  - lia.
Qed.

Lemma counts_emit (e : Event) : counts q (if q e then 1 else 0) (@emit W e).
Proof. intros s a _. unfold occurrences; cbn. now destruct (q e). Qed.

Lemma counts_call (c : Call) : counts q (if q (Ext c) then 1 else 0) (@call W host c).
Proof. intros s a _. unfold occurrences; cbn. now destruct (q (Ext c)). Qed.

Lemma counts_pure {A} (m : @M W A) : (forall s, trace (m s) = []) -> counts q 0 m.
Proof. intros H s a _. now rewrite H. Qed.

Lemma at_most_emit (e : Event) : at_most q (if q e then 1 else 0) (@emit W e).
Proof. intros s. unfold occurrences; cbn. now destruct (q e). Qed.

Lemma at_most_repeat_n (k n : nat) (body : @M W unit) :
  at_most q k body -> at_most q (n * k) (repeat_n n body).
Proof.
  intro Hb; induction n as [ | n IH]; cbn [repeat_n].
  - intro s; cbn; lia.
  - replace (S n * k)%nat with (k + n * k)%nat by lia.
    apply at_most_bind; auto.
Qed.

Lemma counts_eq {A} (n n' : nat) (m : @M W A) : counts q n m -> n = n' -> counts q n' m.
Proof. intros H <-; exact H. Qed.

Lemma at_most_le {A} (n n' : nat) (m : @M W A) :
  at_most q n m -> (n <= n')%nat -> at_most q n' m.
Proof. intros H L s. specialize (H s). lia. Qed.

End Counting.

(** [m] emits no event that satisfies [q]: by walking [m], with [known] for
    the functions of the unit on the way. *)
Ltac silent_by known :=
  idtac;
  lazymatch goal with
  | |- counts ?q _ _ =>
      eapply (counts_silent q (fun _ => tt) (fun e => negb (q e)));
      [ repeat first [ known | keeps_step ]
      | intros e He; apply negb_true_iff; exact He ]
  | |- at_most ?q _ _ =>
      eapply (at_most_silent q (fun _ => tt) (fun e => negb (q e)));
      [ repeat first [ known | keeps_step ]
      | intros e He; apply negb_true_iff; exact He ]
  end.

(** Counts the events of a chain of calls; [known] closes the functions of
    the unit on the way. *)
Ltac counts_step known :=
  idtac;
  lazymatch goal with
  | |- counts _ _ (bind _ _) => eapply counts_bind; [ | intros ]
  | |- counts _ _ (call _) => apply counts_call
  | |- counts _ _ (emit _) => apply counts_emit
  | |- counts _ _ (enter _) => apply counts_emit
  | |- counts _ _ (ret _) => apply counts_pure; reflexivity
  | |- counts _ _ (get _) => apply counts_pure; reflexivity
  | |- counts _ _ (ask _) => apply counts_pure; reflexivity
  | |- counts _ _ (modify _) => apply counts_pure; reflexivity
  | |- counts _ _ _ => known
  end.

Lemma MonthId_eqb_eq (a b : MonthId) : MonthId_eqb a b = true <-> a = b.
Proof. destruct a, b; cbn; split; intro H; try reflexivity; discriminate. Qed.

Lemma MonthId_eqb_neq (a b : MonthId) : MonthId_eqb a b = false <-> a <> b.
Proof.
  rewrite <- MonthId_eqb_eq. destruct (MonthId_eqb a b); split; congruence.
Qed.

(** ** C10, C5, C6: the date boundary *)

Section DateTick.

Context {W : Type} {host : Host W}.

(** C10.  [dateTick] does nothing unless the tile manager is loaded and the
    scene is not the editor: it returns in the state it was entered in,
    without asking for the day counter (no date advancement) and without
    calling any daily, monthly, quarterly or yearly updater, the economy or
    the autosave check. *)
Theorem dateTick_precondition (s : @State W) :
  Game_hasFlags_tileManagerLoaded (world s)
    && negb (SceneManager_isEditorMode (world s)) = false ->
  dateTick s = mkResult [Enter fn_dateTick] (Done tt) s.
Proof.
  intro H. unfold dateTick.
  rewrite bind_enter, !bind_ask, H. reflexivity.
Qed.

Lemma autosaveCheck_entered_once :
  counts (is_enter fn_autosaveCheck) 1 (@autosaveCheck W host).
Proof.
  unfold autosaveCheck.
  eapply counts_eq.
  - repeat counts_step
      ltac:(silent_by ltac:(first [ keeps_from (@autosave_keeps W host)
                                  | keeps_from (@autosaveClean_keeps W host)
                                  | keeps_from (@autosaveReset_keeps W host) ])).
  - reflexivity.
Qed.



End DateTick.

(** ** Postconditions behind a silent prefix: the rule of [ends] *)
Section Ends.

Context {W : Type} {host : Host W}.
Context {X : Type} (view : @State W -> X) (q : Event -> bool).

Lemma ends_bind {A B} (Q : X -> list Event -> @State W -> Prop)
    (m : @M W A) (f : A -> @M W B) :
  keeps view (fun e => negb (q e)) m ->
  (forall a, ends view q Q (f a)) ->
  ends view q Q (bind m f).
Proof.
  intros K Hf s b. unfold bind.
  destruct (K s) as (Kv & _ & _).
  assert (Hs : filter q (trace (m s)) = []).
  { apply (silent_trace q view (fun e => negb (q e)) m s K).
    intros e He. now apply negb_true_iff. }
  destruct (outcome (m s)) as [a | e]; cbn [outcome trace final]; [ | discriminate].
  intro D. rewrite filter_app, Hs, <- Kv. cbn [app].
  exact (Hf a (final (m s)) b D).
Qed.

End Ends.

(** ** The load error at the end of a tick *)

Section LoadError.

Context {W : Type} {host : Host W}.

(** The branches of [tickLogic] on the load error code (lines 513-526), from
    any state of the variables.  A tick that the network allows and that
    runs to its end opens: nothing when the code is 0; the message box, with
    the load error message as its title, when the code is -2; the object
    error list for every other code.  The code is 0 when the tick ends. *)
Lemma tickLogic_load_error_dispatch (s : @State W) :
  Network_shouldProcessTick (wrap32 (scenarioTicks s + 1)) (world s) = true ->
  outcome (tickLogic s) = Done tt ->
  loadErrorCode (final (tickLogic s)) = 0
  /\ exists objectList,
       filter is_load_error_window (trace (tickLogic s))
       = load_error_windows (loadErrorCode s) (loadErrorMessage s) objectList.
Proof.
  intros G. unfold tickLogic.
  rewrite bind_enter, bind_get, bind_ask, G. cbn [when outcome final trace].
  match goal with
  | |- outcome (?body s) = _ -> _ =>
      assert (E : ends view_loadError is_load_error_window
                    (fun v l s' =>
                       loadErrorCode s' = 0
                       /\ exists objectList,
                            l = load_error_windows (fst v) (snd v) objectList)
                    body)
  end.
  { repeat
      lazymatch goal with
      | |- ends _ _ _ (bind (get loadErrorCode) _) => fail
      | |- ends _ _ _ (bind _ _) =>
          apply ends_bind;
          [ solve [ repeat first [ keeps_from (@dateTick_keeps W host) | keeps_step ] ]
          | intros ]
      end.
    (* the report at the end of the tick *)
    intros s0 x0. unfold view_loadError, load_error_windows; cbn [fst snd].
    rewrite bind_get.
    destruct (loadErrorCode s0 =? 0) eqn:E0; cbn [negb when].
    - intros _. cbn. apply Z.eqb_eq in E0. split; [exact E0 | now exists []].
    - destruct (loadErrorCode s0 =? -2) eqn:E2; rewrite bind_assoc.
      + rewrite bind_get, bind_call.
        destruct (snd (run _ _)); cbn; [discriminate | ].
        intros _. split; [reflexivity | now exists []].
      + rewrite bind_ask, bind_call.
        destruct (snd (run _ _)); cbn; [discriminate | ].
        intros _. split; [reflexivity | eauto]. }
  intro D. exact (E s tt D).
Qed.

End LoadError.

(** ** C4: the autosave counter after a failed autosave *)

Section Autosave.

Context {W : Type} {host : Host W}.


End Autosave.

(** ** C3: catching up with the server *)

Section CatchUp.

Context {W : Type} {host : Host W}.

Lemma plain_not_tickLogic (e : Event) :
  plain_event e = true -> is_enter fn_tickLogic e = false.
Proof. destruct e as [ [] | [] | ]; intro; solve [ reflexivity | discriminate ]. Qed.

(** [tickLogic] is entered once by a call of it. *)
Lemma tickLogic_at_most_once : at_most (is_enter fn_tickLogic) 1 (@tickLogic W host).
Proof.
  unfold tickLogic.
  eapply at_most_le.
  - eapply at_most_bind; [ apply at_most_emit | intros ].
    silent_by ltac:(keeps_from (@dateTick_keeps W host)).
  - cbn. lia.
Qed.

(** [tickLogic(count)] enters [tickLogic] at most [count] times. *)
Lemma tickLogic_count_at_most (count : Z) :
  at_most (is_enter fn_tickLogic) (Z.to_nat count) (@tickLogic_count W host count).
Proof.
  unfold tickLogic_count.
  eapply at_most_le.
  - eapply at_most_bind; [ apply at_most_emit | intros ].
    apply at_most_repeat_n. apply tickLogic_at_most_once.
  - cbn. lia.
Qed.

Lemma no_server_tick {A} (m : @M W A) (s : @State W) (v : Z) :
  keeps view_counters plain_event m -> ~ In (ServerTick v) (trace (m s)).
Proof.
  intros K Hin. destruct (K s) as (_ & Ht & _).
  rewrite Forall_forall in Ht. specialize (Ht _ Hin). discriminate.
Qed.

Lemma capped_silent {A} (t0 : Z) (m : @M W A) :
  keeps view_counters plain_event m -> capped t0 m.
Proof. intros K s _ v Hin. destruct (no_server_tick m s v K Hin). Qed.

Lemma capped_bind {A B} (t0 : Z) (m : @M W A) (f : A -> @M W B) :
  keeps view_counters plain_event m ->
  (forall a, capped t0 (f a)) ->
  capped t0 (bind m f).
Proof.
  intros K Hf s Hs v. unfold tickLogic_invocations.
  rewrite trace_bind, filter_app, length_app.
  rewrite (silent_trace _ _ _ m s K plain_not_tickLogic). cbn [List.length Nat.add].
  intros Hin Hb. apply in_app_or in Hin. destruct Hin as [Hin | Hin].
  { destruct (no_server_tick m s v K Hin). }
  destruct (K s) as (Kv & _ & _).
  destruct (outcome (m s)) as [a | e]; [ | destruct Hin].
  injection Kv as K1 _.
  apply (Hf a (final (m s)) (eq_trans K1 Hs) v Hin Hb).
Qed.

Lemma capped_try_catch_GameException (t0 : Z) (m h : @M W unit) :
  capped t0 m -> keeps view_counters plain_event h ->
  capped t0 (try_catch_GameException m h).
Proof.
  intros Hm K s Hs v. unfold try_catch_GameException.
  specialize (Hm s Hs v).
  destruct (outcome (m s)) as [a | [ | what]]; auto.
  cbn [trace]. unfold tickLogic_invocations in *.
  rewrite filter_app, length_app.
  rewrite (silent_trace _ _ _ h (final (m s)) K plain_not_tickLogic).
  cbn [List.length]. rewrite Nat.add_0_r.
  intros Hin Hb. apply in_app_or in Hin. destruct Hin as [Hin | Hin]; auto.
  destruct (no_server_tick h (final (m s)) v K Hin).
Qed.

(** The catch-up: once the server tick [v] is read, [tickLogic(count)] is
    called with 4 when [v] is more than four ticks ahead. *)
Lemma capped_catch_up (t0 v n : Z) (rest : @M W unit) :
  keeps view_counters plain_event rest ->
  capped t0
    (bind (emit (ServerTick v)) (fun _ =>
     bind (get scenarioTicks) (fun localTicks =>
     bind (tickLogic_count (if 4 <? numTicksBehind v localTicks then 4 else n))
          (fun _ => rest)))).
Proof.
  intros K s Hs v0. rewrite bind_emit, bind_get. cbn [trace]. rewrite Hs.
  set (count := if 4 <? numTicksBehind v t0 then 4 else n).
  assert (Kb : keeps (fun _ : @State W => tt) tickLogic_event
                 (bind (tickLogic_count count) (fun _ => rest))).
  { apply keeps_bind; [ keeps_from (@tickLogic_count_keeps W host count) | intros ].
    keeps_from K. }
  intros [Hin | Hin] Hb.
  - injection Hin as ->. subst count.
    apply Z.ltb_lt in Hb. rewrite Hb.
    unfold tickLogic_invocations. cbn [filter is_enter].
    assert (A4 : at_most (is_enter fn_tickLogic) 4
                   (bind (tickLogic_count 4) (fun _ => rest))).
    { eapply at_most_le.
      - eapply at_most_bind; [ apply tickLogic_count_at_most | intros ].
        eapply at_most_silent; [ exact K | exact plain_not_tickLogic ].
      - cbn. lia. }
    exact (A4 s).
  - destruct (Kb s) as (_ & Ht & _).
    rewrite Forall_forall in Ht. specialize (Ht _ Hin). discriminate.
Qed.

(** C3, as the code has it.  The cap is per call of [tick]: in a call of
    [tick], when the server tick it reads is more than four ticks ahead of
    the local scenario tick, [tickLogic] is entered at most four times,
    whatever the time since the last tick and the game speed would have made
    of the update count. *)
Theorem tick_catch_up_cap (s : @State W) (v : Z) :
  In (ServerTick v) (trace (tick s)) ->
  4 < numTicksBehind v (scenarioTicks s) ->
  (tickLogic_invocations (trace (tick s)) <= 4)%nat.
Proof.
  unfold tick. rewrite bind_enter. cbn [trace].
  match goal with
  | |- In _ (_ :: trace (?body s)) -> _ =>
      assert (C : capped (scenarioTicks s) body)
  end.
  { apply capped_try_catch_GameException;
      [ | keeps_from (@tickInterrupted_keeps W host) ].
    repeat (apply capped_bind; [ solve [ keeps_auto ] | intros ]).
    match goal with |- capped _ (if ?b then _ else _) => destruct b end.
    - (* the intro is running *)
      apply capped_silent.
      repeat first [ keeps_from (@launchGameFromCmdLineOptions_keeps W host)
                   | keeps_step ].
    - unfold tick_updates.
      repeat (apply capped_bind; [ solve [ keeps_auto ] | intros ]).
      apply capped_catch_up.
      repeat first [ keeps_from (@sub_431695_keeps W host) | keeps_step ]. }
  intros [Hin | Hin] Hb; [discriminate | ].
  exact (C s eq_refl v Hin Hb).
Qed.

End CatchUp.

(** ** C8: which autosaves [autosaveClean] removes *)

Section SortedNames.

Lemma ascii_compare_trans (a b c : ascii) (o : comparison) :
  Ascii.compare a b = o -> Ascii.compare b c = o -> Ascii.compare a c = o.
Proof.
  unfold Ascii.compare. intros H1 H2. destruct o.
  - apply N.compare_eq_iff in H1, H2. apply N.compare_eq_iff. congruence.
  - rewrite N.compare_lt_iff in *. lia.
  - rewrite N.compare_gt_iff in *. lia.
Qed.

Lemma string_compare_refl (a : string) : String.compare a a = Eq.
Proof.
  induction a as [ | c a IH]; cbn; [reflexivity | ].
  unfold Ascii.compare. now rewrite N.compare_refl.
Qed.

(** [String.compare] never turns two steps that are not [Gt] into [Gt]. *)
Lemma string_compare_trans (a b c : string) :
  String.compare a b <> Gt -> String.compare b c <> Gt -> String.compare a c <> Gt.
Proof.
  revert b c. induction a as [ | x a IH]; intros [ | y b] [ | z c]; cbn;
    try congruence.
  destruct (Ascii.compare x y) eqn:Exy; try congruence;
    destruct (Ascii.compare y z) eqn:Eyz; try congruence.
  - apply Ascii.compare_eq_iff in Exy, Eyz. subst.
    unfold Ascii.compare at 1. rewrite N.compare_refl. apply IH.
  - apply Ascii.compare_eq_iff in Exy. subst. rewrite Eyz. congruence.
  - apply Ascii.compare_eq_iff in Eyz. subst. rewrite Exy. congruence.
  - rewrite (ascii_compare_trans x y z Lt Exy Eyz). congruence.
Qed.

Lemma name_le_trans (a b c : string) : name_le a b -> name_le b c -> name_le a c.
Proof.
  unfold name_le, String.leb. intros H1 H2.
  pose proof (string_compare_trans a b c) as T.
  destruct (String.compare a b); try discriminate;
    destruct (String.compare b c); try discriminate;
    destruct (String.compare a c); try reflexivity;
    exfalso; apply T; congruence.
Qed.

Lemma name_le_total (a b : string) : String.leb a b = false -> name_le b a.
Proof.
  intro H. destruct (String.leb_total a b) as [T | T]; [congruence | exact T].
Qed.

Lemma insert_sorted_perm (x : string) (l : list string) :
  Permutation (x :: l) (insert_sorted x l).
Proof.
  induction l as [ | y l IH]; cbn; [reflexivity | ].
  destruct (String.leb x y); [reflexivity | ].
  rewrite perm_swap. now constructor.
Qed.

Lemma std_sort_perm (l : list string) : Permutation l (std_sort l).
Proof.
  induction l as [ | x l IH]; cbn; [constructor | ].
  rewrite <- insert_sorted_perm. now constructor.
Qed.

Lemma insert_sorted_sorted (x : string) (l : list string) :
  StronglySorted name_le l -> StronglySorted name_le (insert_sorted x l).
Proof.
  induction 1 as [ | y l Hl IH Hy]; cbn.
  - repeat constructor.
  - destruct (String.leb x y) eqn:E.
    + constructor; [now constructor | ].
      constructor; [exact E | ].
      eapply Forall_impl; [ | exact Hy]. intros z Hz.
      exact (name_le_trans x y z E Hz).
    + constructor; [exact IH | ].
      rewrite <- insert_sorted_perm.
      constructor; [now apply name_le_total | exact Hy].
Qed.

Lemma std_sort_sorted (l : list string) : StronglySorted name_le (std_sort l).
Proof.
  induction l as [ | x l IH]; cbn; [constructor | now apply insert_sorted_sorted].
Qed.

Lemma sorted_app_le (l1 l2 : list string) :
  StronglySorted name_le (l1 ++ l2) ->
  forall a b, In a l1 -> In b l2 -> name_le a b.
Proof.
  induction l1 as [ | x l1 IH]; cbn; intros H a b Ha Hb; [destruct Ha | ].
  inversion H as [ | ? ? Hs Hf]; subst.
  destruct Ha as [-> | Ha].
  - rewrite Forall_forall in Hf. apply Hf. apply in_or_app. now right.
  - now apply IH.
Qed.

End SortedNames.

Section AutosaveClean.

Context {W : Type} {host : Host W}.

Lemma try_catch_std_exception_done (m : @M W unit) (h : string -> @M W unit)
    (s : @State W) (a : unit) :
  outcome (m s) = Done a -> try_catch_std_exception m h s = m s.
Proof. unfold try_catch_std_exception. now intros ->. Qed.

Lemma bind_call_nothrow {B} (c : Call) (f : unit -> @M W B) (s : @State W) :
  nothrow host ->
  bind (call c) f s
  = let r := f tt (set_world (fst (run c (world s))) s) in
    mkResult (Ext c :: trace r) (outcome r) (final r).
Proof. intro N. rewrite bind_call, (N c (world s)). reflexivity. Qed.

(** The loop that deletes the excess files removes them one by one, in
    order. *)
Lemma delete_excess_files (dir : string) (names : list string) (s : @State W) :
  nothrow host ->
  let r := for_each names (fun name =>
             bind (call (Logging_info "Deleting old autosave: {}" (path_join dir name)))
                  (fun _ => call (fs_remove (path_join dir name)))) s in
  outcome r = Done tt
  /\ removed_files (trace r) = map (path_join dir) names.
Proof.
  intro N. revert s. induction names as [ | name names IH]; intro s; cbn [for_each].
  - split; reflexivity.
  - rewrite bind_assoc, bind_call_nothrow by exact N. cbv zeta.
    rewrite bind_call_nothrow by exact N. cbv zeta.
    cbn [trace outcome final].
    match goal with
    | |- context [for_each names ?b ?s1] => destruct (IH s1) as (D & R)
    end.
    split; [exact D | ].
    unfold removed_files in *. cbn [flat_map app map]. now rewrite R.
Qed.

(** C8, as the code has it.  When no file operation fails and the autosave
    directory holds more autosave files than are kept, where at least one is
    kept whatever the configured amount, [autosaveClean] removes the first
    files in the order of their names, down to the amount kept, and none
    of the last: every file removed sorts before every file kept. *)
Theorem autosaveClean_retention (s : @State W) :
  let dir := Environment_getPath_autosave (world s) in
  let files := collect_autosaveFiles (fs_directory_iterator dir (world s)) in
  let keep := amountToKeep (Config_autosaveAmount (world s)) in
  let removed := firstn (List.length files - keep) (std_sort files) in
  let kept := skipn (List.length files - keep) (std_sort files) in
  nothrow host ->
  fs_is_directory dir (world s) = true ->
  (keep < List.length files)%nat ->
  outcome (autosaveClean s) = Done tt
  /\ removed_files (trace (autosaveClean s)) = map (path_join dir) removed
  /\ Permutation files (removed ++ kept)
  /\ List.length removed = (List.length files - keep)%nat
  /\ List.length kept = keep
  /\ (forall a b, In a removed -> In b kept -> String.leb a b = true).
Proof.
  intros dir files keep removed kept N Hdir Hlt.
  assert (Hlen : List.length (std_sort files) = List.length files).
  { symmetry. apply Permutation_length, std_sort_perm. }
  unfold autosaveClean. rewrite bind_enter. cbn [outcome trace].
  match goal with
  | |- context [try_catch_std_exception ?m ?h s] =>
      assert (E : outcome (m s) = Done tt
                  /\ removed_files (trace (m s)) = map (path_join dir) removed)
  end.
  { rewrite !bind_ask. fold dir. rewrite Hdir. cbn [when].
    rewrite !bind_ask. fold dir files keep.
    apply Nat.ltb_lt in Hlt. rewrite Hlt. cbn [when].
    apply delete_excess_files. exact N. }
  destruct E as (D & R).
  rewrite (try_catch_std_exception_done _ _ s tt D).
  split; [exact D | ]. split; [exact R | ].
  split; [ unfold removed, kept; rewrite firstn_skipn; apply std_sort_perm | ].
  split; [ unfold removed; rewrite length_firstn; lia | ].
  split; [ unfold kept; rewrite length_skipn; lia | ].
  intros a b Ha Hb.
  apply (sorted_app_le removed kept); auto.
  unfold removed, kept. rewrite firstn_skipn. apply std_sort_sorted.
Qed.

End AutosaveClean.

(** ** C9: the variable time step *)

Section VariableStep.

Context {W : Type} {host : Host W}.

Lemma tick_entered_once : counts (is_enter fn_tick) 1 (@tick W host).
Proof.
  unfold tick.
  eapply counts_eq.
  - eapply counts_bind; [ apply counts_emit | intros ].
    silent_by ltac:(first [ keeps_from (@tick_updates_keeps W host)
                          | keeps_from (@launchGameFromCmdLineOptions_keeps W host)
                          | keeps_from (@tickInterrupted_keeps W host) ]).
  - reflexivity.
Qed.

Lemma variableUpdate_step_keeps :
  keeps (fun s : @State W => lastUpdate s)
    (fun e => negb (is_tween e || is_render e)) variableUpdate_step.
Proof.
  unfold variableUpdate_step.
  repeat first [ keeps_from (@tick_keeps W host) | keeps_step ].
Qed.

(** An iteration of the loop runs one tick and takes one step off the
    accumulator. *)
Lemma variableUpdate_step_runs (s : @State W) :
  outcome (variableUpdate_step s) = Done tt ->
  tick_invocations (trace (variableUpdate_step s)) = 1%nat
  /\ accumulator (final (variableUpdate_step s))
     = PrimFloat.sub (accumulator s) UpdateTime.
Proof.
  intro D. split.
  - assert (C : counts (is_enter fn_tick) 1 (@variableUpdate_step W host)).
    { unfold variableUpdate_step. eapply counts_eq.
      - repeat counts_step ltac:(apply tick_entered_once).
      - reflexivity. }
    exact (C s tt D).
  - assert (E : ends (fun s : @State W => accumulator s) (fun _ => false)
                  (fun acc _ s' => accumulator s' = PrimFloat.sub acc UpdateTime)
                  (@variableUpdate_step W host)).
    { unfold variableUpdate_step.
      apply ends_bind; [ keeps_auto | intros ].
      apply ends_bind; [ keeps_from (@tick_keeps W host) | intros ].
      intros s0 x0 _. rewrite bind_modify. reflexivity. }
    exact (E s tt D).
Qed.

(** The loop emits neither [tween] nor [render]. *)
Lemma variableUpdate_loop_silent (fuel : nat) (s : @State W) (r : Result unit) :
  variableUpdate_loop fuel s = Some r ->
  filter (fun e => is_tween e || is_render e) (trace r) = [].
Proof.
  revert s r. induction fuel as [ | fuel IH]; intros s r; cbn [variableUpdate_loop];
    destruct (PrimFloat.ltb UpdateTime (accumulator s)); try discriminate;
    try (intros [= <-]; reflexivity).
  unfold after.
  pose proof (silent_trace (fun e => is_tween e || is_render e) _ _ _ s
                variableUpdate_step_keeps
                (fun e He => proj1 (negb_true_iff _) He)) as Hs.
  destruct (outcome (variableUpdate_step s)) as [a | e].
  - destruct (variableUpdate_loop fuel (final (variableUpdate_step s))) as [r' | ] eqn:L;
      [ | discriminate].
    intros [= <-]. cbn [trace]. rewrite filter_app, Hs. cbn [app]. exact (IH _ _ L).
  - intros [= <-]. exact Hs.
Qed.

(** With a host that never throws, the loop runs as many ticks as [drain]
    takes steps off the accumulator, and leaves what [drain] leaves. *)
Lemma variableUpdate_loop_drain (fuel : nat) (s : @State W) (n : nat) (rest : float) :
  nothrow host ->
  drain UpdateTime fuel (accumulator s) = Some (n, rest) ->
  exists r,
    variableUpdate_loop fuel s = Some r
    /\ outcome r = Done tt
    /\ tick_invocations (trace r) = n
    /\ accumulator (final r) = rest.
Proof.
  intro N. revert s n rest.
  induction fuel as [ | fuel IH]; intros s n rest; cbn [variableUpdate_loop drain];
    destruct (PrimFloat.ltb UpdateTime (accumulator s)); try discriminate;
    try (intros [= <- <-]; eexists; repeat split; reflexivity).
  destruct (variableUpdate_step_keeps s) as (_ & _ & Hd).
  destruct (Hd N) as [[] D].
  destruct (variableUpdate_step_runs s D) as (Ht & Ha).
  rewrite <- Ha.
  destruct (drain UpdateTime fuel (accumulator (final (variableUpdate_step s))))
    as [[n' rest'] | ] eqn:Dr; [ | discriminate].
  intros [= <- <-].
  destruct (IH _ _ _ Dr) as (r' & L & D' & T' & A').
  unfold after. rewrite D, L.
  eexists; split; [reflexivity | ]. cbn [outcome trace final].
  repeat split; auto.
  unfold tick_invocations in *. rewrite filter_app, length_app, Ht, T'. reflexivity.
Qed.

Lemma filter_or_nil (q1 q2 : Event -> bool) (t : Trace) :
  filter (fun e => q1 e || q2 e) t = [] -> filter q1 t = [] /\ filter q2 t = [].
Proof.
  induction t as [ | e t IH]; cbn; [auto | ].
  destruct (q1 e), (q2 e); cbn; try discriminate. exact IH.
Qed.

(** When the loop returns, it ran as many ticks as [drain] takes steps off
    the accumulator, and left what [drain] leaves. *)
Lemma variableUpdate_loop_done (fuel : nat) (s : @State W) (r : Result unit) :
  variableUpdate_loop fuel s = Some r ->
  outcome r = Done tt ->
  drain UpdateTime fuel (accumulator s)
  = Some (tick_invocations (trace r), accumulator (final r)).
Proof.
  revert s r. induction fuel as [ | fuel IH]; intros s r;
    cbn [variableUpdate_loop drain];
    destruct (PrimFloat.ltb UpdateTime (accumulator s)); try discriminate;
    try (intros [= <-] _; reflexivity).
  unfold after.
  destruct (outcome (variableUpdate_step s)) as [[] | e] eqn:D.
  - destruct (variableUpdate_step_runs s D) as (Ht & Ha).
    destruct (variableUpdate_loop fuel (final (variableUpdate_step s))) as [r' | ] eqn:L;
      [ | discriminate].
    intros [= <-]. cbn [outcome trace final]. intro D'.
    rewrite <- Ha, (IH _ _ L D').
    unfold tick_invocations in *. now rewrite filter_app, length_app, Ht.
  - intros [= <-]. discriminate.
Qed.

(** What a pass that returned has done. *)
Lemma variableUpdate_done (fuel : nat) (s : @State W) (r : Result unit) :
  variableUpdate fuel s = Some r ->
  outcome r = Done tt ->
  filter is_tween (trace r)
  = [Ext (EntityTweener_tween
            (std_min_float (PrimFloat.div (accumulator s) UpdateTime) 1%float))]
  /\ filter is_render (trace r) = [Ext Ui_render]
  /\ drain UpdateTime fuel (accumulator s)
     = Some (tick_invocations (trace r), accumulator (final r)).
Proof.
  unfold variableUpdate, after. rewrite bind_enter.
  cbn [get outcome final trace].
  destruct (variableUpdate_loop fuel s) as [r0 | ] eqn:L; cbn [then_]; [ | discriminate].
  destruct (filter_or_nil _ _ _ (variableUpdate_loop_silent fuel s r0 L)) as (Ht & Hr).
  pose proof (variableUpdate_loop_done fuel s r0 L) as Hd.
  destruct (outcome r0) as [[] | e].
  - rewrite bind_call.
    destruct (snd (run _ _)); cbv zeta; cbn [outcome trace final].
    + intros [= <-]. discriminate.
    + unfold call. cbn [outcome trace final].
      destruct (snd (run _ _)); intros [= <-]; [discriminate | ].
      intros _. cbn [trace final app filter is_tween is_render].
      rewrite !filter_app, Ht, Hr. split; [reflexivity | split; [reflexivity | ] ].
      rewrite (Hd eq_refl). unfold tick_invocations.
      cbn [filter is_enter]. rewrite filter_app. cbn [filter is_enter].
      rewrite app_nil_r. reflexivity.
  - intros [= <-]. discriminate.
Qed.

(** The loop ends when its arithmetic does, whatever the ticks do: with the
    fuel that drains the accumulator, it returns or it throws. *)
Lemma variableUpdate_loop_returns (fuel : nat) (s : @State W) (n : nat) (rest : float) :
  drain UpdateTime fuel (accumulator s) = Some (n, rest) ->
  exists r, variableUpdate_loop fuel s = Some r.
Proof.
  revert s n rest.
  induction fuel as [ | fuel IH]; intros s n rest; cbn [variableUpdate_loop drain];
    destruct (PrimFloat.ltb UpdateTime (accumulator s)); try discriminate;
    try (intros _; eexists; reflexivity).
  unfold after.
  destruct (outcome (variableUpdate_step s)) as [[] | e] eqn:D;
    [ | intros _; eexists; reflexivity ].
  destruct (variableUpdate_step_runs s D) as (_ & Ha). rewrite <- Ha.
  destruct (drain UpdateTime fuel (accumulator (final (variableUpdate_step s))))
    as [[n' rest'] | ] eqn:Dr; [ | discriminate].
  intros _. destruct (IH _ _ _ Dr) as (r' & ->). eexists; reflexivity.
Qed.

(** A step of zero never drains an accumulator above it: the loop of
    [variableUpdate] needs a step that brings the accumulator down. *)
Lemma drain_step_zero (fuel : nat) : drain 0%float fuel 1%float = None.
Proof.
  induction fuel as [ | fuel IH]; [reflexivity | ].
  change (drain 0%float (S fuel) 1%float)
    with (match drain 0%float fuel 1%float with
          | Some (n, rest) => Some (S n, rest)
          | None => None
          end).
  now rewrite IH.
Qed.

(** Fuel is a bound and nothing more: what the loop does with enough fuel
    it does with any more. *)
Lemma drain_more_fuel (step : float) (fuel extra : nat) (acc : float) (x : nat * float) :
  drain step fuel acc = Some x -> drain step (fuel + extra) acc = Some x.
Proof.
  revert acc x. induction fuel as [ | fuel IH]; intros acc x.
  - cbn [drain]. destruct (PrimFloat.ltb step acc) eqn:E; [discriminate | ].
    intros [= <-]. destruct extra; cbn [Nat.add drain]; now rewrite E.
  - cbn [Nat.add drain]. destruct (PrimFloat.ltb step acc); [ | auto].
    destruct (drain step fuel (acc - step)%float) as [[n rest] | ] eqn:D; [ | discriminate].
    intros [= <-]. now rewrite (IH _ _ D).
Qed.

Lemma variableUpdate_loop_more_fuel (fuel extra : nat) (s : @State W) (r : Result unit) :
  variableUpdate_loop fuel s = Some r -> variableUpdate_loop (fuel + extra) s = Some r.
Proof.
  revert s r. induction fuel as [ | fuel IH]; intros s r.
  - cbn [variableUpdate_loop].
    destruct (PrimFloat.ltb UpdateTime (accumulator s)) eqn:E; [discriminate | ].
    intros [= <-]. destruct extra; cbn [Nat.add variableUpdate_loop]; now rewrite E.
  - cbn [Nat.add variableUpdate_loop].
    destruct (PrimFloat.ltb UpdateTime (accumulator s)); [ | auto].
    unfold after. destruct (outcome (variableUpdate_step s)); [ | auto].
    destruct (variableUpdate_loop fuel (final (variableUpdate_step s))) as [r' | ] eqn:L;
      [ | discriminate].
    intros [= <-]. now rewrite (IH _ _ L).
Qed.

(** C9, as the code has it.  [variableUpdate] computes the interpolation
    factor before its loop, from the accumulator it is entered with.  The
    pass returns whenever the arithmetic of its loop ends: with the fuel
    that takes the accumulator down to [UpdateTime] by steps of
    [UpdateTime], [variableUpdate] gives a result, whatever the host does;
    that result is a normal return when no call throws; and a pass that
    returns normally has applied
    [min((float)(accumulator / UpdateTime), 1.0f)] of the accumulator it was
    entered with, once, and rendered once, however many ticks ran: it called
    [tick] once for each step taken off the accumulator while it was above
    [UpdateTime], and left what these steps leave. *)
Theorem variableUpdate_alpha (fuel : nat) (s : @State W) (n : nat) (rest : float) :
  drain UpdateTime fuel (accumulator s) = Some (n, rest) ->
  exists r,
    variableUpdate fuel s = Some r
    /\ (nothrow host -> outcome r = Done tt)
    /\ (outcome r = Done tt ->
        filter is_tween (trace r)
        = [Ext (EntityTweener_tween
                  (std_min_float (PrimFloat.div (accumulator s) UpdateTime) 1%float))]
        /\ filter is_render (trace r) = [Ext Ui_render]
        /\ tick_invocations (trace r) = n
        /\ accumulator (final r) = rest).
Proof.
  intro Hd.
  destruct (variableUpdate_loop_returns fuel s n rest Hd) as (r0 & L).
  assert (R : exists r, variableUpdate fuel s = Some r).
  { unfold variableUpdate, after. rewrite bind_enter. cbn [get outcome final trace].
    rewrite L. cbn [then_]. eexists; reflexivity. }
  destruct R as (r & R). exists r. split; [exact R | split].
  - intro N.
    destruct (variableUpdate_loop_drain fuel s n rest N Hd) as (r1 & L1 & D1 & _).
    rewrite L in L1. injection L1 as <-.
    revert R. unfold variableUpdate, after. rewrite bind_enter.
    cbn [get outcome final trace]. rewrite L. cbn [then_]. rewrite D1.
    rewrite bind_call_nothrow by exact N. cbv zeta. unfold call.
    rewrite (N Ui_render). intros [= <-]. reflexivity.
  - intro D. destruct (variableUpdate_done fuel s r R D) as (Ht & Hr & Hdone).
    rewrite Hd in Hdone. injection Hdone as <- <-. auto.
Qed.

End VariableStep.

(** The conversion to [float] keeps the sign: a negative double below the
    least [float] becomes the negative zero, a positive one the positive
    zero, and the conversions of -0.1 and of 0.1 are opposite. *)
Lemma float_of_double_sign :
  PrimFloat.classify (float_of_double (Z.ldexp (PrimFloat.opp 1%float) (-200))) = FloatClass.NZero
  /\ PrimFloat.classify (float_of_double (Z.ldexp 1%float (-200))) = FloatClass.PZero
  /\ float_of_double (PrimFloat.opp (1 / 10)%float)
     = PrimFloat.opp (float_of_double (1 / 10)%float).
Proof. vm_compute. auto. Qed.

(** * The model on the concrete host *)

Lemma sim_nothrow (rate maxDelta : float) : nothrow (simHost rate maxDelta false).
Proof. intros c w. destruct c; reflexivity. Qed.

Lemma tickLogic_network_gate_witness :
  @tickLogic _ sim40 (sim_state world_behind)
  <> mkResult [Enter fn_tickLogic] (Done tt) (sim_state world_behind)
  /\ scenarioTicks (final (@tickLogic _ sim40 (sim_state world_behind))) = 101.
Proof.
  pose proof (proj2 (tickLogic_network_gate (host := sim40) (sim_state world_behind))
                eq_refl) as (H & _).
  split; [ | exact H].
  intro E. apply (f_equal (fun r => List.length (trace r))) in E.
  vm_compute in E. discriminate.
Defined.

Lemma tick_catch_up_cap_witness :
  In (ServerTick 1000) (trace (@tick _ sim40 (sim_state world_behind)))
  /\ 4 < numTicksBehind 1000 100
  /\ (tickLogic_invocations (trace (@tick _ sim40 (sim_state world_behind))) <= 4)%nat.
Proof.
  assert (H1 : In (ServerTick 1000) (trace (@tick _ sim40 (sim_state world_behind)))).
  { vm_compute. repeat first [ left; reflexivity | right ]. }
  assert (H2 : 4 < numTicksBehind 1000 100) by (vm_compute; reflexivity).
  split; [exact H1 | split; [exact H2 | ]].
  exact (tick_catch_up_cap (host := sim40) (sim_state world_behind) 1000 H1 H2).
Defined.

(** C3 as stated fails for a pass of [update]: in the variable time step it
    calls [tick] once per step of the accumulator, and each call catches up
    by four.  Here a client 900 ticks behind its server enters [tickLogic]
    sixteen times in one pass, the server more than four ticks ahead at
    every reading. *)
Lemma update_catch_up_counterexample :
  exists r,
    @update _ sim40 10 (sim_state world_behind) = Some r
    /\ tick_invocations (trace r) = 4%nat
    /\ tickLogic_invocations (trace r) = 16%nat
    /\ forallb (fun e => match e with
                         | ServerTick v => 4 <? numTicksBehind v (scenarioTicks (final r))
                         | _ => true
                         end) (trace r) = true.
Proof. eexists. split; [vm_compute; reflexivity | ]. vm_compute. auto. Qed.






Lemma tickLogic_load_error_dispatch_at_minus_two :
  loadErrorCode (final (@tickLogic _ sim40 (set_loadErrorCode (-2) (sim_state sim_world)))) = 0
  /\ exists objectList : list Z,
       filter is_load_error_window
         (trace (@tickLogic _ sim40 (set_loadErrorCode (-2) (sim_state sim_world))))
       = @load_error_windows _ sim40 (-2) 0 objectList.
Proof.
  apply (tickLogic_load_error_dispatch (host := sim40)
           (set_loadErrorCode (-2) (sim_state sim_world))).
  - vm_compute; reflexivity.
  - vm_compute; reflexivity.
Defined.

Lemma autosaveClean_retention_witness :
  removed_files (trace (@autosaveClean _ sim40 (sim_state (world_files 2))))
  = ["autosave/autosave_2024-01-01_10-00-00.sv5"].
Proof.
  refine (proj1 (proj2 (autosaveClean_retention (host := sim40)
                          (sim_state (world_files 2)) _ _ _))).
  - apply sim_nothrow.
  - reflexivity.
  - vm_compute. lia.
Defined.

(** C8 as stated fails for a retention count of 0: of three autosaves two
    are removed, not three, and the newest remains. *)
Lemma autosaveClean_keeps_one_counterexample :
  let s := sim_state (world_files 0) in
  let r := @autosaveClean _ sim40 s in
  @Config_autosaveAmount _ sim40 (world s) = 0
  /\ @collect_autosaveFiles _ sim40 (@fs_directory_iterator _ sim40 sim_dir (world s))
     = [ "autosave_2024-02-01_10-00-00.sv5"; "autosave_2024-01-01_10-00-00.sv5";
         "autosave_2024-03-01_10-00-00.sv5" ]
  /\ removed_files (trace r)
     = [ "autosave/autosave_2024-01-01_10-00-00.sv5";
         "autosave/autosave_2024-02-01_10-00-00.sv5" ]
  /\ @collect_autosaveFiles _ sim40
       (@fs_directory_iterator _ sim40 sim_dir (world (final r)))
     = [ "autosave_2024-03-01_10-00-00.sv5" ].
Proof. vm_compute. auto. Qed.

Lemma variableUpdate_alpha_witness :
  exists r,
    @variableUpdate _ sim4 5 (set_accumulator (3 / 8)%float (sim_state sim_world)) = Some r
    /\ (nothrow sim4 -> outcome r = Done tt)
    /\ (outcome r = Done tt ->
        filter is_tween (trace r) = [Ext (EntityTweener_tween 1%float)]
        /\ filter is_render (trace r) = [Ext Ui_render]
        /\ tick_invocations (trace r) = 1%nat
        /\ accumulator (final r) = (1 / 8)%float).
Proof.
  apply (variableUpdate_alpha (host := sim4) 5
           (set_accumulator (3 / 8)%float (sim_state sim_world)) 1%nat (1 / 8)%float).
  vm_compute; reflexivity.
Defined.

(** C9 as stated fails: with a step of a quarter of a second and 0.375 s
    accumulated, one tick runs and 0.125 s is left, half a step; the factor
    applied is 1, that of the accumulator before the loop. *)
Lemma variableUpdate_alpha_counterexample :
  exists r,
    @variableUpdate _ sim4 5 (set_accumulator (3 / 8)%float (sim_state sim_world)) = Some r
    /\ outcome r = Done tt
    /\ tick_invocations (trace r) = 1%nat
    /\ accumulator (final r) = (1 / 8)%float
    /\ std_min_float (accumulator (final r) / @UpdateTime _ sim4)%float 1%float
       = (1 / 2)%float
    /\ filter is_tween (trace r) = [Ext (EntityTweener_tween 1%float)].
Proof. eexists. split; [vm_compute; reflexivity | ]. vm_compute. auto. Qed.

Lemma dateTick_precondition_witness :
  @dateTick _ sim40 (sim_state world_editor)
  = mkResult [Enter fn_dateTick] (Done tt) (sim_state world_editor).
Proof.
  exact (dateTick_precondition (host := sim40) (sim_state world_editor) eq_refl).
Defined.

(** * More of the main loop *)

(** ** The alphabet of each function *)

Ltac keeps_via H :=
  idtac;
  eapply keeps_weaken;
  [ apply H
  | intros ? ? E;
    cbv [view_all view_plain view_tickLogic view_tick view_counters view_loadError] in *;
    congruence
  | intros [ [] | [] | ]; intro;
    repeat match goal with a : Addr |- _ => destruct a end;
    solve [ reflexivity | discriminate | assumption ] ].

Section Alphabets.

Context {W : Type} {host : Host W}.

Lemma tickInterrupted_emits :
  keeps view_all alphabet_tickInterrupted tickInterrupted.
Proof. unfold tickInterrupted. keeps_auto. Qed.

Lemma loadFile_emits p : keeps view_all alphabet_loadFile (loadFile p).
Proof. unfold loadFile. keeps_auto. Qed.

Lemma launchGameFromCmdLineOptions_emits :
  keeps view_all alphabet_launchGameFromCmdLineOptions
    launchGameFromCmdLineOptions.
Proof.
  unfold launchGameFromCmdLineOptions.
  repeat first [ keeps_via loadFile_emits | keeps_step ].
Qed.

Lemma sub_431695_emits v : keeps view_all alphabet_sub_431695 (sub_431695 v).
Proof. unfold sub_431695. keeps_auto. Qed.

Lemma autosaveReset_emits :
  keeps view_plain alphabet_autosaveReset autosaveReset.
Proof. unfold autosaveReset. keeps_auto. Qed.

Lemma autosaveClean_emits :
  keeps view_all alphabet_autosaveClean autosaveClean.
Proof. unfold autosaveClean. keeps_auto. Qed.

Lemma autosave_emits : keeps view_all alphabet_autosave autosave.
Proof. unfold autosave. keeps_auto. Qed.

Lemma autosaveCheck_emits :
  keeps view_plain alphabet_autosaveCheck autosaveCheck.
Proof.
  unfold autosaveCheck.
  repeat first [ keeps_via autosave_emits | keeps_via autosaveClean_emits
               | keeps_via autosaveReset_emits | keeps_step ].
Qed.

Lemma dateTick_newDay_emits y t :
  keeps view_plain alphabet_dateTick_newDay (dateTick_newDay y t).
Proof.
  unfold dateTick_newDay.
  repeat first [ keeps_via autosaveCheck_emits | keeps_step ].
Qed.

Lemma dateTick_emits : keeps view_plain alphabet_dateTick dateTick.
Proof.
  unfold dateTick.
  repeat first [ keeps_via dateTick_newDay_emits | keeps_step ].
Qed.

Lemma tickLogic_emits : keeps view_tickLogic alphabet_tickLogic tickLogic.
Proof.
  unfold tickLogic.
  repeat first [ keeps_via dateTick_emits | keeps_step ].
Qed.

Lemma tickLogic_count_emits n :
  keeps view_tickLogic alphabet_tickLogic_count (tickLogic_count n).
Proof.
  unfold tickLogic_count.
  repeat first [ keeps_via tickLogic_emits | keeps_step ].
Qed.

Lemma tick_updates_emits :
  keeps view_tickLogic alphabet_tick_updates tick_updates.
Proof.
  unfold tick_updates.
  repeat first [ keeps_via tickLogic_count_emits | keeps_via sub_431695_emits
               | keeps_step ].
Qed.

Lemma tick_emits : keeps view_tick alphabet_tick tick.
Proof.
  unfold tick.
  repeat first [ keeps_via tick_updates_emits
               | keeps_via launchGameFromCmdLineOptions_emits
               | keeps_via tickInterrupted_emits
               | keeps_step ].
Qed.

End Alphabets.

(** ** Rules for [returns], [lists] and [excludes] *)

Section MoreRules.

Context {W : Type} {host : Host W}.

Lemma returns_ret {A} (P : A -> Prop) (a : A) : P a -> returns P (@ret W A a).
Proof. intros H s b [= <-]. exact H. Qed.

Lemma returns_bind {A B} (P : B -> Prop) (m : @M W A) (f : A -> @M W B) :
  (forall a, returns P (f a)) -> returns P (bind m f).
Proof.
  intros Hf s b. unfold bind.
  destruct (outcome (m s)) as [a | e]; cbn [outcome]; [ | discriminate].
  apply Hf.
Qed.

Lemma at_most_bind_returns {A B} (q : Event -> bool) (P : A -> Prop) (n1 n2 : nat)
    (m : @M W A) (f : A -> @M W B) :
  at_most q n1 m -> returns P m -> (forall a, P a -> at_most q n2 (f a)) ->
  at_most q (n1 + n2) (bind m f).
Proof.
  intros Hm Hr Hf s. unfold bind. specialize (Hm s).
  destruct (outcome (m s)) as [a | e] eqn:E; cbn [outcome trace final].
  - rewrite occurrences_app. specialize (Hf a (Hr s a E) (final (m s))). lia.
  - lia.
Qed.

Lemma at_most_try_catch_GameException (q : Event -> bool) (n : nat) (m h : @M W unit) :
  at_most q n m -> at_most q 0 h -> at_most q n (try_catch_GameException m h).
Proof.
  intros Hm Hh s. unfold try_catch_GameException. specialize (Hm s).
  destruct (outcome (m s)) as [a | [ | what]]; auto.
  cbn [trace]. rewrite occurrences_app. specialize (Hh (final (m s))). lia.
Qed.

Lemma counts_repeat_n (q : Event -> bool) (k n : nat) (body : @M W unit) :
  counts q k body -> counts q (n * k) (repeat_n n body).
Proof.
  intro Hb; induction n as [ | n IH]; cbn [repeat_n].
  - intros s a _. reflexivity.
  - replace (S n * k)%nat with (k + n * k)%nat by lia.
    apply counts_bind; auto.
Qed.

Lemma ends_bind_returns {X A B} (view : @State W -> X) (q : Event -> bool)
    (P : A -> Prop) (Q : X -> list Event -> @State W -> Prop)
    (m : @M W A) (f : A -> @M W B) :
  keeps view (fun e => negb (q e)) m -> returns P m ->
  (forall a, P a -> ends view q Q (f a)) ->
  ends view q Q (bind m f).
Proof.
  intros K Hr Hf s b. unfold bind.
  destruct (K s) as (Kv & _ & _).
  assert (Hs : filter q (trace (m s)) = []).
  { apply (silent_trace q view (fun e => negb (q e)) m s K).
    intros e He. now apply negb_true_iff. }
  destruct (outcome (m s)) as [a | e] eqn:E; cbn [outcome trace final]; [ | discriminate].
  intro D. rewrite filter_app, Hs, <- Kv. cbn [app].
  exact (Hf a (Hr s a E) (final (m s)) b D).
Qed.

Lemma lists_bind {A B} (q : Event -> bool) (l1 l2 : list Event)
    (m : @M W A) (f : A -> @M W B) :
  lists q l1 m -> (forall a, lists q l2 (f a)) -> lists q (l1 ++ l2) (bind m f).
Proof.
  intros Hm Hf s b. unfold bind.
  destruct (outcome (m s)) as [a | e] eqn:E; cbn [outcome trace final]; [ | discriminate].
  intro D. now rewrite filter_app, (Hm s a E), (Hf a (final (m s)) b D).
Qed.

Lemma lists_call (q : Event -> bool) (c : Call) :
  lists q (if q (Ext c) then [Ext c] else []) (@call W host c).
Proof. intros s a _. cbn. now destruct (q (Ext c)). Qed.

Lemma lists_emit (q : Event -> bool) (e : Event) :
  lists q (if q e then [e] else []) (@emit W e).
Proof. intros s a _. cbn. now destruct (q e). Qed.

Lemma lists_pure {A} (q : Event -> bool) (m : @M W A) :
  (forall s, trace (m s) = []) -> lists q [] m.
Proof. intros H s a _. now rewrite H. Qed.

Lemma lists_silent {X A} (q : Event -> bool) (view : @State W -> X)
    (p : Event -> bool) (m : @M W A) :
  keeps view p m -> (forall e, p e = true -> q e = false) -> lists q [] m.
Proof. intros K Hp s a _. exact (silent_trace q view p m s K Hp). Qed.

Lemma lists_eq {A} (q : Event -> bool) (l l' : list Event) (m : @M W A) :
  lists q l m -> l = l' -> lists q l' m.
Proof. intros H <-; exact H. Qed.

Lemma excludes_bind {X A B} (a q : Event -> bool) (view : @State W -> X)
    (p : Event -> bool) (m : @M W A) (f : A -> @M W B) :
  keeps view p m ->
  (forall e, p e = true -> a e = false) -> (forall e, p e = true -> q e = false) ->
  (forall x, excludes a q (f x)) ->
  excludes a q (bind m f).
Proof.
  intros K Ha Hq Hf s. rewrite trace_bind, !filter_app.
  rewrite (silent_trace a view p m s K Ha), (silent_trace q view p m s K Hq).
  cbn [app]. destruct (outcome (m s)) as [x | e]; [apply Hf | now left].
Qed.

Lemma excludes_left {X A} (a q : Event -> bool) (view : @State W -> X)
    (p : Event -> bool) (m : @M W A) :
  keeps view p m -> (forall e, p e = true -> a e = false) -> excludes a q m.
Proof. intros K Ha s. left. exact (silent_trace a view p m s K Ha). Qed.

Lemma excludes_right {X A} (a q : Event -> bool) (view : @State W -> X)
    (p : Event -> bool) (m : @M W A) :
  keeps view p m -> (forall e, p e = true -> q e = false) -> excludes a q m.
Proof. intros K Hq s. right. exact (silent_trace q view p m s K Hq). Qed.

Lemma excludes_try_catch_GameException {X} (a q : Event -> bool)
    (view : @State W -> X) (p : Event -> bool) (m h : @M W unit) :
  excludes a q m -> keeps view p h ->
  (forall e, p e = true -> a e = false) -> (forall e, p e = true -> q e = false) ->
  excludes a q (try_catch_GameException m h).
Proof.
  intros Hm K Ha Hq s. unfold try_catch_GameException. specialize (Hm s).
  destruct (outcome (m s)) as [x | [ | what]]; auto.
  cbn [trace]. rewrite !filter_app.
  rewrite (silent_trace a view p h _ K Ha), (silent_trace q view p h _ K Hq).
  now rewrite !app_nil_r.
Qed.

End MoreRules.

(** [m] emits no event that satisfies [q], by the alphabet lemma [H]. *)
Ltac by_alphabet :=
  intros [ [] | [] | ]; intro;
  repeat match goal with a : Addr |- _ => destruct a end;
  solve [ reflexivity | discriminate ].

Ltac lists_step known :=
  idtac;
  lazymatch goal with
  | |- lists _ _ (bind _ _) => eapply lists_bind; [ | intros ]
  | |- lists _ _ (call _) => apply lists_call
  | |- lists _ _ (emit _) => apply lists_emit
  | |- lists _ _ (enter _) => apply lists_emit
  | |- lists _ _ (ret _) => apply lists_pure; reflexivity
  | |- lists _ _ (get _) => apply lists_pure; reflexivity
  | |- lists _ _ (ask _) => apply lists_pure; reflexivity
  | |- lists _ _ (modify _) => apply lists_pure; reflexivity
  | |- lists _ _ _ => known
  end.


Ltac at_most_skip known :=
  idtac;
  lazymatch goal with
  | |- at_most ?q ?n (bind ?m ?f) =>
      apply (at_most_bind q 0 n m f); [ silent_by known | intros ]
  end.

Ltac returns_auto :=
  repeat first
    [ apply returns_bind; intros
    | apply returns_ret; lia
    | match goal with
      | |- returns _ (if ?b then _ else _) => destruct b
      | |- returns _ (match ?x with _ => _ end) => destruct x
      end ].

(** ** [tick]: interruption, time keeping, update counts *)

Section TickMore.

Context {W : Type} {host : Host W}.

Lemma tickInterrupted_returns (s : @State W) :
  (forall w, snd (run EntityTweener_reset w) = None) ->
  (forall fmt arg w, snd (run (Logging_info fmt arg) w) = None) ->
  outcome (tickInterrupted s) = Done tt
  /\ In (Ext (Logging_info "Tick interrupted" "")) (trace (tickInterrupted s)).
Proof.
  intros Hr Hl. unfold tickInterrupted.
  rewrite bind_enter, bind_call, Hr. cbv zeta. unfold call. rewrite Hl.
  cbn. auto.
Qed.

(** X1.  A [GameException] never leaves [tick]: when resetting the tweener
    and logging return, every tick that was interrupted (it entered
    [tickInterrupted]) returns normally and has logged the interruption. *)
Theorem tick_contains_GameException (s : @State W) :
  (forall w, snd (run EntityTweener_reset w) = None) ->
  (forall fmt arg w, snd (run (Logging_info fmt arg) w) = None) ->
  outcome (tick s) <> Thrown GameException
  /\ (In (Enter fn_tickInterrupted) (trace (tick s)) ->
      outcome (tick s) = Done tt
      /\ In (Ext (Logging_info "Tick interrupted" "")) (trace (tick s))).
Proof.
  intros Hr Hl. unfold tick. rewrite bind_enter. cbn [outcome trace].
  match goal with
  | |- context [try_catch_GameException ?m ?h s] => set (body := m)
  end.
  assert (K : keeps (fun _ : @State W => tt) (fun e => negb (is_interruption e)) body).
  { subst body.
    repeat first [ keeps_via (@tick_updates_emits W host)
                 | keeps_via (@launchGameFromCmdLineOptions_emits W host)
                 | keeps_step ]. }
  destruct (K s) as (_ & Kt & _). rewrite Forall_forall in Kt.
  destruct (tickInterrupted_returns (final (body s)) Hr Hl) as (D & L).
  unfold try_catch_GameException.
  destruct (outcome (body s)) as [a | [ | what]] eqn:E; cbn [outcome trace].
  - rewrite E. split; [discriminate | ].
    intros [H | H]; [discriminate | ]. specialize (Kt _ H). discriminate.
  - rewrite D. split; [discriminate | ]. intros _. split; [reflexivity | ].
    right. apply in_or_app. now right.
  - rewrite E. split; [discriminate | ].
    intros [H | H]; [discriminate | ]. specialize (Kt _ H). discriminate.
Qed.

Lemma try_catch_bind_ask {A} (q : W -> A) (f : A -> @M W unit) (h : @M W unit)
    (s : @State W) :
  try_catch_GameException (bind (ask q) f) h s
  = try_catch_GameException (f (q (world s))) h s.
Proof. unfold try_catch_GameException. now rewrite bind_ask. Qed.

Lemma try_catch_bind_ret {A} (a : A) (f : A -> @M W unit) (h : @M W unit)
    (s : @State W) :
  try_catch_GameException (bind (ret a) f) h s = try_catch_GameException (f a) h s.
Proof. unfold try_catch_GameException. now rewrite bind_ret. Qed.

Lemma try_catch_bind_modify (g : @State W -> @State W) (f : unit -> @M W unit)
    (h : @M W unit) (s : @State W) :
  try_catch_GameException (bind (modify g) f) h s = try_catch_GameException (f tt) h (g s).
Proof. unfold try_catch_GameException. now rewrite bind_modify. Qed.

(** X2.  [tick] keeps the time: afterwards the time of the last tick is the
    platform time read at its start, and the time since the last tick is the
    time elapsed, on [uint32_t], capped at 500 ms (31 ms while the tutorial
    runs), however the tick ended. *)
Theorem tick_time_since_last_tick (s : @State W) :
  let time := Platform_getTime (world s) in
  let r := tick s in
  last_tick_time (final r) = time
  /\ time_since_last_tick (final r)
     = (if Tutorial_state_is_none (world s)
        then Z.min (wrap32 (time - last_tick_time s)) 500
        else 31)
  /\ 0 <= time_since_last_tick (final r) <= 500.
Proof.
  cbv zeta. unfold tick. rewrite bind_enter. cbn [final].
  rewrite try_catch_bind_ask, !try_catch_bind_modify, try_catch_bind_ask.
  cbn [world set_last_tick_time set_time_since_last_tick].
  set (since := Z.min (wrap32 (Platform_getTime (world s) - last_tick_time s)) 500).
  assert (R : 0 <= since <= 500).
  { subst since. unfold wrap32.
    pose proof (Z.mod_pos_bound (Platform_getTime (world s) - last_tick_time s) (2 ^ 32)
                  ltac:(lia)). lia. }
  assert (E16 : wrap16 since = since).
  { unfold wrap16. apply Z.mod_small. lia. }
  rewrite E16.
  assert (K : forall (m : @M W unit),
             keeps view_tickLogic alphabet_tick m ->
             keeps (fun s0 => (time_since_last_tick s0, last_tick_time s0)) any_event
               (try_catch_GameException m tickInterrupted)).
  { intros m Km. apply keeps_try_catch_GameException.
    - keeps_via Km.
    - keeps_via (@tickInterrupted_emits W host). }
  destruct (Tutorial_state_is_none (world s)); cbn [negb when].
  - rewrite try_catch_bind_ret.
    match goal with
    | |- context [try_catch_GameException ?m tickInterrupted ?s0] =>
        destruct (K m) with (s := s0) as (Kv & _)
    end.
    { repeat first [ keeps_via (@tick_updates_emits W host)
                   | keeps_via (@launchGameFromCmdLineOptions_emits W host)
                   | keeps_step ]. }
    cbv beta in Kv. injection Kv as -> ->. cbn. auto.
  - rewrite try_catch_bind_modify.
    match goal with
    | |- context [try_catch_GameException ?m tickInterrupted ?s0] =>
        destruct (K m) with (s := s0) as (Kv & _)
    end.
    { repeat first [ keeps_via (@tick_updates_emits W host)
                   | keeps_via (@launchGameFromCmdLineOptions_emits W host)
                   | keeps_step ]. }
    cbv beta in Kv. injection Kv as -> ->. cbn.
    split; [reflexivity | split; [reflexivity | lia]].
Qed.

Lemma numUpdates_of_time_range (t : Z) : 1 <= numUpdates_of_time t <= 3.
Proof.
  unfold numUpdates_of_time, std_clamp.
  destruct (Z.ltb_spec (wrap16 (t / 31)) 1); [lia | ].
  destruct (Z.ltb_spec 3 (wrap16 (t / 31))); lia.
Qed.

(** What the speed of the game makes of at most three updates. *)
Lemma numUpdates_at_most_27 (n v localTicks : Z) (paused : bool) (speed : GameSpeed) :
  1 <= n <= 3 ->
  (Z.to_nat
     (if 4 <? numTicksBehind v localTicks then 4
      else
        let numUpdates := if paused then 0 else n in
        if negb (GameSpeed_eqb speed Normal)
        then (if negb (GameSpeed_eqb speed FastForward)
              then wrap16 (wrap16 (numUpdates * 3) * 3)
              else wrap16 (numUpdates * 3))
        else numUpdates)%Z <= 27)%nat.
Proof.
  intro R. assert (C : n = 1 \/ n = 2 \/ n = 3) by lia.
  destruct (4 <? numTicksBehind v localTicks); [cbn; lia | ].
  destruct paused, speed; destruct C as [-> | [-> | ->]]; cbn; lia.
Qed.

(** The update count [tick] settles on before the game speed applies is
    between 1 and 3. *)
Lemma numUpdates_returns (n flag : Z) :
  1 <= n <= 3 ->
  returns (fun k => 1 <= k <= 3)
    (if flag =? 1
     then bind (@call W host (poke addr_00525324 0)) (fun _ => ret 1)
     else
       bind (ask Input_state) (fun st =>
       match st with
       | st_reset | st_normal | st_dropdownActive =>
           bind (ask Input_hasFlag_viewportScrolling) (fun scrolling =>
           if scrolling
           then bind (call Input_resetFlag_viewportScrolling) (fun _ => ret 1)
           else ret n)
       | _ => ret n
       end)).
Proof. intro R. returns_auto. Qed.

Lemma numUpdates_silent (q : Event -> bool) (n flag : Z) :
  q (Ext (poke addr_00525324 0)) = false ->
  q (Ext Input_resetFlag_viewportScrolling) = false ->
  keeps (fun _ : @State W => tt) (fun e => negb (q e))
    (if flag =? 1
     then bind (@call W host (poke addr_00525324 0)) (fun _ => ret 1)
     else
       bind (ask Input_state) (fun st =>
       match st with
       | st_reset | st_normal | st_dropdownActive =>
           bind (ask Input_hasFlag_viewportScrolling) (fun scrolling =>
           if scrolling
           then bind (call Input_resetFlag_viewportScrolling) (fun _ => ret 1)
           else ret n)
       | _ => ret n
       end)).
Proof.
  intros H1 H2.
  repeat first
    [ apply keeps_call; [ intros; reflexivity | cbv beta; rewrite ?H1, ?H2; reflexivity ]
    | keeps_step ].
Qed.

Lemma tick_updates_at_most_27 :
  at_most (is_enter fn_tickLogic) 27 (@tick_updates W host).
Proof.
  unfold tick_updates.
  do 4 at_most_skip fail.
  apply (at_most_bind_returns (is_enter fn_tickLogic) (fun k => 1 <= k <= 3) 0 27).
  { apply (at_most_silent (is_enter fn_tickLogic) (fun _ : @State W => tt)
             (fun e => negb (is_enter fn_tickLogic e)));
      [ apply (numUpdates_silent (is_enter fn_tickLogic)); reflexivity | ].
    intros e He. apply negb_true_iff. exact He. }
  { apply numUpdates_returns.
    repeat match goal with |- context [if ?b then _ else _] => destruct b end;
      try lia; apply numUpdates_of_time_range. }
  intros n R.
  do 9 at_most_skip fail.
  eapply at_most_le.
  - eapply at_most_bind; [ apply tickLogic_count_at_most | intros ].
    silent_by ltac:(keeps_via (@sub_431695_emits W host)).
  - rewrite Nat.add_0_r. apply numUpdates_at_most_27. exact R.
Qed.

(** X3.  A call of [tick] enters [tickLogic] at most 27 times: three
    updates at most for the time elapsed, times nine at the fastest game
    speed; the catch-up with the server asks for four. *)
Theorem tick_at_most_27_logic_ticks (s : @State W) :
  (tickLogic_invocations (trace (tick s)) <= 27)%nat.
Proof.
  assert (A : at_most (is_enter fn_tickLogic) 27 (@tick W host)).
  { unfold tick.
    at_most_skip fail.
    apply at_most_try_catch_GameException;
      [ | silent_by ltac:(keeps_via (@tickInterrupted_emits W host)) ].
    do 12 at_most_skip fail.
    match goal with |- at_most _ _ (if ?b then _ else _) => destruct b end.
    - eapply at_most_le; [ | apply Nat.le_0_l ].
      silent_by ltac:(keeps_via (@launchGameFromCmdLineOptions_emits W host)).
    - apply tick_updates_at_most_27. }
  exact (A s).
Qed.

Lemma excludes_skip {A B} (a q : Event -> bool) (m : @M W A) (f : A -> @M W B) :
  keeps (fun _ : @State W => tt) (fun e => negb (a e || q e)) m ->
  (forall x, excludes a q (f x)) ->
  excludes a q (bind m f).
Proof.
  intros K Hf.
  apply (excludes_bind a q (fun _ : @State W => tt) (fun e => negb (a e || q e)));
    auto; intros e He; apply negb_true_iff, orb_false_iff in He; tauto.
Qed.

Lemma tick_excludes : excludes is_intro_update is_game_step (@tick W host).
Proof.
  unfold tick.
  apply excludes_skip; [ keeps_auto | intros ].
  apply (excludes_try_catch_GameException _ _ (fun _ : @State W => tt)
           alphabet_tickInterrupted);
    [ | keeps_via (@tickInterrupted_emits W host) | by_alphabet | by_alphabet ].
  repeat (apply excludes_skip; [ solve [ keeps_auto ] | intros ]).
  match goal with |- excludes _ _ (if ?b then _ else _) => destruct b end.
  - apply (excludes_right _ _ (fun _ : @State W => tt) (fun e => negb (is_game_step e))).
    + repeat first [ keeps_via (@launchGameFromCmdLineOptions_emits W host) | keeps_step ].
    + intros e He. apply negb_true_iff. exact He.
  - apply (excludes_left _ _ (fun _ : @State W => tt) alphabet_tick_updates).
    + keeps_via (@tick_updates_emits W host).
    + by_alphabet.
Qed.

(** X4.  While the intro plays the game stands still: a tick that updates
    the intro enters no logic tick, does not read the server tick and
    updates no window. *)
Theorem tick_intro_runs_no_game (s : @State W) :
  In (Ext Intro_update) (trace (tick s)) ->
  filter is_game_step (trace (tick s)) = [].
Proof.
  intro H. destruct (tick_excludes s) as [E | E]; [ | exact E].
  assert (F : In (Ext Intro_update) (filter is_intro_update (trace (tick s)))).
  { apply filter_In. split; [exact H | reflexivity]. }
  rewrite E in F. destruct F.
Qed.

Lemma sub_431695_dispatches (v : Z) :
  counts is_dispatchUpdateAll (Z.to_nat v) (@sub_431695 W host v).
Proof.
  unfold sub_431695.
  eapply counts_eq.
  - repeat first [ counts_step ltac:(apply counts_repeat_n)
                 | eapply counts_eq; [ apply counts_call | cbn; reflexivity ] ].
  - cbn. lia.
Qed.

(** X5.  A pass of the game in [tick] that completes updates the windows at
    least once and at most three times, whatever the game speed, and also
    when the game is paused. *)
Theorem tick_updates_dispatch (s : @State W) (a : unit) :
  outcome (tick_updates s) = Done a ->
  (1 <= occurrences is_dispatchUpdateAll (trace (tick_updates s)) <= 3)%nat.
Proof.
  assert (E : ends (fun _ : @State W => tt) is_dispatchUpdateAll
                (fun _ l _ => (1 <= List.length l <= 3)%nat) (@tick_updates W host)).
  { unfold tick_updates.
    do 4 (apply ends_bind; [ solve [ keeps_auto ] | intros ]).
    apply (ends_bind_returns _ _ (fun k => 1 <= k <= 3)).
    { apply (numUpdates_silent is_dispatchUpdateAll); reflexivity. }
    { apply numUpdates_returns.
      repeat match goal with |- context [if ?b then _ else _] => destruct b end;
        try lia; apply numUpdates_of_time_range. }
    intros n R.
    repeat (lazymatch goal with
            | |- ends _ _ _ (sub_431695 _) => fail
            | _ => idtac
            end;
            apply ends_bind;
            [ solve [ repeat first [ keeps_via (@tickLogic_count_emits W host)
                                   | keeps_step ] ]
            | intros ]).
    intros s0 b D.
    match goal with
    | |- context [sub_431695 ?v] =>
        pose proof (sub_431695_dispatches v s0 b D) as C
    end.
    unfold occurrences in C. rewrite C.
    match goal with |- context [if ?p then 0 else n] => destruct p end; lia. }
  intro D. exact (E s a D).
Qed.


End TickMore.

(** ** [tickLogic]: stalling, advancing, the order of a tick *)

Section TickLogicMore.

Context {W : Type} {host : Host W}.

Lemma tickLogic_refused (s : @State W) :
  Network_shouldProcessTick (wrap32 (scenarioTicks s + 1)) (world s) = false ->
  tickLogic s = mkResult [Enter fn_tickLogic] (Done tt) s.
Proof.
  intro H. unfold tickLogic. rewrite bind_enter, bind_get, bind_ask, H. reflexivity.
Qed.

(** X6.  A game that waits for the network stands still: when the network
    does not allow the next tick, [tickLogic(count)] tries [count] times,
    calls no collaborator and leaves the state as it was, whatever the
    count. *)
Theorem tickLogic_count_stalls (count : Z) (s : @State W) :
  Network_shouldProcessTick (wrap32 (scenarioTicks s + 1)) (world s) = false ->
  tickLogic_count count s
  = mkResult (Enter fn_tickLogic_count :: repeat (Enter fn_tickLogic) (Z.to_nat count))
      (Done tt) s.
Proof.
  intro H. unfold tickLogic_count. rewrite bind_enter.
  assert (R : forall n, repeat_n n tickLogic s
                        = mkResult (repeat (Enter fn_tickLogic) n) (Done tt) s).
  { induction n as [ | n IH]; cbn [repeat_n repeat]; [reflexivity | ].
    unfold bind. rewrite (tickLogic_refused s H). cbn [outcome trace final].
    rewrite IH. reflexivity. }
  rewrite R. reflexivity.
Qed.

(** An allowed tick: the counters go up by one, on [uint32_t]. *)
Lemma tickLogic_advances (s : @State W) :
  nothrow host ->
  Network_shouldProcessTick (wrap32 (scenarioTicks s + 1)) (world s) = true ->
  let r := tickLogic s in
  outcome r = Done tt
  /\ scenarioTicks (final r) = wrap32 (scenarioTicks s + 1)
  /\ scenarioTicks2 (final r) = wrap32 (scenarioTicks2 s + 1)
  /\ tickLogic_invocations (trace r) = 1%nat.
Proof.
  intros N H. cbv zeta. unfold tickLogic.
  rewrite bind_enter, bind_get, bind_ask, H. cbn [when].
  rewrite !bind_modify, bind_get. cbn [outcome trace final].
  cbn [scenarioTicks scenarioTicks2 set_scenarioTicks set_scenarioTicks2].
  match goal with
  | |- context [outcome (?m ?s0)] =>
      assert (K : keeps view_counters (fun e => negb (is_enter fn_tickLogic e)) m);
      [ | destruct (K s0) as (Kv & Kt & Kd) ]
  end.
  { repeat first [ keeps_via (@dateTick_emits W host) | keeps_step ]. }
  destruct (Kd N) as ([] & D). rewrite D.
  injection Kv as -> ->.
  unfold tickLogic_invocations. cbn [filter is_enter List.length].
  rewrite (occurrences_none (is_enter fn_tickLogic)).
  - cbn. auto.
  - eapply Forall_impl; [ | exact Kt]. intros e He. now apply negb_true_iff.
Qed.

Lemma wrap32_add_l (a b : Z) : wrap32 (wrap32 a + b) = wrap32 (a + b).
Proof. unfold wrap32. now rewrite Zplus_mod_idemp_l. Qed.

(** X7.  When every call returns and the network allows every tick,
    [tickLogic(count)] runs [count] whole ticks and moves both tick counters
    on by [count], on [uint32_t]; a count below one runs nothing. *)
Theorem tickLogic_count_advances (count : Z) (s : @State W) :
  nothrow host ->
  (forall t w, Network_shouldProcessTick t w = true) ->
  let r := tickLogic_count count s in
  outcome r = Done tt
  /\ wrap32 (scenarioTicks (final r)) = wrap32 (scenarioTicks s + Z.max 0 count)
  /\ wrap32 (scenarioTicks2 (final r)) = wrap32 (scenarioTicks2 s + Z.max 0 count)
  /\ tickLogic_invocations (trace r) = Z.to_nat count.
Proof.
  intros N H. cbv zeta. unfold tickLogic_count. rewrite bind_enter.
  cbn [outcome trace final].
  replace (Z.max 0 count) with (Z.of_nat (Z.to_nat count)) by lia.
  unfold tickLogic_invocations. cbn [filter is_enter].
  generalize (Z.to_nat count) as n. intro n. revert s.
  induction n as [ | n IH]; intro s; cbn [repeat_n].
  - cbn. rewrite !Z.add_0_r. auto.
  - unfold bind.
    destruct (tickLogic_advances s N (H _ _)) as (D & T1 & T2 & I).
    rewrite D. cbn [outcome trace final].
    destruct (IH (final (tickLogic s))) as (D' & T1' & T2' & I').
    rewrite D', T1', T2', T1, T2, !wrap32_add_l.
    rewrite filter_app, length_app, I'.
    unfold tickLogic_invocations in I. rewrite I.
    split; [reflexivity | ].
    split; [f_equal; lia | ]. split; [f_equal; lia | reflexivity].
Qed.

Lemma dateTick_steps : lists is_tick_step [Enter fn_dateTick] (@dateTick W host).
Proof.
  unfold dateTick.
  eapply lists_eq.
  - eapply lists_bind; [ apply lists_emit | intros ].
    eapply (lists_silent _ (fun _ : @State W => tt) (fun e => negb (is_tick_step e))).
    + repeat first [ keeps_via (@dateTick_newDay_emits W host) | keeps_step ].
    + intros e He. apply negb_true_iff. exact He.
  - reflexivity.
Qed.

(** X8.  The order of a tick.  An allowed tick that completes applies the
    game commands of the new tick number first, then records the PRNG and
    defragments the tiles, then passes the date boundary, and then runs the
    twelve updaters once each: tiles, waves, towns, industries, vehicles,
    stations, effects, companies, animations, vehicle noise, ambient noise,
    title. *)
Theorem tickLogic_order (s : @State W) (a : unit) :
  Network_shouldProcessTick (wrap32 (scenarioTicks s + 1)) (world s) = true ->
  outcome (tickLogic s) = Done a ->
  filter is_tick_step (trace (tickLogic s))
  = [ Ext (Network_processGameCommands (wrap32 (scenarioTicks s + 1)));
      Ext recordTickStartPrng; Ext TileManager_defragmentTilePeriodic;
      Enter fn_dateTick;
      Ext TileManager_update; Ext WaveManager_update; Ext TownManager_update;
      Ext IndustryManager_update; Ext VehicleManager_update;
      Ext StationManager_update; Ext EffectsManager_update;
      Ext CompanyManager_update; Ext AnimationManager_update;
      Ext Audio_updateVehicleNoise; Ext Audio_updateAmbientNoise;
      Ext Title_update ].
Proof.
  intro H. unfold tickLogic.
  rewrite bind_enter, bind_get, bind_ask, H. cbn [when].
  rewrite !bind_modify, bind_get. cbn [outcome trace final].
  cbn [scenarioTicks set_scenarioTicks set_scenarioTicks2].
  cbn [filter is_tick_step is_tick_updater].
  match goal with
  | |- outcome (?m ?s0) = _ -> filter _ (trace (?m ?s0)) = ?l =>
      assert (L : lists is_tick_step l m); [ | exact (L s0 a) ]
  end.
  eapply lists_eq.
  - repeat first
      [ lists_step
          ltac:(first
            [ apply dateTick_steps
            | eapply (lists_silent _ (fun _ : @State W => tt)
                        (fun e => negb (is_tick_step e)));
              [ solve [ keeps_auto ] | intros e He; apply negb_true_iff; exact He ] ])
      | eapply lists_eq; [ apply lists_call | cbn; reflexivity ] ].
  - reflexivity.
Qed.

End TickLogicMore.

(** ** The date boundary and the autosaves *)

Section DateTickMore.

Context {W : Type} {host : Host W}.

Lemma lists_when (q : Event -> bool) (l : list Event) (b : bool) (m : @M W unit) :
  lists q l m -> lists q (if b then l else []) (when b m).
Proof. destruct b; cbn [when]; [auto | intros _ s a _; reflexivity]. Qed.

(** X9.  At a day boundary that completes, the quarterly update of the
    companies runs exactly when the month changed into January, April, July
    or October, and the four yearly updaters run, in their order, exactly
    when the month and the year both changed: a new year inside an unchanged
    month is not seen. *)
Theorem dateTick_newDay_quarter_and_year (yesterday today : Date) (s : @State W)
    (a : unit) :
  outcome (dateTick_newDay yesterday today s) = Done a ->
  filter is_seasonal (trace (dateTick_newDay yesterday today s))
  = if negb (MonthId_eqb (month today) (month yesterday))
    then (if is_quarter_start (month today)
          then [Ext CompanyManager_updateQuarterly] else [])
         ++ (if negb (year today =? year yesterday)
             then [ Ext CompanyManager_updateYearly;
                    Ext ObjectManager_updateDefaultLevelCrossingType;
                    Ext ObjectManager_updateYearly2;
                    Ext TileManager_updateYearly ]
             else [])
    else [].
Proof.
  match goal with
  | |- _ -> _ = ?l =>
      assert (L : lists is_seasonal l (@dateTick_newDay W host yesterday today));
      [ | exact (L s a) ]
  end.
  unfold dateTick_newDay.
  eapply lists_eq.
  - repeat first
      [ lists_step
          ltac:(first
            [ apply lists_when
            | eapply (lists_silent _ (fun _ : @State W => tt) alphabet_autosaveCheck);
              [ keeps_via (@autosaveCheck_emits W host) | by_alphabet ] ])
      | eapply lists_eq; [ apply lists_call | cbn; reflexivity ] ].
  - cbn.
    destruct (negb (MonthId_eqb (month today) (month yesterday))),
      (is_quarter_start (month today)), (year today <=? 2029),
      (negb (year today =? year yesterday)); reflexivity.
Qed.

Lemma autosave_entered_once (s : @State W) :
  occurrences (is_enter fn_autosave) (trace (autosave s)) = 1%nat.
Proof.
  unfold autosave. rewrite bind_enter. cbn [trace].
  unfold occurrences. cbn [filter is_enter List.length]. f_equal.
  match goal with
  | |- context [trace (?m s)] =>
      assert (A : at_most (is_enter fn_autosave) 0 m); [ | specialize (A s) ]
  end.
  { silent_by fail. }
  unfold occurrences in A. lia.
Qed.

(** X10.  [autosaveCheck] counts the month and attempts an autosave exactly
    when the game is not in title mode, the frequency is positive and the
    months counted, this one included, have reached it; when it attempts
    none it does nothing but count. *)
Theorem autosaveCheck_fires (s : @State W) :
  let months := monthsSinceLastAutosave s + 1 in
  let freq := Config_autosaveFrequency (world s) in
  let fire := negb (SceneManager_isTitleMode (world s))
              && ((0 <? freq) && (freq <=? months)) in
  occurrences (is_enter fn_autosave) (trace (autosaveCheck s))
  = (if fire then 1 else 0)%nat
  /\ (fire = false ->
      autosaveCheck s
      = mkResult [Enter fn_autosaveCheck] (Done tt)
          (set_monthsSinceLastAutosave months s)).
Proof.
  cbv zeta. unfold autosaveCheck.
  rewrite bind_enter, bind_modify, bind_ask.
  cbn [world set_monthsSinceLastAutosave].
  destruct (SceneManager_isTitleMode (world s)); cbn [negb when andb].
  { split; reflexivity. }
  rewrite bind_ask, bind_get.
  cbn [world monthsSinceLastAutosave set_monthsSinceLastAutosave].
  destruct ((0 <? Config_autosaveFrequency (world s))
            && (Config_autosaveFrequency (world s) <=? monthsSinceLastAutosave s + 1));
    cbn [when].
  - split; [ | discriminate].
    cbn [trace].
    match goal with
    | |- occurrences ?q (?e :: ?t) = _ => change (occurrences q ([e] ++ t) = 1%nat)
    end.
    rewrite occurrences_app, trace_bind, occurrences_app, autosave_entered_once.
    change (occurrences (is_enter fn_autosave) [Enter fn_autosaveCheck]) with 0%nat.
    match goal with
    | |- context [match ?o with Done _ => _ | Thrown _ => _ end] => destruct o
    end; [ | reflexivity].
    match goal with
    | |- context [trace (?m ?s0)] =>
        assert (A : at_most (is_enter fn_autosave) 0 m); [ | specialize (A s0) ]
    end.
    { silent_by ltac:(first [ keeps_via (@autosaveClean_emits W host)
                            | keeps_via (@autosaveReset_emits W host) ]). }
    lia.
  - split; reflexivity.
Qed.

Lemma contains_std_exception_bind {A B} (m : @M W A) (f : A -> @M W B) :
  contains_std_exception m -> (forall a, contains_std_exception (f a)) ->
  contains_std_exception (bind m f).
Proof.
  intros Hm Hf s what. unfold bind. specialize (Hm s).
  destruct (outcome (m s)) as [a | e] eqn:E; cbn [outcome].
  - apply Hf.
  - intros [= ->]. now apply (Hm what).
Qed.

Lemma contains_std_exception_pure {A} (m : @M W A) :
  (forall s, exists a, outcome (m s) = Done a) -> contains_std_exception m.
Proof. intros H s what. destruct (H s) as (a & ->). discriminate. Qed.

Lemma contains_std_exception_try (m : @M W unit) (h : string -> @M W unit) :
  (forall what, contains_std_exception (h what)) ->
  contains_std_exception (try_catch_std_exception m h).
Proof.
  intros Hh s what. unfold try_catch_std_exception.
  destruct (outcome (m s)) as [a | [ | what']] eqn:E; cbn [outcome].
  - rewrite E. discriminate.
  - rewrite E. discriminate.
  - apply Hh.
Qed.

(** X11.  A failing autosave never takes the game down: when logging an
    error returns, no [std::exception] leaves [autosaveCheck], whatever the
    file system does while saving and while cleaning. *)
Theorem autosaveCheck_contains_std_exception :
  (forall fmt arg w, snd (run (Logging_error fmt arg) w) = None) ->
  contains_std_exception (@autosaveCheck W host).
Proof.
  intro Hl.
  assert (L : forall fmt arg, contains_std_exception (@call W host (Logging_error fmt arg))).
  { intros fmt arg s what. unfold call. cbn [outcome]. now rewrite Hl. }
  unfold autosaveCheck, autosave, autosaveClean, autosaveReset.
  repeat first
    [ apply contains_std_exception_try; intros; apply L
    | apply contains_std_exception_bind; intros
    | apply contains_std_exception_pure; intros; eexists; reflexivity
    | match goal with
      | |- contains_std_exception (when ?b _) => destruct b; cbn [when]
      end ].
Qed.

(** The loop that deletes the excess files, whatever fails: what it tried to
    remove is a prefix of the names it was given. *)
Lemma delete_excess_prefix (dir : string) (names : list string) (s : @State W) :
  let r := for_each names (fun name =>
             bind (call (Logging_info "Deleting old autosave: {}" (path_join dir name)))
                  (fun _ => call (fs_remove (path_join dir name)))) s in
  exists k, (k <= List.length names)%nat
            /\ removed_files (trace r) = map (path_join dir) (firstn k names).
Proof.
  cbv zeta. revert s. induction names as [ | name names IH]; intro s; cbn [for_each].
  - exists 0%nat. split; [apply Nat.le_refl | reflexivity].
  - rewrite bind_assoc, bind_call.
    destruct (snd (run _ (world s))).
    { exists 0%nat. split; [apply Nat.le_0_l | reflexivity]. }
    cbv zeta. rewrite bind_call.
    match goal with
    | |- context [match ?o with None => _ | Some _ => _ end] => destruct o
    end.
    { exists 1%nat. split; [cbn; lia | reflexivity]. }
    cbv zeta. cbn [trace].
    match goal with
    | |- context [for_each names ?b ?s1] => destruct (IH s1) as (k & Hk & R)
    end.
    exists (S k). split; [cbn; lia | ].
    unfold removed_files in *. cbn [flat_map app firstn map]. now rewrite R.
Qed.

(** X12.  [autosaveClean] removes the oldest first and never too many,
    whatever fails on the way: the files it tried to remove are the first
    [k] in the order of their names, for a [k] that is at most the number of
    autosaves above the amount kept; each of them is a regular file of the
    autosave directory whose name starts with [autosave_] and ends with the
    extension of saved games. *)
Theorem autosaveClean_removes_oldest_first (s : @State W) :
  let dir := Environment_getPath_autosave (world s) in
  let files := collect_autosaveFiles (fs_directory_iterator dir (world s)) in
  let excess := (List.length files - amountToKeep (Config_autosaveAmount (world s)))%nat in
  exists k, (k <= excess)%nat
            /\ removed_files (trace (autosaveClean s))
               = map (path_join dir) (firstn k (std_sort files))
            /\ forall p, In p (removed_files (trace (autosaveClean s))) ->
                 exists f, In f (fs_directory_iterator dir (world s))
                           /\ is_autosave_entry f = true
                           /\ p = path_join dir (entry_filename f).
Proof.
  cbv zeta.
  match goal with
  | |- exists k, _ /\ ?r = map ?g (firstn k (std_sort ?l)) /\ _ =>
      cut (exists k, (k <= List.length l - amountToKeep (Config_autosaveAmount (world s)))%nat
                     /\ r = map g (firstn k (std_sort l)))
  end.
  { intros (k & Hk & R). exists k. split; [exact Hk | split; [exact R | ]].
    intros p Hp. rewrite R in Hp. apply in_map_iff in Hp. destruct Hp as (name & <- & Hn).
    assert (Hs : In name (std_sort (collect_autosaveFiles
                            (fs_directory_iterator
                               (Environment_getPath_autosave (world s)) (world s))))).
    { rewrite <- (firstn_skipn k). apply in_or_app. left. exact Hn. }
    clear Hn. rename Hs into Hn.
    apply (Permutation_in _ (Permutation_sym (std_sort_perm _))) in Hn.
    unfold collect_autosaveFiles in Hn. apply in_map_iff in Hn.
    destruct Hn as (f & <- & Hf). apply filter_In in Hf. destruct Hf as (Hf & Ha).
    exists f. auto. }
  unfold autosaveClean. rewrite bind_enter. cbn [trace].
  unfold removed_files at 1. cbn [flat_map app]. fold (removed_files).
  set (dir := Environment_getPath_autosave (world s)).
  set (files := collect_autosaveFiles (fs_directory_iterator dir (world s))).
  set (keep := amountToKeep (Config_autosaveAmount (world s))).
  assert (T : forall (m : @M W unit) (h : string -> @M W unit) s0,
             (forall what s1, removed_files (trace (h what s1)) = []) ->
             removed_files (trace (try_catch_std_exception m h s0))
             = removed_files (trace (m s0))).
  { intros m h s0 Hh. unfold try_catch_std_exception.
    destruct (outcome (m s0)) as [a | [ | what]]; try reflexivity.
    cbn [trace]. unfold removed_files in *. rewrite flat_map_app, Hh.
    apply app_nil_r. }
  rewrite T by reflexivity.
  rewrite bind_ask, bind_ask. fold dir.
  destruct (fs_is_directory dir (world s)); cbn [when];
    [ | exists 0%nat; split; [apply Nat.le_0_l | reflexivity] ].
  rewrite bind_ask, bind_ask. fold dir files keep.
  destruct (Nat.ltb_spec keep (List.length files)); cbn [when];
    [ | exists 0%nat; split; [apply Nat.le_0_l | reflexivity] ].
  destruct (delete_excess_prefix dir
              (firstn (List.length files - keep) (std_sort files)) s)
    as (k & Hk & R).
  rewrite length_firstn in Hk.
  exists k. split; [lia | ].
  cbv zeta in R. rewrite R. rewrite firstn_firstn. f_equal. f_equal. lia.
Qed.

End DateTickMore.

(** ** The scheduler: the fixed step, the time of the last update *)

Section SchedulerMore.

Context {W : Type} {host : Host W}.

Lemma tick_entered_at_most_once : at_most (is_enter fn_tick) 1 (@tick W host).
Proof.
  unfold tick.
  eapply at_most_le.
  - eapply at_most_bind; [ apply at_most_emit | intros ].
    silent_by ltac:(first [ keeps_via (@tick_updates_emits W host)
                          | keeps_via (@launchGameFromCmdLineOptions_emits W host)
                          | keeps_via (@tickInterrupted_emits W host) ]).
  - cbn. lia.
Qed.

(** X13.  The fixed step never catches up: a pass of [fixedUpdate] runs at
    most one tick.  When it completes with less than a step accumulated, it
    has slept for a millisecond, run no tick, rendered nothing and left the
    accumulator alone; otherwise it has run one tick, rendered once and taken
    one step off the accumulator. *)
Theorem fixedUpdate_step (s : @State W) :
  let r := fixedUpdate s in
  (tick_invocations (trace r) <= 1)%nat
  /\ (outcome r = Done tt ->
      if PrimFloat.ltb (accumulator s) UpdateTime
      then trace r = [ Enter fn_fixedUpdate; Ext EntityTweener_reset;
                       Ext (this_thread_sleep_for_ms 1) ]
           /\ accumulator (final r) = accumulator s
      else tick_invocations (trace r) = 1%nat
           /\ occurrences is_render (trace r) = 1%nat
           /\ accumulator (final r) = PrimFloat.sub (accumulator s) UpdateTime).
Proof.
  cbv zeta. split.
  - assert (A : at_most (is_enter fn_tick) 1 (@fixedUpdate W host)).
    { unfold fixedUpdate.
      do 3 at_most_skip fail.
      match goal with |- at_most _ _ (if ?b then _ else _) => destruct b end.
      - eapply at_most_le; [ silent_by fail | apply Nat.le_0_l ].
      - eapply at_most_le.
        + eapply at_most_bind; [ apply tick_entered_at_most_once | intros ].
          silent_by fail.
        + cbn. lia. }
    specialize (A s). unfold occurrences in A. exact A.
  - unfold fixedUpdate. rewrite bind_enter, bind_call.
    destruct (snd (run EntityTweener_reset (world s))); [discriminate | ].
    cbv zeta. rewrite bind_get. cbn [outcome trace final accumulator set_world].
    destruct (PrimFloat.ltb (accumulator s) UpdateTime).
    + unfold call. cbn [outcome trace final]. intros _. split; reflexivity.
    + set (s1 := set_world _ s).
      match goal with
      | |- outcome (?m s1) = _ -> _ =>
          assert (C1 : counts (is_enter fn_tick) 1 m);
          [ | assert (C2 : counts is_render 1 m);
              [ | assert (E : ends (fun s0 : @State W => accumulator s0) (fun _ => false)
                                (fun acc _ s' =>
                                   accumulator s' = PrimFloat.sub acc UpdateTime) m) ] ]
      end.
      { eapply counts_eq.
        - repeat counts_step ltac:(apply tick_entered_once).
        - reflexivity. }
      { eapply counts_eq.
        - repeat counts_step
            ltac:(apply (counts_silent is_render view_tick alphabet_tick);
                  [ apply tick_emits | by_alphabet ]).
        - reflexivity. }
      { apply ends_bind; [ keeps_via (@tick_emits W host) | intros ].
        intros s0 x0 _. rewrite bind_modify. reflexivity. }
      intro D.
      specialize (C1 s1 tt D). specialize (C2 s1 tt D). specialize (E s1 tt D).
      cbv beta in E.
      revert C1 C2 E D.
      match goal with
      | |- _ -> _ -> _ -> outcome ?X = _ -> _ => generalize X
      end.
      intros R C1 C2 E D.
      unfold tick_invocations, occurrences in *.
      cbn [filter is_enter is_render List.length].
      repeat split; assumption.
Qed.

(** The loop of [variableUpdate] leaves the time of the last update alone. *)
Lemma variableUpdate_loop_lastUpdate (fuel : nat) (s : @State W) (r : Result unit) :
  variableUpdate_loop fuel s = Some r -> lastUpdate (final r) = lastUpdate s.
Proof.
  revert s r. induction fuel as [ | fuel IH]; intros s r; cbn [variableUpdate_loop];
    destruct (PrimFloat.ltb UpdateTime (accumulator s)); try discriminate;
    try (intros [= <-]; reflexivity).
  unfold after.
  destruct (variableUpdate_step_keeps s) as (Kv & _).
  destruct (outcome (variableUpdate_step s)) as [a | e].
  - destruct (variableUpdate_loop fuel (final (variableUpdate_step s))) as [r' | ] eqn:L;
      [ | discriminate].
    intros [= <-]. cbn [final]. rewrite (IH _ _ L). exact Kv.
  - intros [= <-]. exact Kv.
Qed.

(** X14.  A pass of [update] that ends, in either mode and however it ends,
    has set the time of the last update to the clock it read at its start:
    no time is counted twice. *)
Theorem update_records_time (fuel : nat) (s : @State W) (r : Result unit) :
  update fuel s = Some r ->
  lastUpdate (final r) = Clock_now (world s).
Proof.
  unfold update, after.
  rewrite bind_enter. cbn [outcome trace final].
  rewrite bind_ask, bind_get, !bind_modify.
  unfold ask, get. cbn [outcome trace final world lastUpdate accumulator
                         set_lastUpdate set_accumulator].
  set (s1 := set_lastUpdate _ _).
  assert (L1 : lastUpdate s1 = Clock_now (world s)) by reflexivity.
  destruct (Config_uncapFPS (world s)).
  - unfold variableUpdate, after.
    rewrite bind_enter. unfold get. cbn [outcome trace final].
    destruct (variableUpdate_loop fuel s1) as [r1 | ] eqn:L; [ | discriminate].
    pose proof (variableUpdate_loop_lastUpdate _ _ _ L) as L2.
    unfold then_.
    destruct (outcome r1) as [a | e].
    + match goal with
      | |- context [final (?m (final r1))] =>
          assert (K : keeps (fun s0 : @State W => lastUpdate s0) any_event m)
      end.
      { keeps_auto. }
      destruct (K (final r1)) as (Kv & _). cbv beta in Kv.
      intros [= <-]. cbn [final].
      transitivity (lastUpdate (final r1)); [exact Kv | congruence].
    + intros [= <-]. cbn [final]. congruence.
  - assert (K : keeps (fun s0 : @State W => lastUpdate s0) any_event (@fixedUpdate W host)).
    { unfold fixedUpdate.
      repeat first [ keeps_via (@tick_emits W host) | keeps_step ]. }
    destruct (K s1) as (Kv & _). cbv beta in Kv.
    intros [= <-]. transitivity (lastUpdate s1); [exact Kv | exact L1].
Qed.

End SchedulerMore.

(** ** Starting a game from the command line *)

Section LaunchMore.

Context {W : Type} {host : Host W}.

Lemma loadFile_loads (p : string) (s : @State W) :
  filter is_load_call (trace (loadFile p s))
  = [ Ext (if Utility_iequals (path_extension p) S5_extensionSC5
           then Scenario_loadAndStart p else S5_importSaveToGameState p) ].
Proof.
  unfold loadFile. rewrite bind_enter. cbn [trace filter is_load_call].
  destruct (Utility_iequals (path_extension p) S5_extensionSC5); reflexivity.
Qed.

(** X15.  What [launchGameFromCmdLineOptions] loads.  Joining a server
    loads no file; hosting loads the file of the command line once the
    server is open, also when no path was given; any other action loads the
    file exactly when the path is not empty.  A file is loaded as a scenario
    when its extension is that of scenarios, whatever the case of its
    letters, and as a saved game otherwise. *)
Theorem launchGameFromCmdLineOptions_loads (s : @State W) :
  let o := getCommandLineOptions (world s) in
  let loads := filter is_load_call (trace (launchGameFromCmdLineOptions s)) in
  let file :=
    Ext (if Utility_iequals (path_extension (path o)) S5_extensionSC5
         then Scenario_loadAndStart (path o)
         else S5_importSaveToGameState (path o)) in
  match action o with
  | act_join => loads = []
  | act_host =>
      loads = match snd (run Network_openServer (world s)) with
              | None => [file]
              | Some _ => []
              end
  | _ => loads = if String.eqb (path o) "" then [] else [file]
  end.
Proof.
  cbv zeta. unfold launchGameFromCmdLineOptions.
  rewrite bind_enter, bind_ask. cbn [trace filter is_load_call].
  destruct (action (getCommandLineOptions (world s))).
  1, 2, 5: destruct (String.eqb (path (getCommandLineOptions (world s))) "");
    cbn [negb when]; [ reflexivity | apply loadFile_loads ].
  - rewrite bind_call.
    destruct (snd (run Network_openServer (world s))); [reflexivity | ].
    cbv zeta. cbn [trace filter is_load_call]. apply loadFile_loads.
  - reflexivity.
Qed.

End LaunchMore.

(** ** The names of the autosaves *)

Section AutosaveNames.

Lemma string_compare_app (a b x y : string) :
  String.length a = String.length b ->
  String.compare (a ++ x) (b ++ y)
  = match String.compare a b with Eq => String.compare x y | c => c end.
Proof.
  revert b. induction a as [ | c a IH]; intros [ | d b]; cbn; try discriminate;
    [reflexivity | ].
  intros [= H]. destruct (Ascii.compare c d); auto.
Qed.

Lemma string_compare_lt_trans (a b c : string) :
  String.compare a b = Lt -> String.compare b c = Lt -> String.compare a c = Lt.
Proof.
  revert b c. induction a as [ | x a IH]; intros [ | y b] [ | z c]; cbn;
    try congruence.
  destruct (Ascii.compare x y) eqn:Exy; try congruence;
    destruct (Ascii.compare y z) eqn:Eyz; try congruence.
  - apply Ascii.compare_eq_iff in Exy, Eyz. subst.
    unfold Ascii.compare at 1. rewrite N.compare_refl. apply IH.
  - apply Ascii.compare_eq_iff in Exy. subst. now rewrite Eyz.
  - apply Ascii.compare_eq_iff in Eyz. subst. now rewrite Exy.
  - now rewrite (ascii_compare_trans x y z Lt Exy Eyz).
Qed.

Lemma substring_0_app (a x : string) (n : nat) :
  (String.length a <= n)%nat ->
  String.substring 0 n (a ++ x) = (a ++ String.substring 0 (n - String.length a) x)%string.
Proof.
  revert n. induction a as [ | c a IH]; intros n H; cbn [String.append String.length].
  - now rewrite Nat.sub_0_r.
  - destruct n as [ | n]; [cbn in H; lia | ].
    cbn [String.substring Nat.sub]. f_equal. apply IH. cbn in H. lia.
Qed.

Lemma length_substring_le (n : nat) (x : string) :
  (String.length (String.substring 0 n x) <= n)%nat.
Proof.
  revert x. induction n as [ | n IH]; intros [ | c x]; cbn; try lia.
  specialize (IH x). lia.
Qed.

Lemma all_from_spec (f : Z -> bool) (k : nat) (z n : Z) :
  all_from f k z = true -> z <= n < z + Z.of_nat k -> f n = true.
Proof.
  revert z. induction k as [ | k IH]; intros z H R; [lia | ].
  cbn [all_from] in H. apply andb_true_iff in H. destruct H as (Hz & H).
  destruct (Z.eq_dec n z) as [-> | N]; [exact Hz | ].
  apply (IH (z + 1) H). lia.
Qed.

(** The two widths of the format, for the numbers that fit them. *)
Lemma format_u_4_length (n : Z) : 0 <= n <= 9999 -> String.length (format_u 4 n) = 4%nat.
Proof.
  intro R. apply Nat.eqb_eq.
  apply (all_from_spec (fun z => Nat.eqb (String.length (format_u 4 z)) 4)
           (Z.to_nat 10000) 0); [vm_compute; reflexivity | lia].
Qed.

Lemma format_u_2_length (n : Z) : 0 <= n <= 99 -> String.length (format_u 2 n) = 2%nat.
Proof.
  intro R. apply Nat.eqb_eq.
  apply (all_from_spec (fun z => Nat.eqb (String.length (format_u 2 z)) 2)
           (Z.to_nat 100) 0); [vm_compute; reflexivity | lia].
Qed.

Lemma format_u_increasing (w : nat) (bound : nat) (n m : Z) :
  all_from (fun z => match String.compare (format_u w z) (format_u w (z + 1)) with
                     | Lt => true
                     | _ => false
                     end) bound 0 = true ->
  0 <= n < m -> m <= Z.of_nat bound ->
  String.compare (format_u w n) (format_u w m) = Lt.
Proof.
  intros B R Rm.
  assert (A : forall z, 0 <= z < Z.of_nat bound ->
              String.compare (format_u w z) (format_u w (z + 1)) = Lt).
  { intros z Hz. pose proof (all_from_spec _ _ _ z B ltac:(lia)) as H. cbv beta in H.
    destruct (String.compare _ _); try reflexivity; discriminate. }
  replace m with (n + 1 + Z.of_nat (Z.to_nat (m - n - 1))) by lia.
  assert (Hb : n + 1 + Z.of_nat (Z.to_nat (m - n - 1)) <= Z.of_nat bound) by lia.
  revert Hb. generalize (Z.to_nat (m - n - 1)) as d.
  induction d as [ | d IH]; intro Hb.
  - rewrite Z.add_0_r. apply A. lia.
  - apply (string_compare_lt_trans _ (format_u w (n + 1 + Z.of_nat d))).
    + apply IH. lia.
    + replace (n + 1 + Z.of_nat (S d)) with (n + 1 + Z.of_nat d + 1) by lia.
      apply A. lia.
Qed.

Lemma format_u_4_increasing (n m : Z) :
  0 <= n < m -> m <= 9999 -> String.compare (format_u 4 n) (format_u 4 m) = Lt.
Proof.
  intros R Rm.
  apply (format_u_increasing 4 (Z.to_nat 9999)); [vm_compute; reflexivity | lia | lia].
Qed.

Lemma format_u_2_increasing (n m : Z) :
  0 <= n < m -> m <= 99 -> String.compare (format_u 2 n) (format_u 2 m) = Lt.
Proof.
  intros R Rm.
  apply (format_u_increasing 2 (Z.to_nat 99)); [vm_compute; reflexivity | lia | lia].
Qed.

(** The name of an autosave: the stamp, and what fits of the extension. *)
Lemma autosave_filename_shape (t : tm) (ext : string) :
  tm_fits t ->
  autosave_filename t ext
  = ("autosave_" ++ format_u 4 (tm_year t + 1900) ++ "-" ++ format_u 2 (tm_mon t + 1)
       ++ "-" ++ format_u 2 (tm_mday t) ++ "_" ++ format_u 2 (tm_hour t)
       ++ "-" ++ format_u 2 (tm_min t) ++ "-" ++ format_u 2 (tm_sec t)
       ++ String.substring 0 35 ext)%string.
Proof.
  intros (Ry & Rm & Rd & Rh & Ri & Rs). unfold autosave_filename.
  pose proof (format_u_4_length _ Ry) as Ly.
  pose proof (format_u_2_length _ Rm) as Lm.
  pose proof (format_u_2_length _ Rd) as Ld.
  pose proof (format_u_2_length _ Rh) as Lh.
  pose proof (format_u_2_length _ Ri) as Li.
  pose proof (format_u_2_length _ Rs) as Ls.
  repeat (rewrite substring_0_app
            by (rewrite ?Ly, ?Lm, ?Ld, ?Lh, ?Li, ?Ls; cbn [String.length]; lia);
          rewrite ?Ly, ?Lm, ?Ld, ?Lh, ?Li, ?Ls; cbn [String.length Nat.sub]).
  reflexivity.
Qed.

Ltac compare_field :=
  rewrite string_compare_app
    by (rewrite ?format_u_4_length, ?format_u_2_length by lia; reflexivity);
  first [ rewrite format_u_4_increasing by lia; reflexivity
        | rewrite format_u_2_increasing by lia; reflexivity
        | rewrite string_compare_refl ].

(** X16.  The names of the autosaves sort by time: of two times whose
    fields fit the widths of the format (the year has at most four digits),
    the earlier gets the name that comes first, strictly, in the order
    [autosaveClean] sorts by; so the autosaves it removes first are the
    oldest.  A name is at most 63 characters long. *)
Theorem autosave_filename_chronological (t1 t2 : tm) (ext : string) :
  tm_fits t1 -> tm_fits t2 -> tm_earlier t1 t2 ->
  String.compare (autosave_filename t1 ext) (autosave_filename t2 ext) = Lt
  /\ (String.length (autosave_filename t1 ext) <= 63)%nat.
Proof.
  intros F1 F2 E. split; [ | apply length_substring_le ].
  rewrite (autosave_filename_shape t1 ext F1), (autosave_filename_shape t2 ext F2).
  destruct F1 as (Ry1 & Rm1 & Rd1 & Rh1 & Ri1 & Rs1).
  destruct F2 as (Ry2 & Rm2 & Rd2 & Rh2 & Ri2 & Rs2).
  unfold tm_earlier, tm_fields in E. cbn [lex_lt] in E.
  compare_field.
  destruct E as [E | (-> & E)]; [ compare_field | do 2 compare_field ].
  destruct E as [E | (-> & E)]; [ compare_field | do 2 compare_field ].
  destruct E as [E | (-> & E)]; [ compare_field | do 2 compare_field ].
  destruct E as [E | (-> & E)]; [ compare_field | do 2 compare_field ].
  destruct E as [E | (-> & E)]; [ compare_field | do 2 compare_field ].
  destruct E as [E | (_ & [])]. compare_field.
Qed.

End AutosaveNames.

(** ** The structure layout log *)

Section StructureLayoutLog.

Import StructureLayoutLogger.

Lemma append_nil_r (a : string) : (a ++ "")%string = a.
Proof. induction a as [ | c a IH]; cbn; [reflexivity | now rewrite IH]. Qed.

Lemma append_assoc (a b c : string) : ((a ++ b) ++ c)%string = (a ++ b ++ c)%string.
Proof. induction a as [ | x a IH]; cbn; [reflexivity | now rewrite IH]. Qed.

Lemma joined_app (xs ys : list string) :
  joined (xs ++ ys) = (joined xs ++ joined ys)%string.
Proof.
  unfold joined. induction xs as [ | x xs IH]; cbn; [reflexivity | ].
  now rewrite IH, append_assoc.
Qed.

(** A stream that is open and not in error takes everything. *)
Lemma puts_open (xs : list string) (l : Logger) :
  is_open l = true -> failbit l = false ->
  puts xs l
  = mkLogger (initialized l) true false (file l ++ joined xs) (cerr l) (writable l).
Proof.
  revert l. induction xs as [ | x xs IH]; intros [i o f c e w]; cbn; intros -> ->.
  - now rewrite append_nil_r.
  - unfold puts in IH. rewrite IH by reflexivity. cbn. now rewrite append_assoc.
Qed.

(** A stream in error takes nothing. *)
Lemma puts_failed (xs : list string) (l : Logger) : failbit l = true -> puts xs l = l.
Proof.
  revert l. induction xs as [ | x xs IH]; intros l F; cbn; [reflexivity | ].
  unfold put. rewrite F. apply IH, F.
Qed.

Lemma initialize_consistent (l : Logger) : consistent l -> consistent (initialize l).
Proof.
  destruct l as [[] [] [] c e []]; unfold consistent; cbn; intros (H1 & H2);
    try discriminate; try (specialize (H2 eq_refl); discriminate);
    split; try reflexivity; try discriminate; auto.
Qed.

Lemma puts_consistent (xs : list string) (l : Logger) :
  consistent l -> consistent (puts xs l).
Proof.
  destruct l as [i o f c e w]. unfold consistent at 1.
  cbn [initialized is_open failbit]. intros (H1 & H2). destruct o.
  - rewrite puts_open by (cbn; auto). split; cbn; auto.
  - destruct f.
    + rewrite puts_failed by reflexivity. split; cbn; [exact H1 | discriminate].
    + destruct xs as [ | x xs]; [split; cbn; [exact H1 | discriminate] | ].
      change (puts (x :: xs) (mkLogger i false false c e w))
        with (puts xs (put x (mkLogger i false false c e w))).
      change (put x (mkLogger i false false c e w)) with (mkLogger i false true c e w).
      rewrite puts_failed by reflexivity. split; cbn; [exact H1 | discriminate].
Qed.

Lemma ensure_initialized_consistent (l : Logger) :
  consistent l -> consistent (ensure_initialized l).
Proof.
  intro C. unfold ensure_initialized.
  destruct (initialized l); cbn; [exact C | now apply initialize_consistent].
Qed.

Lemma close_consistent (l : Logger) : consistent (close l).
Proof. destruct l as [i [] [] c e w]; split; cbn; (reflexivity || discriminate). Qed.

Lemma log_consistent (e : Entry) (l : Logger) : consistent l -> consistent (log e l).
Proof.
  intro C. destruct e; cbn [log];
    apply puts_consistent, ensure_initialized_consistent, C.
Qed.

(** X17.  The logger stays consistent, whatever is called in whatever
    order and whether or not the file can be opened: from its start on, the
    flag [initialized] says whether the stream is open, and a stream that is
    open is never in error, so that nothing logged to it is dropped. *)
Theorem logger_consistent (us : list Use) (w : bool) (content : string) :
  consistent (use_all us (start w content)).
Proof.
  assert (S : consistent (start w content)) by (split; [reflexivity | discriminate]).
  revert S. generalize (start w content) as l.
  induction us as [ | u us IH]; intros l C; cbn; [exact C | ].
  apply IH. destruct u; cbn [use].
  - now apply log_consistent.
  - now apply initialize_consistent.
  - apply close_consistent.
Qed.

Lemma initialize_fresh (l : Logger) :
  writable l = true -> initialized l = false -> is_open l = false ->
  initialize l = mkLogger true true false (joined header) (cerr l) true.
Proof. destruct l as [i o f c e w]; cbn. intros -> -> ->. reflexivity. Qed.

Lemma log_open (e : Entry) (l : Logger) :
  initialized l = true -> is_open l = true -> failbit l = false ->
  log e l
  = mkLogger true true false (file l ++ joined (entry_text e)) (cerr l) (writable l).
Proof.
  intros I O F.
  assert (E : ensure_initialized l = l) by (unfold ensure_initialized; now rewrite I).
  destruct e; cbn [log entry_text];
    unfold logStructure, logMember, logSeparator, logNote;
    rewrite E, puts_open by assumption; now rewrite I.
Qed.

Lemma log_all_open (es : list Entry) (l : Logger) :
  initialized l = true -> is_open l = true -> failbit l = false ->
  log_all es l
  = mkLogger true true false
      (file l ++ joined (flat_map entry_text es)) (cerr l) (writable l).
Proof.
  revert l. induction es as [ | e es IH]; intros l I O F; cbn [log_all fold_left flat_map].
  - cbn. rewrite append_nil_r. destruct l; cbn in *; congruence.
  - fold (log_all es (log e l)). rewrite (log_open e l I O F).
    rewrite IH by reflexivity. cbn. now rewrite joined_app, append_assoc.
Qed.

(** X18.  A session of the log.  On a logger that is not initialized, with
    a file that can be written, logging calls followed by [close] leave in
    the file the header, the text of each call in order and the footer, and
    nothing of what the file held before; nothing goes to [std::cerr].  The
    first call initializes the logger: calling [initialize] before, as
    [main] does, makes no difference. *)
Theorem logger_session (e : Entry) (es : list Entry) (l : Logger) :
  writable l = true -> initialized l = false -> is_open l = false ->
  let l' := close (log_all (e :: es) l) in
  file l' = (joined header ++ joined (flat_map entry_text (e :: es)) ++ footer)%string
  /\ cerr l' = cerr l
  /\ initialized l' = false /\ is_open l' = false
  /\ log_all (e :: es) (initialize l) = log_all (e :: es) l.
Proof.
  intros Wl I O. cbv zeta.
  assert (E : log e l = log e (initialize l)).
  { destruct e; cbn [log];
      unfold logStructure, logMember, logSeparator, logNote, ensure_initialized;
      rewrite I; cbn [negb]; rewrite (initialize_fresh l Wl I O); reflexivity. }
  cbn [log_all fold_left]. fold (log_all es (log e l)) (log_all es (log e (initialize l))).
  rewrite E, (initialize_fresh l Wl I O).
  rewrite log_open by reflexivity. rewrite log_all_open by reflexivity.
  cbn [file cerr writable]. unfold close. cbn.
  repeat split. now rewrite joined_app, !append_assoc.
Qed.

Lemma log_unwritable (e : Entry) (l : Logger) :
  writable l = false -> initialized l = false -> is_open l = false ->
  log e l = mkLogger false false true (file l) (cerr l ++ open_failure) false.
Proof.
  intros Wl I O.
  assert (E : ensure_initialized l
              = mkLogger false false true (file l) (cerr l ++ open_failure) false).
  { destruct l as [i o f c x w]; cbn in *; subst. reflexivity. }
  destruct e; cbn [log];
    unfold logStructure, logMember, logSeparator, logNote;
    rewrite E; apply puts_failed; reflexivity.
Qed.

(** X19.  When the file cannot be opened, nothing is logged and nothing is
    lost: logging calls leave the file as it was, also after [close]; each of
    them tries to open the file again, and each sends the failure message to
    [std::cerr]. *)
Theorem logger_unwritable (es : list Entry) (l : Logger) :
  writable l = false -> initialized l = false -> is_open l = false ->
  let l' := log_all es l in
  file l' = file l
  /\ file (close l') = file l
  /\ cerr l' = (cerr l ++ joined (repeat open_failure (List.length es)))%string
  /\ initialized l' = false.
Proof.
  intros Wl I O. cbv zeta. revert l Wl I O.
  induction es as [ | e es IH]; intros l Wl I O; cbn [log_all fold_left List.length repeat].
  - cbn. rewrite append_nil_r. unfold close. rewrite O. cbn. auto.
  - fold (log_all es (log e l)). rewrite (log_unwritable e l Wl I O).
    destruct (IH (mkLogger false false true (file l) (cerr l ++ open_failure) false)
                eq_refl eq_refl eq_refl) as (F & Fc & C & I').
    rewrite F, Fc, C, I'. cbn [file cerr joined fold_right].
    repeat split. now rewrite append_assoc.
Qed.

End StructureLayoutLog.

(** ** What [autosave] writes, [autosaveClean] finds *)

Section AutosaveRoundTrip.

Context {W : Type} {host : Host W}.

Lemma substring_0_all (x : string) (n : nat) :
  (String.length x <= n)%nat -> String.substring 0 n x = x.
Proof.
  revert n. induction x as [ | c x IH]; intros [ | n] H; cbn in *;
    try reflexivity; try lia.
  f_equal. apply IH. lia.
Qed.

(** X20.  What [autosave] writes, [autosaveClean] finds.  When the two
    string helpers recognise a prefix and a suffix, the local time fits the
    format and the extension of saved games has at most 35 characters, the
    file [autosave] exports the game to lies in the autosave directory under
    a name that [autosaveClean] takes for an autosave. *)
Theorem autosave_writes_cleanable (s : @State W) (p : string) :
  (forall a b, Utility_startsWith (a ++ b) a = true) ->
  (forall a b, Utility_endsWith (a ++ b) b true = true) ->
  tm_fits (std_localtime (world s)) ->
  (String.length S5_extensionSV5 <= 35)%nat ->
  In (Ext (S5_exportGameStateToFile p)) (trace (autosave s)) ->
  exists name,
    p = path_join (Environment_getPath_autosave (world s)) name
    /\ is_autosave_entry (mkEntry name true) = true.
Proof.
  intros Hs He Ft Le Hin.
  exists (autosave_filename (std_localtime (world s)) S5_extensionSV5). split.
  - revert Hin. unfold autosave. rewrite bind_enter, bind_ask. cbn [trace].
    unfold try_catch_std_exception.
    rewrite bind_ask, bind_call.
    destruct (snd (run (Environment_autoCreateDirectory _) (world s))) as [[ | what] | ];
      cbn [outcome trace final];
      try (intros [H | [H | [H | []]]]; discriminate);
      try (intros [H | [H | []]]; discriminate).
    cbv zeta. rewrite bind_call. cbn [world set_world].
    match goal with
    | |- context [match ?o with None => _ | Some _ => _ end] =>
        destruct o as [[ | what] | ]
    end; cbn [outcome trace final];
      try (intros [H | [H | [H | [H | []]]]]; discriminate);
      try (intros [H | [H | [H | []]]]; discriminate).
    unfold call. cbn [outcome trace final world set_world].
    match goal with
    | |- context [match ?o with None => _ | Some _ => _ end] =>
        destruct o as [[ | what] | ]
    end; cbn [outcome trace final app];
      intros [H | [H | [H | [H | H]]]]; try discriminate;
      try (injection H as <-; reflexivity);
      try (destruct H as [H | []]; discriminate); destruct H.
  - unfold is_autosave_entry. cbn [entry_is_regular_file entry_filename andb].
    rewrite (autosave_filename_shape _ _ Ft), (substring_0_all _ _ Le).
    rewrite Hs. cbn [andb].
    rewrite <- !append_assoc. apply He.
Qed.

End AutosaveRoundTrip.

(** ** A paused game *)

Section PausedProofs.

Context {W : Type} {host : Host W}.

Lemma bounded_bind_silent {A B} (I : @State W -> Prop) (q : Event -> bool) (n : nat)
    (m : @M W A) (f : A -> @M W B) :
  at_most q 0 m -> stable I m -> (forall a, bounded I q n (f a)) ->
  bounded I q n (bind m f).
Proof.
  intros Hm Hs Hf s Is. rewrite trace_bind, occurrences_app.
  specialize (Hm s). specialize (Hs s Is).
  destruct (outcome (m s)) as [a | e].
  - specialize (Hf a _ Hs). lia.
  - cbn. lia.
Qed.

Lemma bounded_get_known {A B} (I : @State W -> Prop) (q : Event -> bool) (n : nat)
    (g : @State W -> A) (f : A -> @M W B) (a : A) :
  (forall s, I s -> g s = a) -> bounded I q n (f a) ->
  bounded I q n (bind (get g) f).
Proof. intros H Hf s Is. rewrite bind_get, (H s Is). now apply Hf. Qed.

Lemma bounded_at_most {A} (I : @State W -> Prop) (q : Event -> bool) (n : nat)
    (m : @M W A) :
  at_most q n m -> bounded I q n m.
Proof. intros H s _. apply H. Qed.

Lemma bounded_try_catch_GameException (I : @State W -> Prop) (q : Event -> bool)
    (n : nat) (m h : @M W unit) :
  bounded I q n m -> at_most q 0 h -> bounded I q n (try_catch_GameException m h).
Proof.
  intros Hm Hh s Is. unfold try_catch_GameException. specialize (Hm s Is).
  destruct (outcome (m s)) as [a | [ | what]]; auto.
  cbn [trace]. rewrite occurrences_app. specialize (Hh (final (m s))). lia.
Qed.

Lemma stable_bind {A B} (I : @State W -> Prop) (m : @M W A) (f : A -> @M W B) :
  stable I m -> (forall a, stable I (f a)) -> stable I (bind m f).
Proof.
  intros Hm Hf s Is. unfold bind. specialize (Hm s Is).
  destruct (outcome (m s)) as [a | e]; cbn [final]; auto. now apply Hf.
Qed.

Lemma stable_pure {A} (I : @State W -> Prop) (m : @M W A) :
  (forall s, final (m s) = s) -> stable I m.
Proof. intros H s Is. now rewrite H. Qed.

Lemma stable_call (v t0 : Z) (c : Call) :
  frontend_keeps_scene -> before_logic c = true ->
  stable (paused_at v t0) (@call W host c).
Proof.
  intros F Hc s (P & N & V & T). destruct (F c (world s) Hc) as (Fp & Fn & Fv).
  unfold call, paused_at. cbn [final world scenarioTicks set_world]. 
  rewrite Fp, Fn, Fv. auto.
Qed.

Lemma stable_modify (v t0 : Z) (g : @State W -> @State W) :
  (forall s, world (g s) = world s /\ scenarioTicks (g s) = scenarioTicks s) ->
  stable (paused_at v t0) (modify g).
Proof.
  intros H s (P & N & V & T). destruct (H s) as (Hw & Ht).
  unfold paused_at, modify. cbn [final]. rewrite Hw, Ht. auto.
Qed.

Ltac stable_auto F :=
  repeat first
    [ apply stable_bind; intros
    | apply (stable_call _ _ _ F); reflexivity
    | apply stable_modify; intros; split; reflexivity
    | apply stable_pure; intros; reflexivity
    | match goal with
      | |- stable _ (when ?b _) => destruct b; cbn [when]
      | |- stable _ (if ?b then _ else _) => destruct b
      | |- stable _ (match ?x with _ => _ end) => destruct x
      end ].

Ltac bounded_skip F :=
  idtac;
  lazymatch goal with
  | |- bounded _ _ _ (bind _ _) =>
      apply bounded_bind_silent; [ silent_by fail | stable_auto F | intros ]
  end.

Lemma tick_updates_paused (v t0 : Z) :
  frontend_keeps_scene ->
  bounded (paused_at v t0) (is_enter fn_tickLogic)
    (if 4 <? numTicksBehind v t0 then 4 else 0) (@tick_updates W host).
Proof.
  intro F. unfold tick_updates.
  do 7 bounded_skip F.
  (* SceneManager::isPaused() *)
  apply (bounded_get_known _ _ _ _ _ true); [ intros s (P & _); exact P | ].
  do 3 bounded_skip F.
  (* Network::getServerTick() *)
  apply (bounded_get_known _ _ _ _ _ v); [ intros s (_ & _ & V & _); exact V | ].
  bounded_skip F.
  (* ScenarioManager::getScenarioTicks() *)
  apply (bounded_get_known _ _ _ _ _ t0); [ intros s (_ & _ & _ & T); exact T | ].
  intros s _.
  match goal with
  | |- (occurrences _ (trace (?m s)) <= _)%nat =>
      assert (A : at_most (is_enter fn_tickLogic)
                    (Z.to_nat (if 4 <? numTicksBehind v t0 then 4 else 0)) m)
  end.
  { eapply at_most_le.
    - eapply at_most_bind.
      + match goal with
        | |- at_most _ _ (tickLogic_count ?n) =>
            replace n with (if 4 <? numTicksBehind v t0 then 4 else 0);
              [ apply tickLogic_count_at_most | ]
        end.
        destruct (4 <? numTicksBehind v t0); [reflexivity | ].
        match goal with |- context [GameSpeed_eqb ?x Normal] => destruct x end;
          reflexivity.
      + intros. silent_by ltac:(keeps_via (@sub_431695_emits W host)).
    - lia. }
  specialize (A s). destruct (4 <? numTicksBehind v t0); cbn in A |- *; lia.
Qed.

(** X21.  A paused game stands still, but for the catch-up.  When the calls
    [tick] makes before the logic leave the pause, the intro and the server
    tick alone, a tick of a paused game past the intro enters no logic tick,
    unless the server is more than four ticks ahead: then it enters four at
    most, paused or not. *)
Theorem tick_paused (s : @State W) :
  frontend_keeps_scene ->
  SceneManager_isPaused (world s) = true ->
  Intro_isActive (world s) = false ->
  (tickLogic_invocations (trace (tick s))
   <= if (4 <? numTicksBehind (Network_getServerTick (world s)) (scenarioTicks s))%Z
      then 4 else 0)%nat.
Proof.
  intros F P N.
  set (v := Network_getServerTick (world s)). set (t0 := scenarioTicks s).
  assert (B : bounded (paused_at v t0) (is_enter fn_tickLogic)
                (if 4 <? numTicksBehind v t0 then 4 else 0) (@tick W host)).
  { unfold tick.
    bounded_skip F.
    apply bounded_try_catch_GameException;
      [ | silent_by ltac:(keeps_via (@tickInterrupted_emits W host)) ].
    do 11 bounded_skip F.
    apply (bounded_get_known _ _ _ _ _ false); [ intros s0 (_ & N0 & _); exact N0 | ].
    apply (tick_updates_paused v t0 F). }
  apply (B s). repeat split; assumption.
Qed.

End PausedProofs.

(** ** The two tick counters *)

Ltac drift_via H :=
  idtac;
  eapply keeps_weaken;
  [ apply H
  | intros ? ? E; unfold counter_drift;
    cbv [view_all view_plain view_tickLogic view_tick view_counters] in E;
    congruence
  | intros ? _; reflexivity ].

Section CounterDrift.

Context {W : Type} {host : Host W}.

Lemma keeps_modify_modify {X B} (view : @State W -> X) (p : Event -> bool)
    (g1 g2 : @State W -> @State W) (k : unit -> @M W B) :
  (forall s, view (g2 (g1 s)) = view s) -> keeps view p (k tt) ->
  keeps view p (bind (modify g1) (fun _ => bind (modify g2) k)).
Proof.
  intros H K s. rewrite !bind_modify.
  destruct (K (g2 (g1 s))) as (Kv & Kt & Kd).
  repeat split; [ rewrite Kv; apply H | exact Kt | exact Kd ].
Qed.

Lemma wrap32_sub_succ (a b : Z) : wrap32 (wrap32 (b + 1) - wrap32 (a + 1)) = wrap32 (b - a).
Proof. unfold wrap32. rewrite <- Zminus_mod. f_equal. lia. Qed.

Lemma tickLogic_drift : keeps counter_drift any_event (@tickLogic W host).
Proof.
  unfold tickLogic.
  do 3 (apply keeps_bind; [ keeps_step | intros ]).
  apply keeps_when.
  apply keeps_modify_modify.
  - intro s. unfold counter_drift. cbn. apply wrap32_sub_succ.
  - repeat first [ drift_via (@dateTick_emits W host) | keeps_step ].
Qed.

Lemma tickLogic_count_drift (n : Z) :
  keeps counter_drift any_event (@tickLogic_count W host n).
Proof.
  unfold tickLogic_count.
  repeat first [ apply tickLogic_drift | keeps_step ].
Qed.

(** X22.  The two tick counters stay in step: whatever a tick does and
    however it ends, by an exception or by an interruption, the second
    counter is as far ahead of the first afterwards as it was before, on
    [uint32_t]; so it is after [tickLogic(count)], for every count. *)
Theorem tick_counters_in_step (s : @State W) :
  counter_drift (final (tick s)) = counter_drift s
  /\ forall count, counter_drift (final (tickLogic_count count s)) = counter_drift s.
Proof.
  split.
  - assert (K : keeps counter_drift any_event (@tick W host)).
    { unfold tick.
      repeat first
        [ apply tickLogic_count_drift
        | drift_via (@sub_431695_emits W host)
        | drift_via (@launchGameFromCmdLineOptions_emits W host)
        | drift_via (@tickInterrupted_emits W host)
        | lazymatch goal with
          | |- keeps _ _ tick_updates => unfold tick_updates
          end
        | keeps_step ]. }
    apply K.
  - intro count. apply (tickLogic_count_drift count).
Qed.

End CounterDrift.

(** ** What a run keeps *)

Section StableRules.

Context {W : Type} {host : Host W}.

Variable I : @State W -> Prop.

Lemma stable_when (b : bool) (m : @M W unit) : stable I m -> stable I (when b m).
Proof. destruct b; cbn [when]; [auto | intros _ s Is; exact Is]. Qed.

Lemma stable_try_catch_GameException (m h : @M W unit) :
  stable I m -> stable I h -> stable I (try_catch_GameException m h).
Proof.
  intros Hm Hh s Is. unfold try_catch_GameException. specialize (Hm s Is).
  destruct (outcome (m s)) as [a | [ | what]]; cbn [final]; auto.
Qed.

Lemma stable_try_catch_std_exception (m : @M W unit) (h : string -> @M W unit) :
  stable I m -> (forall what, stable I (h what)) ->
  stable I (try_catch_std_exception m h).
Proof.
  intros Hm Hh s Is. unfold try_catch_std_exception. specialize (Hm s Is).
  destruct (outcome (m s)) as [a | [ | what]]; cbn [final]; auto. now apply Hh.
Qed.

Lemma stable_repeat_n (n : nat) (body : @M W unit) :
  stable I body -> stable I (repeat_n n body).
Proof.
  intro Hb. induction n as [ | n IH]; cbn [repeat_n].
  - intros s Is; exact Is.
  - apply stable_bind; auto.
Qed.

Lemma stable_for_each {A} (l : list A) (body : A -> @M W unit) :
  (forall x, stable I (body x)) -> stable I (for_each l body).
Proof.
  intro Hb. induction l as [ | x l IH]; cbn [for_each].
  - intros s Is; exact Is.
  - apply stable_bind; auto.
Qed.

Lemma stable_set (g : @State W -> @State W) :
  (forall s, I s -> I (g s)) -> stable I (modify g).
Proof. intros H s Is. now apply H. Qed.

Lemma stable_run (c : Call) :
  (forall s, I s -> I (set_world (fst (run c (world s))) s)) -> stable I (@call W host c).
Proof. intros H s Is. now apply H. Qed.

End StableRules.

(** Walks a computation of the unit; [leaf] closes the calls and the
    assignments on the way. *)
Ltac stable_walk leaf :=
  repeat first
    [ apply stable_pure; intros; reflexivity
    | leaf
    | apply stable_bind; intros
    | apply stable_when
    | apply stable_try_catch_GameException
    | apply stable_try_catch_std_exception; intros
    | apply stable_repeat_n
    | apply stable_for_each; intros
    | match goal with
      | |- stable _ (if ?b then _ else _) => destruct b
      | |- stable _ (match ?x with _ => _ end) => destruct x
      end ].

(** ** The load error code of a run *)

Section LoadErrorCode.

Context {W : Type} {host : Host W}.

Ltac clear_leaf :=
  first
    [ apply stable_run; intros ? H; exact H
    | apply stable_set; intros ? H; first [ exact H | reflexivity ] ].

Lemma autosaveReset_clear : stable no_load_error (@autosaveReset W).
Proof. unfold autosaveReset. stable_walk clear_leaf. Qed.

Lemma loadFile_clear (p : string) : stable no_load_error (@loadFile W host p).
Proof. unfold loadFile. stable_walk clear_leaf. Qed.

Lemma sub_431695_clear (v : Z) : stable no_load_error (@sub_431695 W host v).
Proof. unfold sub_431695. stable_walk clear_leaf. Qed.

Lemma dateTick_clear : stable no_load_error (@dateTick W host).
Proof.
  unfold dateTick, dateTick_newDay, autosaveCheck, autosave, autosaveClean, autosaveReset.
  stable_walk clear_leaf.
Qed.

Lemma tickLogic_clear : stable no_load_error (@tickLogic W host).
Proof.
  unfold tickLogic.
  stable_walk ltac:(first [ apply dateTick_clear | clear_leaf ]).
Qed.

Lemma tickLogic_count_clear (count : Z) : stable no_load_error (@tickLogic_count W host count).
Proof.
  unfold tickLogic_count.
  stable_walk ltac:(first [ apply tickLogic_clear | clear_leaf ]).
Qed.

Lemma tick_clear : stable no_load_error (@tick W host).
Proof.
  unfold tick, tick_updates, tickInterrupted, launchGameFromCmdLineOptions.
  stable_walk ltac:(first [ apply tickLogic_count_clear | apply sub_431695_clear
                          | apply loadFile_clear | clear_leaf ]).
Qed.

Lemma variableUpdate_step_clear : stable no_load_error (@variableUpdate_step W host).
Proof.
  unfold variableUpdate_step.
  stable_walk ltac:(first [ apply tick_clear | clear_leaf ]).
Qed.

Lemma fixedUpdate_clear : stable no_load_error (@fixedUpdate W host).
Proof.
  unfold fixedUpdate.
  stable_walk ltac:(first [ apply tick_clear | clear_leaf ]).
Qed.

Lemma variableUpdate_loop_clear (fuel : nat) (s : @State W) (r : Result unit) :
  loadErrorCode s = 0 -> variableUpdate_loop fuel s = Some r ->
  loadErrorCode (final r) = 0.
Proof.
  revert s r.
  induction fuel as [ | fuel IH]; intros s r Is; cbn [variableUpdate_loop];
    destruct (PrimFloat.ltb UpdateTime (accumulator s)); try discriminate;
    try (intros [= <-]; exact Is).
  unfold after. pose proof (variableUpdate_step_clear s Is) as I1.
  destruct (outcome (variableUpdate_step s)) as [[] | e].
  - destruct (variableUpdate_loop fuel (final (variableUpdate_step s))) as [r' | ] eqn:L;
      [ | discriminate].
    intros [= <-]. cbn [final]. exact (IH _ _ I1 L).
  - intros [= <-]. exact I1.
Qed.

Lemma variableUpdate_clear (fuel : nat) (s : @State W) (r : Result unit) :
  loadErrorCode s = 0 -> variableUpdate fuel s = Some r ->
  loadErrorCode (final r) = 0.
Proof.
  intro Is. unfold variableUpdate, after. rewrite bind_enter.
  cbn [get outcome final trace].
  destruct (variableUpdate_loop fuel s) as [r0 | ] eqn:L; cbn [then_]; [ | discriminate].
  pose proof (variableUpdate_loop_clear fuel s r0 Is L) as I0.
  intros [= <-].
  destruct (outcome r0) as [[] | e]; cbn [final]; [ | exact I0].
  assert (S : stable no_load_error (bind (@call W host (EntityTweener_tween
                 (std_min_float (PrimFloat.div (accumulator s) UpdateTime) 1%float)))
                 (fun _ => call Ui_render))).
  { stable_walk clear_leaf. }
  exact (S _ I0).
Qed.

Lemma update_clear (fuel : nat) (s : @State W) (r : Result unit) :
  loadErrorCode s = 0 -> update fuel s = Some r -> loadErrorCode (final r) = 0.
Proof.
  intro Is. unfold update, after.
  match goal with
  | |- match outcome (?m s) with _ => _ end = _ -> _ =>
      assert (S : stable no_load_error m) by stable_walk clear_leaf;
      pose proof (S s Is) as I1; destruct (outcome (m s)) as [uncap | e];
      generalize dependent (final (m s)); clear S
  end.
  - intros s1 I1. destruct uncap.
    + destruct (variableUpdate fuel s1) as [r' | ] eqn:V; [ | discriminate].
      intros [= <-]. cbn [final]. exact (variableUpdate_clear fuel s1 r' I1 V).
    + intros [= <-]. cbn [final]. exact (fixedUpdate_clear s1 I1).
  - intros s1 I1 [= <-]. exact I1.
Qed.

(** Every state of a run has the load error code 0: it starts at 0 (line
    480), and its one assignment gives it 0 (line 526). *)
Lemma reachable_loadErrorCode (s : @State W) : reachable s -> loadErrorCode s = 0.
Proof.
  induction 1 as [s (_ & _ & _ & _ & C & _) | w s _ IH | t s _ IH | t s _ IH
                 | s _ IH | s _ IH | s _ IH | p s _ IH | n s _ IH | v s _ IH
                 | fuel s r _ IH U].
  - exact C.
  - exact IH.
  - exact IH.
  - exact IH.
  - exact IH.
  - exact IH.
  - exact (autosaveReset_clear s IH).
  - exact (loadFile_clear p s IH).
  - exact (tickLogic_count_clear n s IH).
  - exact (sub_431695_clear v s IH).
  - exact (update_clear fuel s r IH U).
Qed.

(** With the load error code 0, a tick opens no window for a load error,
    however it ends. *)
Lemma tickLogic_clear_silent (s : @State W) :
  loadErrorCode s = 0 ->
  filter is_load_error_window (trace (tickLogic s)) = [].
Proof.
  intro Is.
  assert (B : bounded no_load_error is_load_error_window 0 (@tickLogic W host)).
  { unfold tickLogic.
    repeat
      lazymatch goal with
      | |- bounded _ _ _ (bind (get loadErrorCode) _) => fail
      | |- bounded _ _ _ (bind _ _) =>
          apply bounded_bind_silent;
          [ silent_by ltac:(keeps_via (@dateTick_emits W host))
          | stable_walk ltac:(first [ apply dateTick_clear | clear_leaf ])
          | intros ]
      | |- bounded _ _ _ (when ?b _) =>
          destruct b; cbn [when]; [ | apply bounded_at_most; intro; cbn; lia ]
      end.
    apply (bounded_get_known _ _ _ _ _ 0); [ intros ? H; exact H | ].
    apply bounded_at_most. intro. cbn. lia. }
  specialize (B s Is). unfold occurrences in B.
  destruct (filter is_load_error_window (trace (tickLogic s))); [reflexivity | ].
  cbn in B. lia.
Qed.

End LoadErrorCode.

(** ** C7: the load error at the end of a tick, in a run *)

Section LoadErrorRun.

Context {W : Type} {host : Host W}.


End LoadErrorRun.

(** ** Triples *)

Section Triples.

Context {W : Type} {host : Host W}.

Variable q : Event -> bool.
Hypothesis N : nothrow host.

Local Abbreviation quiet m := (keeps (fun _ : @State W => tt) (fun e => negb (q e)) m).

Lemma quiet_runs {A} (m : @M W A) (s : @State W) :
  quiet m -> (exists a, outcome (m s) = Done a) /\ occurrences q (trace (m s)) = 0%nat.
Proof.
  intro K. destruct (K s) as (_ & _ & D). split; [exact (D N) | ].
  assert (L : at_most q 0 m).
  { eapply at_most_silent; [exact K | ].
    intros e He. apply negb_true_iff. exact He. }
  specialize (L s). lia.
Qed.

Lemma triple_skip {A B} (P Q : @State W -> Prop) (n : nat) (m : @M W A) (f : A -> @M W B) :
  quiet m -> stable P m -> (forall a, triple P q n Q (f a)) ->
  triple P q n Q (bind m f).
Proof.
  intros K S Hf s Ps. destruct (quiet_runs m s K) as ((a & Da) & C).
  destruct (Hf a _ (S s Ps)) as ((b & Db) & C' & Qs).
  rewrite trace_bind. unfold bind. rewrite Da in *. cbn [outcome final].
  rewrite occurrences_app, C, C'. eauto.
Qed.

Lemma triple_frame {A} (P : @State W -> Prop) (m : @M W A) :
  quiet m -> stable P m -> triple P q 0 P m.
Proof.
  intros K S s Ps. destruct (quiet_runs m s K) as (D & C).
  split; [exact D | split; [exact C | exact (S s Ps)] ].
Qed.

Lemma triple_known {A B} (P Q : @State W -> Prop) (n : nat) (g : @State W -> A)
    (f : A -> @M W B) (a : A) :
  (forall s, P s -> g s = a) -> triple P q n Q (f a) -> triple P q n Q (bind (get g) f).
Proof. intros H Hf s Ps. rewrite bind_get, (H s Ps). now apply Hf. Qed.

Lemma triple_any {A B} (P Q : @State W -> Prop) (n : nat) (g : @State W -> A)
    (f : A -> @M W B) :
  (forall a, triple P q n Q (f a)) -> triple P q n Q (bind (get g) f).
Proof. intros Hf s Ps. rewrite bind_get. now apply Hf. Qed.

Lemma triple_yield {A B} (P Q : @State W -> Prop) (R : A -> Prop) (n : nat)
    (m : @M W A) (f : A -> @M W B) :
  quiet m -> stable P m -> yields P R m ->
  (forall a, R a -> triple P q n Q (f a)) ->
  triple P q n Q (bind m f).
Proof.
  intros K S Y Hf s Ps. destruct (quiet_runs m s K) as ((a & Da) & C).
  destruct (Hf a (Y s a Ps Da) _ (S s Ps)) as ((b & Db) & C' & Qs).
  rewrite trace_bind. unfold bind. rewrite Da in *. cbn [outcome final].
  rewrite occurrences_app, C, C'. eauto.
Qed.

Lemma triple_set {B} (P R Q : @State W -> Prop) (n : nat) (g : @State W -> @State W)
    (f : unit -> @M W B) :
  (forall s, P s -> R (g s)) -> triple R q n Q (f tt) ->
  triple P q n Q (bind (modify g) f).
Proof. intros H Hf s Ps. rewrite bind_modify. apply Hf. now apply H. Qed.

Lemma triple_run {B} (P R Q : @State W -> Prop) (n : nat) (c : Call)
    (f : unit -> @M W B) :
  q (Ext c) = false ->
  (forall s, P s -> R (set_world (fst (run c (world s))) s)) ->
  triple R q n Q (f tt) ->
  triple P q n Q (bind (call c) f).
Proof.
  intros E H Hf s Ps. rewrite trace_bind. unfold bind, call.
  rewrite (N c (world s)). cbn [outcome final trace].
  destruct (Hf _ (H s Ps)) as (D & C & Qs).
  unfold occurrences in *. cbn [app filter]. rewrite E. auto.
Qed.

Lemma triple_enter {B} (P Q : @State W -> Prop) (n : nat) (e : Event)
    (f : unit -> @M W B) :
  q e = true -> triple P q n Q (f tt) -> triple P q (S n) Q (bind (emit e) f).
Proof.
  intros E Hf s Ps. rewrite bind_emit. cbn [outcome final trace].
  destruct (Hf _ Ps) as (D & C & Qs).
  unfold occurrences in *. cbn [app filter]. rewrite E.
  split; [exact D | split; [cbn; now rewrite C | exact Qs] ].
Qed.

Lemma triple_seq {A B} (P R Q : @State W -> Prop) (n1 n2 : nat) (m : @M W A)
    (f : A -> @M W B) :
  triple P q n1 R m -> (forall a, triple R q n2 Q (f a)) ->
  triple P q (n1 + n2) Q (bind m f).
Proof.
  intros Hm Hf s Ps. destruct (Hm s Ps) as ((a & Da) & C & Rs).
  destruct (Hf a _ Rs) as ((b & Db) & C' & Qs).
  rewrite trace_bind. unfold bind. rewrite Da in *. cbn [outcome final].
  rewrite occurrences_app, C, C'. eauto.
Qed.

Lemma triple_ret {A B} (P Q : @State W -> Prop) (n : nat) (a : A) (f : A -> @M W B) :
  triple P q n Q (f a) -> triple P q n Q (bind (ret a) f).
Proof. intros Hf s Ps. rewrite bind_ret. now apply Hf. Qed.

Lemma triple_try (P Q : @State W -> Prop) (n : nat) (m h : @M W unit) :
  triple P q n Q m -> triple P q n Q (try_catch_GameException m h).
Proof.
  intros Hm s Ps. destruct (Hm s Ps) as ((a & Da) & C & Qs).
  unfold try_catch_GameException. rewrite Da. eauto.
Qed.

Lemma triple_conseq {A} (P P' Q Q' : @State W -> Prop) (n n' : nat) (m : @M W A) :
  (forall s, P s -> P' s) -> (forall s, Q' s -> Q s) -> n' = n ->
  triple P' q n' Q' m -> triple P q n Q m.
Proof.
  intros HP HQ <- Hm s Ps. destruct (Hm s (HP s Ps)) as (D & C & Qs).
  auto.
Qed.

End Triples.

(** ** A plain game *)

Section PlainGame.

Context {W : Type} {host : Host W}.

Hypothesis H : @plain_host W host.

Lemma plain_at_run (T v t since last : Z) (c : Call) :
  is_commands c = false -> stable (plain_at T v t since last) (@call W host c).
Proof.
  intros Hc s (Sc & Ti & Sv & Tk & Si & La).
  pose proof H as (_ & H1 & H2 & _ & H4 & _).
  unfold call, plain_at. cbn [final world scenarioTicks time_since_last_tick
                                last_tick_time set_world].
  rewrite H2, (H4 c _ Hc). auto 10.
Qed.

Lemma plain_at_set (T v t since last : Z) (g : @State W -> @State W) :
  (forall s, world (g s) = world s /\ scenarioTicks (g s) = scenarioTicks s
             /\ time_since_last_tick (g s) = time_since_last_tick s
             /\ last_tick_time (g s) = last_tick_time s) ->
  stable (plain_at T v t since last) (modify g).
Proof.
  intros Hg s Ps. destruct (Hg s) as (Hw & Ht & Hs & Hl).
  unfold plain_at, modify in *. cbn [final]. rewrite Hw, Ht, Hs, Hl. exact Ps.
Qed.

Ltac plain_leaf :=
  first
    [ apply plain_at_run; reflexivity
    | apply plain_at_set; intros; repeat split; reflexivity ].

Lemma dateTick_plain (T v t since last : Z) :
  stable (plain_at T v t since last) (@dateTick W host).
Proof.
  unfold dateTick, dateTick_newDay, autosaveCheck, autosave, autosaveClean, autosaveReset.
  stable_walk plain_leaf.
Qed.

Lemma sub_431695_plain (T v t since last : Z) (n : Z) :
  stable (plain_at T v t since last) (@sub_431695 W host n).
Proof. unfold sub_431695. stable_walk plain_leaf. Qed.

(** A tick of the logic of a plain game: the scenario tick and the server
    tick go up by one. *)
Lemma tickLogic_plain (T t since last : Z) :
  triple (plain_at T t t since last) (is_enter fn_tickLogic) 1
    (plain_at T (wrap32 (t + 1)) (wrap32 (t + 1)) since last) (@tickLogic W host).
Proof.
  pose proof H as (_ & H1 & H2 & H3 & H4 & H5).
  unfold tickLogic.
  apply triple_enter; [reflexivity | ].
  apply (triple_known _ _ _ _ _ _ t); [ intros s Ps; apply Ps | ].
  apply (triple_known _ _ _ _ _ _ true);
    [ intros s Ps; apply H3; apply Ps | ].
  cbn [when].
  apply (triple_set _ _ (plain_at T t (wrap32 (t + 1)) since last)).
  { intros s (Sc & Ti & Sv & Tk & Si & La). unfold plain_at. cbn.
    rewrite Tk. auto 10. }
  apply (triple_set _ _ (plain_at T t (wrap32 (t + 1)) since last)).
  { intros s Ps. exact Ps. }
  apply (triple_known _ _ _ _ _ _ (wrap32 (t + 1))); [ intros s Ps; apply Ps | ].
  apply (triple_run _ (proj1 H) _ (plain_at T (wrap32 (t + 1)) (wrap32 (t + 1)) since last));
    [ reflexivity | | ].
  { intros s (Sc & Ti & Sv & Tk & Si & La). unfold plain_at. cbn.
    rewrite H2, (H5 _ _ Sc). auto 10. }
  apply triple_frame; [ exact (proj1 H) | | ].
  - repeat first [ keeps_via (@dateTick_emits W host) | keeps_step ].
  - stable_walk ltac:(first [ apply dateTick_plain | plain_leaf ]).
Qed.

Lemma repeat_tickLogic_plain (T since last : Z) (k : nat) (t : Z) :
  triple (plain_at T t t since last) (is_enter fn_tickLogic) k
    (plain_at T (advance k t) (advance k t) since last)
    (repeat_n k (@tickLogic W host)).
Proof.
  revert t. induction k as [ | k IH]; intro t; cbn [repeat_n].
  - intros s Ps. split; [eexists; reflexivity | split; [reflexivity | exact Ps] ].
  - unfold advance. rewrite Nat.iter_succ_r. fold (advance k (wrap32 (t + 1))).
    eapply triple_seq with (n1 := 1%nat) (n2 := k);
      [ apply tickLogic_plain | intros _; apply IH ].
Qed.

Lemma numTicksBehind_same (t : Z) : numTicksBehind t t = 0.
Proof. unfold numTicksBehind. now rewrite Z.sub_diag. Qed.

(** The updates of a plain game: as many ticks of the logic as the time
    since the last tick gives. *)
Lemma tick_updates_plain (T t since last : Z) :
  let k := Z.to_nat (numUpdates_of_time since) in
  triple (plain_at T t t since last) (is_enter fn_tickLogic) k
    (plain_at T (advance k t) (advance k t) since last) (@tick_updates W host).
Proof.
  intro k. unfold tick_updates.
  apply (triple_known _ _ _ _ _ _ since); [ intros s Ps; apply Ps | ].
  apply (triple_known _ _ _ _ _ _ false); [ intros s Ps; apply Ps | ].
  apply (triple_known _ _ _ _ _ _ false); [ intros s Ps; apply Ps | ].
  cbv iota.
  apply (triple_yield _ (proj1 H) _ _ (fun flag => (flag =? 1) = false));
    [ keeps_auto | stable_walk plain_leaf
    | intros s a Ps [= <-]; apply Ps | intros flag -> ].
  apply (triple_yield _ (proj1 H) _ _ (fun a => a = numUpdates_of_time since)).
  { keeps_auto. }
  { stable_walk plain_leaf. }
  { intros s a (Sc & _). destruct Sc as (_ & _ & _ & _ & _ & Scr & _).
    rewrite bind_ask.
    destruct (Input_state (world s)); try (intros [= <-]; reflexivity);
      rewrite bind_ask, Scr; intros [= <-]; reflexivity. }
  intros a ->.
  apply triple_any; intro frame.
  apply triple_skip; [ exact (proj1 H) | keeps_auto | stable_walk plain_leaf | intros _ ].
  apply (triple_known _ _ _ _ _ _ false); [ intros s Ps; apply Ps | ].
  apply triple_any; intro age.
  apply triple_skip; [ exact (proj1 H) | keeps_auto | stable_walk plain_leaf | intros _ ].
  apply (triple_known _ _ _ _ _ _ Normal); [ intros s Ps; apply Ps | ].
  cbn [GameSpeed_eqb negb].
  apply (triple_known _ _ _ _ _ _ t); [ intros s Ps; apply Ps | ].
  apply triple_skip; [ exact (proj1 H) | keeps_auto | stable_walk plain_leaf | intros _ ].
  apply (triple_known _ _ _ _ _ _ t); [ intros s Ps; apply Ps | ].
  rewrite numTicksBehind_same. cbn [Z.ltb Z.compare].
  apply (triple_conseq _ _ (plain_at T t t since last) _
           (plain_at T (advance k t) (advance k t) since last) _ (k + 0));
    [ auto | auto | lia | ].
  apply triple_seq with (R := plain_at T (advance k t) (advance k t) since last).
  - unfold tickLogic_count.
    apply triple_skip; [ exact (proj1 H) | keeps_auto | stable_walk plain_leaf | intros _ ].
    apply repeat_tickLogic_plain.
  - intros _. apply triple_frame; [ exact (proj1 H) | | ].
    + repeat first [ keeps_via (@sub_431695_emits W host) | keeps_step ].
    + stable_walk ltac:(first [ apply sub_431695_plain | plain_leaf ]).
Qed.

(** A call of [tick] in a plain game: the time since the last tick gives
    the number of ticks of the logic, and the tick is at the time now. *)
Lemma tick_plain (T t since last : Z) :
  let since' := wrap16 (Z.min (wrap32 (T - last)) 500) in
  let k := Z.to_nat (numUpdates_of_time since') in
  triple (plain_at T t t since last) (is_enter fn_tickLogic) k
    (plain_at T (advance k t) (advance k t) since' T) (@tick W host).
Proof.
  intros since' k. unfold tick.
  apply triple_skip; [ exact (proj1 H) | keeps_auto | stable_walk plain_leaf | intros _ ].
  apply triple_try.
  apply (triple_known _ _ _ _ _ _ T); [ intros s Ps; apply Ps | ].
  apply (triple_set _ _ (plain_at T t t since' last)).
  { intros s (Sc & Ti & Sv & Tk & Si & La). unfold plain_at. cbn.
    rewrite La. auto 10. }
  apply (triple_set _ _ (plain_at T t t since' T)).
  { intros s (Sc & Ti & Sv & Tk & Si & La). unfold plain_at. cbn. auto 10. }
  apply (triple_known _ _ _ _ _ _ true); [ intros s Ps; apply Ps | ].
  cbn [negb when]. apply triple_ret.
  do 6 (apply triple_skip; [ exact (proj1 H) | keeps_auto | stable_walk plain_leaf | intros _ ]).
  apply (triple_known _ _ _ _ _ _ false); [ intros s Ps; apply Ps | ].
  cbv iota. apply tick_updates_plain.
Qed.

(** An iteration of the loop of [variableUpdate] in a plain game. *)
Lemma variableUpdate_step_plain (T t since last : Z) (s : @State W) :
  let since' := wrap16 (Z.min (wrap32 (T - last)) 500) in
  let k := Z.to_nat (numUpdates_of_time since') in
  plain_at T t t since last s ->
  outcome (variableUpdate_step s) = Done tt
  /\ tickLogic_invocations (trace (variableUpdate_step s)) = k
  /\ plain_at T (advance k t) (advance k t) since' T (final (variableUpdate_step s)).
Proof.
  intros since' k Ps.
  assert (Tr : triple (plain_at T t t since last) (is_enter fn_tickLogic) k
                 (plain_at T (advance k t) (advance k t) since' T)
                 (@variableUpdate_step W host)).
  { unfold variableUpdate_step.
    apply triple_skip; [ exact (proj1 H) | keeps_auto | stable_walk plain_leaf | intros _ ].
    apply (triple_conseq _ _ (plain_at T t t since last) _
             (plain_at T (advance k t) (advance k t) since' T) _ (k + 0));
      [ auto | auto | lia | ].
    apply triple_seq with (R := plain_at T (advance k t) (advance k t) since' T).
    - apply tick_plain.
    - intros _. apply triple_frame; [ exact (proj1 H) | keeps_auto | stable_walk plain_leaf ]. }
  destruct (Tr s Ps) as (([] & D) & C & Q). auto.
Qed.

Lemma advance_add (a b : nat) (t : Z) : advance (a + b) t = advance b (advance a t).
Proof. unfold advance. rewrite Nat.add_comm. apply Nat.iter_add. Qed.

Lemma advance_wrap32 (k : nat) (t : Z) :
  (0 < k)%nat -> advance k t = wrap32 (t + Z.of_nat k).
Proof.
  induction k as [ | k IH]; [lia | intros _].
  change (advance (S k) t) with (wrap32 (advance k t + 1)).
  destruct k as [ | k].
  - reflexivity.
  - rewrite IH by lia. rewrite wrap32_add_l. f_equal. lia.
Qed.

Lemma numUpdates_just_ticked (T : Z) :
  Z.to_nat (numUpdates_of_time (wrap16 (Z.min (wrap32 (T - T)) 500))) = 1%nat.
Proof. rewrite Z.sub_diag. reflexivity. Qed.

(** The loop in a plain game whose last tick was at the time now: every
    call of [tick] runs one tick of the logic. *)
Lemma variableUpdate_loop_plain (fuel : nat) (s : @State W) (n : nat) (rest : float)
    (T t since : Z) :
  drain UpdateTime fuel (accumulator s) = Some (n, rest) ->
  plain_at T t t since T s ->
  exists r,
    variableUpdate_loop fuel s = Some r
    /\ outcome r = Done tt
    /\ tick_invocations (trace r) = n
    /\ accumulator (final r) = rest
    /\ tickLogic_invocations (trace r) = n
    /\ scenarioTicks (final r) = advance n t.
Proof.
  revert s n rest t since.
  induction fuel as [ | fuel IH]; intros s n rest t since; cbn [variableUpdate_loop drain];
    destruct (PrimFloat.ltb UpdateTime (accumulator s)); try discriminate;
    try (intros [= <- <-] Ps; eexists; repeat split; apply Ps).
  intros Hd Ps.
  destruct (variableUpdate_step_plain T t since T s Ps) as (D & C & Q).
  rewrite numUpdates_just_ticked in C, Q.
  destruct (variableUpdate_step_runs s D) as (Ht & Ha).
  rewrite <- Ha in Hd.
  destruct (drain UpdateTime fuel (accumulator (final (variableUpdate_step s))))
    as [[n' rest'] | ] eqn:Dr; [ | discriminate].
  injection Hd as <- <-.
  destruct (IH _ _ _ _ _ Dr Q) as (r' & L & D' & T' & A' & C' & K').
  unfold after. rewrite D, L.
  eexists; split; [reflexivity | ]. cbn [outcome trace final].
  split; [exact D' | ].
  unfold tick_invocations, tickLogic_invocations in *.
  rewrite !filter_app, !length_app, Ht, T', C, C'.
  repeat split; auto.
  rewrite K'. change (S n') with (1 + n')%nat. now rewrite advance_add.
Qed.

(** The loop in a plain game: the first call of [tick] runs the ticks of
    the logic that the time since the last tick gives, every other call
    one. *)
Lemma variableUpdate_loop_plain_first (fuel : nat) (s : @State W) (n : nat)
    (rest : float) (T t since last : Z) :
  let k := Z.to_nat (numUpdates_of_time (wrap16 (Z.min (wrap32 (T - last)) 500))) in
  drain UpdateTime fuel (accumulator s) = Some (S n, rest) ->
  plain_at T t t since last s ->
  exists r,
    variableUpdate_loop fuel s = Some r
    /\ outcome r = Done tt
    /\ tick_invocations (trace r) = S n
    /\ accumulator (final r) = rest
    /\ tickLogic_invocations (trace r) = (k + n)%nat
    /\ scenarioTicks (final r) = advance (k + n) t.
Proof.
  intro k.
  destruct fuel as [ | fuel]; cbn [variableUpdate_loop drain];
    destruct (PrimFloat.ltb UpdateTime (accumulator s)); try discriminate.
  intros Hd Ps.
  destruct (variableUpdate_step_plain T t since last s Ps) as (D & C & Q).
  fold k in C, Q.
  destruct (variableUpdate_step_runs s D) as (Ht & Ha).
  rewrite <- Ha in Hd.
  destruct (drain UpdateTime fuel (accumulator (final (variableUpdate_step s))))
    as [[n' rest'] | ] eqn:Dr; [ | discriminate].
  injection Hd as <- <-.
  destruct (variableUpdate_loop_plain fuel _ _ _ _ _ _ Dr Q) as (r' & L & D' & T' & A' & C' & K').
  unfold after. rewrite D, L.
  eexists; split; [reflexivity | ]. cbn [outcome trace final].
  split; [exact D' | ].
  unfold tick_invocations, tickLogic_invocations in *.
  rewrite !filter_app, !length_app, Ht, T', C, C'.
  repeat split; auto.
  rewrite K'. now rewrite advance_add.
Qed.

End PlainGame.

(** ** C2: a tenth of a second in the variable time step *)

Section OneTenthSecond.

Context {W : Type} {host : Host W}.

(** In doubles, three steps of a thirtieth of a second, and three steps of
    33 ms, come off a tenth of a second; what is left is within 1e-15 of a
    tenth of a second less three times the step. *)
Lemma drain_one_tenth_steps (step : float) (k : nat) :
  step = (1 / 30)%float \/ step = (33 / 1000)%float ->
  drain step (S (S (S k))) (1 / 10)%float
  = Some (3%nat, (1 / 10 - step - step - step)%float)
  /\ PrimFloat.ltb
       (PrimFloat.abs ((1 / 10 - step - step - step) - (1 / 10 - 3 * step))%float)
       (1 / 1000000000000000)%float = true.
Proof. intros [-> | ->]; destruct k; split; vm_compute; reflexivity. Qed.


End OneTenthSecond.

(** * More of the model on the concrete host *)

Lemma sim_offline_nothrow : nothrow sim_offline.
Proof. intros c w. destruct c; reflexivity. Qed.

Lemma tick_contains_GameException_witness :
  outcome (@tick _ sim_interrupting (sim_state sim_world)) = Done tt
  /\ In (Ext (Logging_info "Tick interrupted" ""))
       (trace (@tick _ sim_interrupting (sim_state sim_world))).
Proof.
  refine (proj2 (tick_contains_GameException (host := sim_interrupting)
                   (sim_state sim_world) _ _) _).
  - intros w. reflexivity.
  - intros fmt arg w. reflexivity.
  - vm_compute. repeat first [ left; reflexivity | right ].
Defined.

Lemma tick_intro_runs_no_game_witness :
  filter is_game_step (trace (@tick _ sim40 (sim_state world_intro))) = [].
Proof.
  apply (tick_intro_runs_no_game (host := sim40) (sim_state world_intro)).
  vm_compute. repeat first [ left; reflexivity | right ].
Defined.

Lemma tick_updates_dispatch_witness :
  (1 <= occurrences is_dispatchUpdateAll
          (trace (@tick_updates _ sim40 (sim_state sim_world))) <= 3)%nat.
Proof.
  apply (tick_updates_dispatch (host := sim40) (sim_state sim_world) tt).
  vm_compute; reflexivity.
Defined.

Lemma tickLogic_count_stalls_witness :
  @tickLogic_count _ sim40 3 (sim_state world_waiting)
  = mkResult [ Enter fn_tickLogic_count; Enter fn_tickLogic; Enter fn_tickLogic;
               Enter fn_tickLogic ] (Done tt) (sim_state world_waiting).
Proof.
  apply (tickLogic_count_stalls (host := sim40) 3 (sim_state world_waiting)).
  vm_compute; reflexivity.
Defined.

Lemma tickLogic_count_advances_witness :
  wrap32 (scenarioTicks (final (@tickLogic_count _ sim_offline 3 (sim_state sim_world))))
  = 103.
Proof.
  refine (proj1 (proj2 (tickLogic_count_advances (host := sim_offline) 3
                          (sim_state sim_world) _ _))).
  - apply sim_offline_nothrow.
  - intros t w. reflexivity.
Defined.

Lemma tickLogic_order_witness :
  nth_error (filter is_tick_step (trace (@tickLogic _ sim40 (sim_state sim_world)))) 0
  = Some (Ext (Network_processGameCommands 101)).
Proof.
  rewrite (tickLogic_order (host := sim40) (sim_state sim_world) tt).
  - reflexivity.
  - vm_compute; reflexivity.
  - vm_compute; reflexivity.
Defined.

Lemma dateTick_newDay_quarter_and_year_witness :
  filter is_seasonal
    (trace (@dateTick_newDay _ sim40 (sim_calcDate 18359) (sim_calcDate 18360)
              (sim_state world_year_end)))
  = [ Ext CompanyManager_updateQuarterly; Ext CompanyManager_updateYearly;
      Ext ObjectManager_updateDefaultLevelCrossingType;
      Ext ObjectManager_updateYearly2; Ext TileManager_updateYearly ].
Proof.
  apply (dateTick_newDay_quarter_and_year (host := sim40)
           (sim_calcDate 18359) (sim_calcDate 18360) (sim_state world_year_end) tt).
  vm_compute; reflexivity.
Defined.

Lemma autosaveCheck_contains_std_exception_witness :
  outcome (@autosaveCheck _ sim_failing
             (set_monthsSinceLastAutosave 2 (sim_state world_autosave)))
  <> Thrown (std_exception "cannot open file").
Proof.
  apply (autosaveCheck_contains_std_exception (host := sim_failing)).
  intros fmt arg w. reflexivity.
Defined.

Lemma update_records_time_witness :
  exists r,
    @update _ sim30 3 (sim_state world_elapsed) = Some r
    /\ lastUpdate (final r) = 100000.
Proof.
  eexists. split; [vm_compute; reflexivity | ].
  apply (update_records_time (host := sim30) 3 (sim_state world_elapsed)).
  vm_compute; reflexivity.
Defined.

Lemma autosave_filename_chronological_witness :
  String.compare (autosave_filename (mkTm 124 11 31 23 59 59) ".sv5")
    (autosave_filename (mkTm 125 0 1 0 0 0) ".sv5") = Lt
  /\ (String.length (autosave_filename (mkTm 124 11 31 23 59 59) ".sv5") <= 63)%nat.
Proof.
  apply (autosave_filename_chronological
           (mkTm 124 11 31 23 59 59) (mkTm 125 0 1 0 0 0) ".sv5").
  - unfold tm_fits; simpl; lia.
  - unfold tm_fits; simpl; lia.
  - unfold tm_earlier; simpl; lia.
Defined.

Lemma logger_session_witness :
  StructureLayoutLogger.file
    (StructureLayoutLogger.close
       (StructureLayoutLogger.log_all
          [ StructureLayoutLogger.Separator "Core Game Structures";
            StructureLayoutLogger.Member "Company" "cash" 8 6 ]
          (StructureLayoutLogger.start true "an older log")))
  = (StructureLayoutLogger.joined StructureLayoutLogger.header
     ++ StructureLayoutLogger.nl ++ "--- Core Game Structures ---"
     ++ StructureLayoutLogger.nl
     ++ "Company::cash - Offset: 8 (0x8), Size: 6" ++ StructureLayoutLogger.nl
     ++ StructureLayoutLogger.footer)%string.
Proof.
  refine (eq_trans
            (proj1 (logger_session
                      (StructureLayoutLogger.Separator "Core Game Structures")
                      [ StructureLayoutLogger.Member "Company" "cash" 8 6 ]
                      (StructureLayoutLogger.start true "an older log") _ _ _)) _);
    reflexivity.
Defined.

Lemma logger_unwritable_witness :
  StructureLayoutLogger.file
    (StructureLayoutLogger.log_all
       [ StructureLayoutLogger.Note "first"; StructureLayoutLogger.Note "second" ]
       (StructureLayoutLogger.start false "an older log"))
  = "an older log".
Proof.
  refine (proj1 (logger_unwritable
                   [ StructureLayoutLogger.Note "first"; StructureLayoutLogger.Note "second" ]
                   (StructureLayoutLogger.start false "an older log") _ _ _));
    reflexivity.
Defined.

Lemma sim_startsWith_app (a b : string) : String.prefix a (a ++ b) = true.
Proof.
  induction a as [ | c a IH]; cbn; [now destruct b | ].
  destruct (ascii_dec c c) as [_ | N]; [exact IH | now destruct N].
Qed.

Lemma length_append (a b : string) :
  String.length (a ++ b) = (String.length a + String.length b)%nat.
Proof. induction a as [ | c a IH]; cbn; [reflexivity | now rewrite IH]. Qed.

Lemma substring_skip_app (a b : string) (n : nat) :
  String.substring (String.length a) n (a ++ b) = String.substring 0 n b.
Proof. induction a as [ | c a IH]; cbn; [reflexivity | exact IH]. Qed.

Lemma sim_endsWith_app (a b : string) (ignoreCase : bool) :
  sim_endsWith (a ++ b) b ignoreCase = true.
Proof.
  unfold sim_endsWith. rewrite length_append.
  replace (String.length a + String.length b - String.length b)%nat
    with (String.length a) by lia.
  rewrite substring_skip_app, substring_0_all by apply Nat.le_refl.
  rewrite String.eqb_refl, andb_true_r. apply Nat.leb_le. lia.
Qed.

Lemma autosave_writes_cleanable_witness :
  exists name,
    "autosave/autosave_2024-01-31_12-00-00.sv5" = path_join "autosave" name
    /\ @is_autosave_entry _ sim40 (mkEntry name true) = true.
Proof.
  apply (autosave_writes_cleanable (host := sim40) (sim_state sim_world)
           "autosave/autosave_2024-01-31_12-00-00.sv5").
  - intros a b. apply sim_startsWith_app.
  - intros a b. apply sim_endsWith_app.
  - unfold tm_fits; simpl; lia.
  - simpl; lia.
  - vm_compute. repeat first [ left; reflexivity | right ].
Defined.

Lemma sim_frontend_keeps_scene : @frontend_keeps_scene _ sim40.
Proof. intros c w H. destruct c; try discriminate; repeat split. Qed.

Lemma tick_paused_witness :
  (tickLogic_invocations (trace (@tick _ sim40 (sim_state world_paused))) <= 0)%nat
  /\ (tickLogic_invocations (trace (@tick _ sim40 (sim_state world_paused_behind))) <= 4)%nat
  /\ tickLogic_invocations (trace (@tick _ sim40 (sim_state world_paused_behind))) = 4%nat.
Proof.
  split; [ | split; [ | vm_compute; reflexivity ] ].
  - apply (tick_paused (host := sim40) (sim_state world_paused));
      [ apply sim_frontend_keeps_scene | reflexivity | reflexivity ].
  - apply (tick_paused (host := sim40) (sim_state world_paused_behind));
      [ apply sim_frontend_keeps_scene | reflexivity | reflexivity ].
Defined.

(** ** The load error and the tenth of a second on the concrete host *)


Lemma sim_plain_host (rate maxDelta : float) :
  @plain_host _ (simHost rate maxDelta false).
Proof.
  split; [apply sim_nothrow | ].
  split; [ | split; [ | split; [ | split] ] ].
  - intros c w (P1 & P2 & P3 & P4 & P5 & P6 & P7 & P8).
    unfold plain_scene in *. cbn in *.
    destruct c; cbn; try (repeat split; assumption);
      destruct (sw_newDay w); cbn; repeat split; assumption.
  - intros c w. destruct c; cbn; try reflexivity.
    destruct (sw_newDay w); reflexivity.
  - intros t w (_ & _ & _ & P4 & _). cbn in *. now rewrite P4.
  - intros c w Hc. destruct c; try discriminate; cbn; try reflexivity.
    destruct (sw_newDay w); reflexivity.
  - intros t w (_ & _ & _ & P4 & _). cbn in *. now rewrite P4.
Qed.


